(** * Locator handles and table matching of the Playwright UI layer

    A shallow embedding of the element handle ([UiActions], [UiElement]),
    the table handle ([UiTable]), the logger, [StringUtils] and the
    directory listing of the file utilities, followed by the properties the
    specification states about them and further properties of the code.

    Conventions of the embedding.
    - JavaScript strings are [string]s of 8-bit characters: [trim] strips the
      ASCII white space and line terminators (code points 9-13 and 32) and
      [toLowerCase] folds the letters A-Z; characters outside ASCII are left
      alone.
    - JavaScript numbers used as indices and counts are [Z] and [nat].
    - [undefined] is [None]; an optional field [o?.f] is an [option].
    - A rejected promise or thrown exception is [Throw]; the handle keeps
      whatever was assigned to its fields before the throw.
    - The browser engine is a parameter: a function from the history of the
      run and a request to a reply. *)

From Stdlib Require Import String Ascii List ZArith Bool Arith Lia.
From Stdlib Require Import DecimalString DecimalZ Sorted Finite.
Import ListNotations.

Local Open Scope string_scope.
Local Open Scope Z_scope.

(** ** JavaScript string and array primitives *)
Module Js.

Definition isWhiteSpace (c : ascii) : bool :=
  let n := nat_of_ascii c in
  ((9 <=? n) && (n <=? 13))%nat || (n =? 32)%nat.

Fixpoint trimStart (s : string) : string :=
  match s with
  | EmptyString => EmptyString
  | String c r => if isWhiteSpace c then trimStart r else s
  end.

Definition reverse (s : string) : string :=
  string_of_list_ascii (rev (list_ascii_of_string s)).

Definition trimEnd (s : string) : string := reverse (trimStart (reverse s)).

(** [String.prototype.trim] *)
Definition trim (s : string) : string := trimEnd (trimStart s).

Definition lowerChar (c : ascii) : ascii :=
  let n := nat_of_ascii c in
  if ((65 <=? n) && (n <=? 90))%nat then ascii_of_nat (n + 32) else c.

(** [String.prototype.toLowerCase] *)
Fixpoint toLowerCase (s : string) : string :=
  match s with
  | EmptyString => EmptyString
  | String c r => String (lowerChar c) (toLowerCase r)
  end.

(** [s.includes(sub)]: [sub] occurs in [s] as a contiguous block. *)
Fixpoint includes (s sub : string) : bool :=
  String.prefix sub s ||
  match s with
  | EmptyString => false
  | String _ r => includes r sub
  end.

(** [s.split(sep)] for a one-character separator; the result is never
    empty, [''.split(sep)] is [['']]. *)
Fixpoint split (sep : ascii) (s : string) : list string :=
  match s with
  | EmptyString => [EmptyString]
  | String c r =>
      if Ascii.eqb c sep then EmptyString :: split sep r
      else match split sep r with
           | h :: t => String c h :: t
           | [] => [String c EmptyString]
           end
  end.

(** [arr.join(sep)] *)
Definition join (sep : string) (l : list string) : string := String.concat sep l.

(** [arr.toString()] of an array of strings. *)
Definition arrayToString (l : list string) : string := join "," l.

(** [arr.findIndex(p)]: the position of the first element satisfying [p],
    [-1] when there is none. *)
Fixpoint findIndexFrom {A : Type} (i : Z) (p : A -> bool) (l : list A) : Z :=
  match l with
  | [] => -1
  | x :: r => if p x then i else findIndexFrom (i + 1) p r
  end.

Definition findIndex {A : Type} (p : A -> bool) (l : list A) : Z :=
  findIndexFrom 0 p l.

(** [arr[i]] for a number [i]: [undefined] outside the array. *)
Definition index {A : Type} (l : list A) (i : Z) : option A :=
  if i <? 0 then None else nth_error l (Z.to_nat i).

(** Truthiness of [string | null]. *)
Definition truthy (v : option string) : bool :=
  match v with
  | Some s => negb (String.eqb s "")
  | None => false
  end.

(** [a > b] where [a] may be [undefined]: [undefined] converts to NaN and
    every comparison with NaN is false. *)
Definition gt (a : option Z) (b : Z) : bool :=
  match a with
  | Some z => b <? z
  | None => false
  end.

Definition tab : ascii := ascii_of_nat 9.
Definition newline : ascii := ascii_of_nat 10.
Definition quote : ascii := ascii_of_nat 39.

End Js.

Import Js.

(** ** The browser engine as seen from the handle *)

Definition Page := nat.

(** Playwright [Locator] objects are built lazily: constructing one performs
    no engine call. Each constructor is one of the builder calls the source
    uses. *)
Inductive Locator : Type :=
| PageLocator (p : Page) (selector : string)
    (* page.locator(selector) *)
| SubLocator (l : Locator) (selector : string)
    (* l.locator(selector) *)
| SubLocatorHasText (l : Locator) (selector : string) (hasText : string)
    (* l.locator(selector, { hasText }) *)
| SubLocatorHas (l : Locator) (selector : string) (has : Locator)
    (* l.locator(selector, { has }) *)
| Nth (l : Locator) (i : Z)
    (* l.nth(i) *)
| First (l : Locator)
    (* l.first() *)
| FilterHasText (l : Locator) (hasText : string)
    (* l.filter({ hasText }) *)
| GetByText (l : Locator) (text : string) (exact : bool)
    (* l.getByText(text, { exact }) *).

Inductive Error : Type :=
| TypeError (msg : string)
| EngineError (msg : string).

Inductive outcome (A : Type) : Type :=
| Ok (a : A)
| Throw (e : Error).
Arguments Ok {A} a.
Arguments Throw {A} e.

(** Requests to the engine, indexed by the type of the reply. [CssPath] and
    [XPath] are the helpers [cssPath] and [xPath] that [setCssAndXpath]
    calls; they are not defined in the repository and are taken from the
    environment like the engine calls. *)
Inductive Query : Type -> Type :=
| ContextPages : Query (list Page)          (* playwright.context.pages() *)
| WaitForPopup : Query Page                 (* playwright.page.waitForEvent('popup') *)
| WaitForTimeout (p : Page) (ms : Z) : Query unit
| WaitForLoadState (p : Page) (state : option string) : Query unit
| QuerySelector (p : Page) (selector : string) : Query bool
    (* page.$(selector) != null *)
| Count (l : Locator) : Query nat
| All (l : Locator) : Query (list Locator)
| WaitFor (l : Locator) : Query unit
| GetAttribute (l : Locator) (name : string) : Query (option string)
| InnerText (l : Locator) : Query string
| AllInnerTexts (l : Locator) : Query (list string)
| Click (l : Locator) (force : bool) : Query unit
| DblClick (l : Locator) (force : bool) : Query unit
| CheckBox (l : Locator) (force : bool) : Query unit
| UncheckBox (l : Locator) (force : bool) : Query unit
| ClearText (l : Locator) : Query unit
| Fill (l : Locator) (value : string) (force : bool) : Query unit
| Press (l : Locator) (key : string) : Query unit
| TypeText (l : Locator) (text : string) (delay : option Z) : Query unit
| PressSequentially (l : Locator) (text : string) (delay : option Z) : Query unit
| CssPath (l : Locator) : Query string
| XPath (l : Locator) : Query string.

(** What a run leaves behind: the engine calls with their replies, the lines
    handed to the test-context logger and the lines printed to the console. *)
Inductive Event : Type :=
| EvCall {T : Type} (q : Query T) (r : outcome T)
| EvLogger (msg : string)
| EvConsole (msg : string).

(** The engine: the reply to a request may depend on everything that
    happened before (most recent event first). *)
Definition Env : Type := forall T : Type, list Event -> Query T -> outcome T.

(** ** The handle *)

(** The fields of [UiActions]. The constructor assigns [locator], [fullCss],
    [isPopupExist], [pageIndex] and [objectDescriptor]; the other fields stay
    [undefined] until a method assigns them. *)
Record UiActions : Type := mkUiActions {
  locator : string;
  page : option Page;
  objectDescriptor : string;
  isPopupExist : bool;
  pageIndex : Z;
  fullCss : string;
  fullXpath : option string;
  tempLocator : option Locator;
  tempLocators : option (list Locator)
}.

Record ConstructorOptions : Type := mkConstructorOptions {
  co_description : option string;
  co_isPopup : option bool;
  co_pageIndex : option Z
}.

(** [o?.f] *)
Definition optField {O A : Type} (f : O -> option A) (o : option O) : option A :=
  match o with
  | Some r => f r
  | None => None
  end.

(** [x ?? d] *)
Definition orDefault {A : Type} (x : option A) (d : A) : A :=
  match x with
  | Some a => a
  | None => d
  end.

Definition constructor (loc : string) (options : option ConstructorOptions) : UiActions :=
  {| locator := loc;
     page := None;
     objectDescriptor := orDefault (optField co_description options) "object - ";
     isPopupExist := orDefault (optField co_isPopup options) false;
     pageIndex := orDefault (optField co_pageIndex options) 0;
     fullCss := loc;
     fullXpath := None;
     tempLocator := None;
     tempLocators := None |}.

(** The state a method runs in: the handle it is called on, the shared
    [playwright.popup] slot, and the history of the run. *)
Record State : Type := mkState {
  this : UiActions;
  popup : option Page;
  trace : list Event
}.

Definition M (A : Type) : Type := State -> outcome A * State.

Definition ret {A : Type} (a : A) : M A := fun st => (Ok a, st).

Definition bind {A B : Type} (m : M A) (k : A -> M B) : M B :=
  fun st =>
    match m st with
    | (Ok a, st') => k a st'
    | (Throw e, st') => (Throw e, st')
    end.

Definition throw {A : Type} (e : Error) : M A := fun st => (Throw e, st).

Declare Scope js_scope.
Delimit Scope js_scope with js.
Notation "x <- m ;; k" := (bind m (fun x => k))
  (at level 61, m at next level, right associativity) : js_scope.
Notation "m ;; k" := (bind m (fun _ => k))
  (at level 61, right associativity) : js_scope.
Local Open Scope js_scope.

Definition getThis : M UiActions := fun st => (Ok (this st), st).

Definition modifyThis (f : UiActions -> UiActions) : M unit :=
  fun st => (Ok tt, mkState (f (this st)) (popup st) (trace st)).

Definition getPopup : M (option Page) := fun st => (Ok (popup st), st).

Definition setPopup (p : option Page) : M unit :=
  fun st => (Ok tt, mkState (this st) p (trace st)).

Definition emit (ev : Event) : M unit :=
  fun st => (Ok tt, mkState (this st) (popup st) (ev :: trace st)).

Definition set_page (p : option Page) (h : UiActions) : UiActions :=
  mkUiActions (locator h) p (objectDescriptor h) (isPopupExist h) (pageIndex h)
    (fullCss h) (fullXpath h) (tempLocator h) (tempLocators h).

Definition set_locator (s : string) (h : UiActions) : UiActions :=
  mkUiActions s (page h) (objectDescriptor h) (isPopupExist h) (pageIndex h)
    (fullCss h) (fullXpath h) (tempLocator h) (tempLocators h).

Definition set_objectDescriptor (s : string) (h : UiActions) : UiActions :=
  mkUiActions (locator h) (page h) s (isPopupExist h) (pageIndex h)
    (fullCss h) (fullXpath h) (tempLocator h) (tempLocators h).

Definition set_pageIndex (i : Z) (h : UiActions) : UiActions :=
  mkUiActions (locator h) (page h) (objectDescriptor h) (isPopupExist h) i
    (fullCss h) (fullXpath h) (tempLocator h) (tempLocators h).

Definition set_fullCss (s : string) (h : UiActions) : UiActions :=
  mkUiActions (locator h) (page h) (objectDescriptor h) (isPopupExist h) (pageIndex h)
    s (fullXpath h) (tempLocator h) (tempLocators h).

Definition set_fullXpath (s : option string) (h : UiActions) : UiActions :=
  mkUiActions (locator h) (page h) (objectDescriptor h) (isPopupExist h) (pageIndex h)
    (fullCss h) s (tempLocator h) (tempLocators h).

Definition set_tempLocators (b : option (list Locator)) (h : UiActions) : UiActions :=
  mkUiActions (locator h) (page h) (objectDescriptor h) (isPopupExist h) (pageIndex h)
    (fullCss h) (fullXpath h) (tempLocator h) b.

(** [for (const x of xs) { body(x) }] *)
Fixpoint forEachM {A : Type} (xs : list A) (body : A -> M unit) : M unit :=
  match xs with
  | [] => ret tt
  | x :: r => body x ;; forEachM r body
  end.

(** The results of [body] over [xs], in order. *)
Fixpoint mapM {A B : Type} (body : A -> M B) (xs : list A) : M (list B) :=
  match xs with
  | [] => ret []
  | x :: r => y <- body x ;; ys <- mapM body r ;; ret (y :: ys)
  end.

(** The pairs [(element, index)] that [arr.map((x, i) => ...)] visits. *)
Fixpoint indexedFrom {A : Type} (i : Z) (xs : list A) : list (A * Z) :=
  match xs with
  | [] => []
  | x :: r => (x, i) :: indexedFrom (i + 1) r
  end.

(** The indices [0 .. n-1] of [for (let index = 0; index < n; index++)]. *)
Definition upTo (n : nat) : list Z := map Z.of_nat (seq 0 n).

(** [`${n}`] for an integer. *)
Definition numberToString (z : Z) : string :=
  DecimalString.NilEmpty.string_of_int (Z.to_int z).

(** ** The logger (default export of the logger module) *)

(** [info]: the line always goes to the test-context logger, and to the
    console unless it mentions a password. *)
Definition logger_info (msg : string) : M unit :=
  emit (EvLogger msg) ;;
  if negb (includes (toLowerCase msg) "password") then emit (EvConsole msg)
  else ret tt.

(** [console.log] *)
Definition console_log (msg : string) : M unit := emit (EvConsole msg).

(** ** [StringUtils.getIndex] *)

Fixpoint getIndex_callback (exactMatch : bool) (expectedValues : list string)
    (row_text : list string) : bool :=
  match expectedValues with
  | [] => true
  | col_data :: rest =>
      if exactMatch then
        if findIndex (fun ele => String.eqb (toLowerCase (trim ele)) (trim (toLowerCase col_data))) row_text <? 0
        then false else getIndex_callback exactMatch rest row_text
      else
        if findIndex (fun ele => includes (toLowerCase (trim ele)) (trim (toLowerCase col_data))) row_text <? 0
        then false else getIndex_callback exactMatch rest row_text
  end.

Definition getIndex (sourceArray : list (list string)) (expectedValues : list string)
    (exactMatch : bool) : Z :=
  let row_index := findIndex (getIndex_callback exactMatch expectedValues) sourceArray in
  if row_index >=? 0 then row_index else -1.

(** ** Methods of [UiActions] *)

Record ActionOptions : Type := mkActionOptions {
  ao_objIndex : option Z;
  ao_force : option bool
}.

Record FindOptions : Type := mkFindOptions {
  fo_index : option Z;
  fo_hasText : option string;
  fo_nthObj : option Z
}.

Record IndexOptions : Type := mkIndexOptions {
  io_index : option Z
}.

Record ValueOptions : Type := mkValueOptions {
  vo_keyPress : option string;
  vo_force : option bool
}.

Record TypeOptions : Type := mkTypeOptions {
  to_delay : option Z;
  to_keyPress : option string
}.

Record AllObjectsOptions : Type := mkAllObjectsOptions {
  go_hasText : option string
}.

Record LocatorOptions : Type := mkLocatorOptions {
  lo_locator : option string
}.

Record MatchOptions : Type := mkMatchOptions {
  mo_locator : option string;
  mo_exactMatch : option bool
}.

Record MetaMatchOptions : Type := mkMetaMatchOptions {
  mm_locator : option string;
  mm_exactMatch : option bool;
  mm_minColumnSize : option Z
}.

Definition notAFunction (name : string) : Error :=
  TypeError ("this." ++ name ++ " is not a function").

Definition undefinedProperty (name : string) : Error :=
  TypeError ("Cannot read properties of undefined (reading '" ++ name ++ "')").

Section Methods.

Variable env : Env.

(** One engine call: ask the environment, record request and reply. *)
Definition call {T : Type} (q : Query T) : M T :=
  fun st =>
    let r := env T (trace st) q in
    (r, mkState (this st) (popup st) (EvCall q r :: trace st)).

Definition getPage : M unit :=
  h <- getThis ;;
  if isPopupExist h then
    (pp <- getPopup ;;
     match pp with
     | None =>
         modifyThis (set_page None) ;;
         newPopup <- call WaitForPopup ;;
         setPopup (Some newPopup)
     | Some _ => ret tt
     end) ;;
    pp' <- getPopup ;;
    modifyThis (set_page pp')
  else
    pages <- call ContextPages ;;
    modifyThis (set_page (index pages (pageIndex h))).

(** [this.page.<member>]: reading a member of [undefined] throws. *)
Definition thisPage (member : string) : M Page :=
  h <- getThis ;;
  match page h with
  | Some p => ret p
  | None => throw (undefinedProperty member)
  end.

Definition switchPage (i : Z) : M unit := modifyThis (set_pageIndex i).

Definition setLocator (loc : string) (description : option string) : M unit :=
  modifyThis (set_locator loc) ;;
  match description with
  | Some d => modifyThis (set_objectDescriptor d)
  | None => ret tt
  end.

Definition waitTillElementToBeReady : M unit :=
  getPage ;;
  p <- thisPage "waitForTimeout" ;;
  call (WaitForTimeout p 10) ;;
  call (WaitForLoadState p None) ;;
  call (WaitForLoadState p (Some "domcontentloaded")) ;;
  call (WaitForLoadState p (Some "networkidle")).

Definition getLocator : M string :=
  h <- getThis ;;
  ret (if String.eqb (fullCss h) (locator h) then locator h else fullCss h).

Definition getElement : M Locator :=
  waitTillElementToBeReady ;;
  p <- thisPage "locator" ;;
  sel <- getLocator ;;
  ret (PageLocator p sel).

Definition setCssAndXpath (element : Locator) : M unit :=
  css <- call (CssPath element) ;;
  modifyThis (set_fullCss css) ;;
  xp <- call (XPath element) ;;
  modifyThis (set_fullXpath (Some xp)).

(** The class declares [setCssAndXpath] only: the member spelled
    [setCssAndXPath] is [undefined], and calling it throws. *)
Definition setCssAndXPath (element : option Locator) : M unit :=
  throw (notAFunction "setCssAndXPath").

Definition clearFullCssAndXPath : M unit :=
  h <- getThis ;;
  modifyThis (set_fullCss (locator h)) ;;
  modifyThis (set_fullXpath (Some "")).

(** The class declares [clearFullCssAndXPath] only: the member spelled
    [clearFullCssAndXpath] is [undefined], and calling it throws. *)
Definition clearFullCssAndXpath : M unit :=
  throw (notAFunction "clearFullCssAndXpath").

Definition getSibling (loc : string) (nthElement : Z) : M unit :=
  e <- getElement ;;
  let ele := Nth (SubLocator (SubLocator e "xpath=..") loc) nthElement in
  setCssAndXpath ele.

Definition getNth (i : Z) : M unit :=
  e <- getElement ;;
  let ele := Nth e i in
  setCssAndXPath (Some ele).

Definition contains (containsText : string) (options : option IndexOptions) : M unit :=
  let _index := orDefault (optField io_index options) 0 in
  e <- getElement ;;
  let ele := Nth (FilterHasText e containsText) _index in
  setCssAndXpath ele.

Definition hasText (containsText : string) (exactMatch : bool)
    (options : option IndexOptions) : M unit :=
  let _index := orDefault (optField io_index options) 0 in
  e <- getElement ;;
  let ele := Nth (GetByText e containsText exactMatch) _index in
  setCssAndXpath ele.

Definition find (loc : string) (options : option FindOptions) : M unit :=
  let _index := orDefault (optField fo_index options) 0 in
  let _objIndex := orDefault (optField fo_nthObj options) 0 in
  match optField fo_hasText options with
  | None =>
      p <- thisPage "locator" ;;
      sel <- getLocator ;;
      let ele := Nth (PageLocator p (sel ++ " " ++ loc)) _index in
      setCssAndXpath ele
  | Some txt =>
      e <- getElement ;;
      let ele := Nth (SubLocatorHasText e loc txt) _index in
      setCssAndXpath ele
  end ;;
  match optField fo_nthObj options with
  | Some _ =>
      e <- getElement ;;
      let ele := Nth e _objIndex in
      h <- getThis ;;
      setCssAndXPath (tempLocator h)
  | None => ret tt
  end.

Definition setDescription (desc : string) : M unit :=
  modifyThis (set_objectDescriptor desc).

Definition getCount : M nat :=
  e <- getElement ;;
  length <- call (Count e) ;;
  clearFullCssAndXpath ;;
  ret length.

Definition getText (i : option Z) : M string :=
  let index := orDefault i (-1) in
  let _index := if index =? -1 then 0 else index in
  e <- getElement ;;
  text <- call (InnerText (Nth e _index)) ;;
  clearFullCssAndXPath ;;
  h <- getThis ;;
  logger_info ("Getting text from " ++ objectDescriptor h) ;;
  ret text.

Definition isExist : M bool :=
  getPage ;;
  p <- thisPage "waitForLoadState" ;;
  call (WaitForLoadState p None) ;;
  call (WaitForLoadState p (Some "domcontentloaded")) ;;
  call (WaitForLoadState p (Some "networkidle")) ;;
  clearFullCssAndXPath ;;
  p' <- thisPage "$" ;;
  sel <- getLocator ;;
  flag <- call (QuerySelector p' sel) ;;
  ret flag.

Definition click (options : option ActionOptions) : M unit :=
  let _objIndex := orDefault (optField ao_objIndex options) 0 in
  let _force := orDefault (optField ao_force options) false in
  e <- getElement ;;
  let obj := Nth e _objIndex in
  call (Click obj _force) ;;
  h <- getThis ;;
  logger_info ("Clicked on the " ++ objectDescriptor h ++ " [" ++ numberToString _objIndex ++ "]") ;;
  clearFullCssAndXPath.

Definition dblClick (options : option ActionOptions) : M unit :=
  let _objIndex := orDefault (optField ao_objIndex options) 0 in
  let _force := orDefault (optField ao_force options) false in
  e <- getElement ;;
  let obj := Nth e _objIndex in
  call (DblClick obj _force) ;;
  h <- getThis ;;
  logger_info ("Double-clicked on the " ++ objectDescriptor h ++ " [" ++ numberToString _objIndex ++ "]") ;;
  clearFullCssAndXPath.

(** [options?.objIndex?.valueOf() !== undefined ? -1 : options?.objIndex] *)
Definition checkObjIndex (options : option ActionOptions) : option Z :=
  match optField ao_objIndex options with
  | Some _ => Some (-1)
  | None => optField ao_objIndex options
  end.

(** [options?.force?.valueOf() !== undefined ? options?.force : false] *)
Definition forceOrFalse (force : option bool) : bool :=
  match force with
  | Some f => f
  | None => false
  end.

(** [_objIndex > -1 ? (await this.getElement()).nth(_objIndex)
                   : (await this.getElement()).first()];
    the first branch is only taken with a number, [orDefault] is never
    asked for its default there. *)
Definition checkTarget (_objIndex : option Z) : M Locator :=
  if gt _objIndex (-1) then
    e <- getElement ;; ret (Nth e (orDefault _objIndex 0))
  else
    e <- getElement ;; ret (First e).

Definition check (options : option ActionOptions) : M unit :=
  let _objIndex := checkObjIndex options in
  let _force := forceOrFalse (optField ao_force options) in
  waitTillElementToBeReady ;;
  obj <- checkTarget _objIndex ;;
  flag <- call (GetAttribute obj "disabled") ;;
  (if negb (truthy flag) then
     call (CheckBox obj _force) ;;
     h <- getThis ;;
     logger_info (objectDescriptor h ++ " - checked the checkbox")
   else
     h <- getThis ;;
     logger_info (objectDescriptor h ++ " - unable to check the checkbox, it's disabled")) ;;
  clearFullCssAndXPath.

Definition uncheck (options : option ActionOptions) : M unit :=
  let _objIndex := checkObjIndex options in
  let _force := forceOrFalse (optField ao_force options) in
  obj <- checkTarget _objIndex ;;
  flag <- call (GetAttribute obj "disabled") ;;
  (if negb (truthy flag) then
     call (UncheckBox obj _force) ;;
     h <- getThis ;;
     logger_info (objectDescriptor h ++ " - unchecked the checkbox")
   else
     h <- getThis ;;
     logger_info (objectDescriptor h ++ " - unable to uncheck the checkbox, it's disabled")) ;;
  clearFullCssAndXPath.

(** [this.objectDescriptor.toLowerCase().includes('password') ? '******' : inputString] *)
Definition maskedValue (descriptor inputString : string) : string :=
  if includes (toLowerCase descriptor) "password" then "******" else inputString.

(** [keyPress] branch shared by the value-entering actions. *)
Definition pressIfAsked (keyPress : option string) : M unit :=
  match keyPress with
  | Some k => e <- getElement ;; call (Press e k)
  | None => ret tt
  end.

Definition setValue (inputString : string) (options : option ValueOptions) : M unit :=
  let _force := forceOrFalse (optField vo_force options) in
  e1 <- getElement ;;
  call (ClearText e1) ;;
  e2 <- getElement ;;
  call (Fill e2 inputString _force) ;;
  pressIfAsked (optField vo_keyPress options) ;;
  h <- getThis ;;
  logger_info (objectDescriptor h ++ " - set the value: " ++ maskedValue (objectDescriptor h) inputString) ;;
  clearFullCssAndXpath.

(** [options?.delay?.valueOf() !== undefined ? 0 : options?.delay] *)
Definition typeDelay (delay : option Z) : option Z :=
  match delay with
  | Some _ => Some 0
  | None => delay
  end.

Definition type (inputString : string) (options : option TypeOptions) : M unit :=
  let _delay := typeDelay (optField to_delay options) in
  e <- getElement ;;
  call (TypeText e inputString _delay) ;;
  pressIfAsked (optField to_keyPress options) ;;
  h <- getThis ;;
  logger_info (objectDescriptor h ++ " - typed the value: " ++ maskedValue (objectDescriptor h) inputString) ;;
  clearFullCssAndXPath.

Definition pressSequentially (inputString : string) (options : option TypeOptions) : M unit :=
  let _delay := typeDelay (optField to_delay options) in
  e <- getElement ;;
  call (PressSequentially e inputString _delay) ;;
  pressIfAsked (optField to_keyPress options) ;;
  h <- getThis ;;
  logger_info (objectDescriptor h ++ " - pressed sequentially: " ++ maskedValue (objectDescriptor h) inputString) ;;
  clearFullCssAndXPath.

(** ** [UiElement] *)

(** [arrayLocators.forEach(loc => this.tempLocators.push(loc))]: the buffer
    is read once per element, so an empty result never touches it. *)
Definition pushTempLocators (arrayLocators : list Locator) : M unit :=
  forEachM arrayLocators (fun loc =>
    h <- getThis ;;
    match tempLocators h with
    | Some buf => modifyThis (set_tempLocators (Some (buf ++ [loc])%list))
    | None => throw (undefinedProperty "push")
    end).

(** [new UiElement(cssLocator, { description })] *)
Definition newUiElement (cssLocator description : string) : UiActions :=
  constructor cssLocator
    (Some (mkConstructorOptions (Some description) None None)).

(** The callbacks handed to [Promise.all] are modelled as running one after
    the other, in the order of the buffer. *)
Definition getAllObjects (options : option AllObjectsOptions) : M (list UiActions) :=
  match optField go_hasText options with
  | None =>
      e <- getElement ;;
      p <- thisPage "locator" ;;
      h <- getThis ;;
      arrayLocators <- call (All (SubLocatorHas e ":scope" (PageLocator p (locator h)))) ;;
      pushTempLocators arrayLocators
  | Some txt =>
      e <- getElement ;;
      h <- getThis ;;
      arrayLocators <- call (All (SubLocatorHasText e (locator h) txt)) ;;
      pushTempLocators arrayLocators
  end ;;
  h <- getThis ;;
  match tempLocators h with
  | None => throw (undefinedProperty "map")
  | Some buf =>
      mapM (fun li : Locator * Z =>
              let (loc, index) := li in
              cssLocator <- call (CssPath loc) ;;
              h' <- getThis ;;
              ret (newUiElement cssLocator
                     (objectDescriptor h' ++ " [" ++ numberToString index ++ "]")))
           (indexedFrom 0 buf)
  end.

(** ** [UiTable] *)

Definition getRow (i : Z) (options : option LocatorOptions) : M unit :=
  let _locator := orDefault (optField lo_locator options) "tr" in
  waitTillElementToBeReady ;;
  e <- getElement ;;
  let ele := Nth (SubLocator e _locator) i in
  setCssAndXPath (Some ele).

Definition getHeaderNames : M (list string) :=
  e <- getElement ;;
  arr <- call (AllInnerTexts (SubLocator e "th")) ;;
  clearFullCssAndXPath ;;
  ret arr.

Definition getHeaderColumnNumber (colName : string) (exactMatch : bool) : M Z :=
  e <- getElement ;;
  innerTextArr <- call (AllInnerTexts (SubLocator e "th")) ;;
  clearFullCssAndXPath ;;
  if exactMatch then
    ret (findIndex (fun ele => String.eqb (trim ele) (trim colName)) innerTextArr)
  else
    ret (findIndex (fun ele => String.eqb (toLowerCase (trim ele)) (toLowerCase (trim colName)))
           innerTextArr).

Definition getRowsLength (options : option LocatorOptions) : M nat :=
  let _locator := orDefault (optField lo_locator options) "tr" in
  ex <- isExist ;;
  length <- (if ex then e <- getElement ;; call (Count (SubLocator e _locator))
             else ret 0%nat) ;;
  clearFullCssAndXPath ;;
  ret length.

(** [ele.trim().includes(`'`) ? ele.trim().split(`'`)[1] : ele.trim()];
    a string that contains a quote splits into at least two parts, so
    position 1 exists whenever it is read. *)
Definition unquote (ele : string) : string :=
  if includes (trim ele) (String quote EmptyString)
  then nth 1 (split quote (trim ele)) EmptyString
  else trim ele.

(** [tableData.toString().split('\t').join('').split('\n')] *)
Definition splitRow (tableData : list string) : list string :=
  split newline (join "" (split tab (arrayToString tableData))).

(** The callback handed to [arr.findIndex] in [getMatchedRowIndex]. *)
Fixpoint getMatchedRowIndex_callback (_exactMatch : bool) (rowValues : list string)
    (rowText : list string) : bool :=
  match rowValues with
  | [] => true
  | colData :: rest =>
      if _exactMatch then
        if findIndex (fun ele => String.eqb (toLowerCase (trim ele)) (trim (toLowerCase colData))) rowText <? 0
        then false else getMatchedRowIndex_callback _exactMatch rest rowText
      else
        if findIndex (fun ele => negb (includes (toLowerCase (trim ele)) (trim (toLowerCase colData)))) rowText >=? 0
        then false else getMatchedRowIndex_callback _exactMatch rest rowText
  end.

(** The row-collecting loop shared by [getMatchedRowIndex] and
    [getMetaTableMatchedRowIndex]. *)
Fixpoint collectRows (_locator : string) (indices : list Z) (arr : list (list string))
    : M (list (list string)) :=
  match indices with
  | [] => ret arr
  | i :: rest =>
      e <- getElement ;;
      tableData <- call (AllInnerTexts (Nth (SubLocator e _locator) i)) ;;
      let rowData := splitRow tableData in
      collectRows _locator rest
        (if (1 <? List.length rowData)%nat then (arr ++ [rowData])%list else arr)
  end.

Definition getMatchedRowIndex (rowValues0 : list string) (options : option MatchOptions) : M Z :=
  let _locator := orDefault (optField mo_locator options) "tr" in
  let _exactMatch := orDefault (optField mo_exactMatch options) false in
  let rowValues := map unquote rowValues0 in
  waitTillElementToBeReady ;;
  e <- getElement ;;
  rows <- call (Count (SubLocator e _locator)) ;;
  arr <- collectRows _locator (upTo rows) [] ;;
  let rowIndex := findIndex (getMatchedRowIndex_callback _exactMatch rowValues) arr in
  clearFullCssAndXPath ;;
  ret (if rowIndex >=? 0 then rowIndex else -1).

(** The per-row test of [getMatchedRowIndices]: [flag] after the loop over
    [rowValues]. *)
Fixpoint getMatchedRowIndices_flag (_exactMatch : bool) (rowValues : list string)
    (row_text_arr : list string) : bool :=
  match rowValues with
  | [] => true
  | col_data :: rest =>
      if _exactMatch then
        if findIndex (fun ele => String.eqb (toLowerCase (trim ele)) (trim (toLowerCase col_data))) row_text_arr <? 0
        then false else getMatchedRowIndices_flag _exactMatch rest row_text_arr
      else
        if findIndex (fun ele => includes (toLowerCase (trim ele)) (trim (toLowerCase col_data))) row_text_arr <? 0
        then false else getMatchedRowIndices_flag _exactMatch rest row_text_arr
  end.

(** The scanning loop of [getMatchedRowIndices]. *)
Fixpoint scanRows (_locator : string) (_exactMatch : bool) (rowValues : list string)
    (indices : list Z) (foundIndices : list Z) : M (list Z) :=
  match indices with
  | [] => ret foundIndices
  | i :: rest =>
      e <- getElement ;;
      row_text <- call (AllInnerTexts (Nth (SubLocator e _locator) i)) ;;
      let row_text_arr := split newline (arrayToString row_text) in
      scanRows _locator _exactMatch rowValues rest
        (if getMatchedRowIndices_flag _exactMatch rowValues row_text_arr
         then (foundIndices ++ [i])%list else foundIndices)
  end.

Definition getMatchedRowIndices (rowValues0 : list string) (options : option MatchOptions)
    : M (list Z) :=
  let _locator := orDefault (optField mo_locator options) "tr" in
  let _exactMatch := orDefault (optField mo_exactMatch options) false in
  let rowValues := map unquote rowValues0 in
  e <- getElement ;;
  nRows <- call (Count e) ;;
  foundIndices <- scanRows _locator _exactMatch rowValues (upTo nRows) [] ;;
  clearFullCssAndXPath ;;
  ret foundIndices.

(** The callback handed to [arr.findIndex] in [getMetaTableMatchedRowIndex]. *)
Fixpoint getMetaTableMatchedRowIndex_callback (_exactMatch : bool) (rowValues : list string)
    (row_text : list string) : bool :=
  match rowValues with
  | [] => true
  | col_data :: rest =>
      if _exactMatch then
        if findIndex (fun ele => String.eqb (toLowerCase (trim ele)) (trim (toLowerCase col_data))) row_text <? 0
        then false else getMetaTableMatchedRowIndex_callback _exactMatch rest row_text
      else
        if findIndex (fun ele => negb (includes (toLowerCase (trim ele)) (trim (toLowerCase col_data)))) row_text >=? 0
        then false else getMetaTableMatchedRowIndex_callback _exactMatch rest row_text
  end.

Definition getMetaTableMatchedRowIndex (rowValues0 : list string)
    (options : option MatchOptions) : M Z :=
  let _locator := orDefault (optField mo_locator options) "tr" in
  let _exactMatch := orDefault (optField mo_exactMatch options) false in
  let rowValues := map trim rowValues0 in
  e0 <- getElement ;;
  call (WaitFor (Nth (SubLocator e0 _locator) 0)) ;;
  e <- getElement ;;
  rows <- call (Count (SubLocator e _locator)) ;;
  arr <- collectRows _locator (upTo rows) [] ;;
  let rowIndex := findIndex (getMetaTableMatchedRowIndex_callback _exactMatch rowValues) arr in
  clearFullCssAndXPath ;;
  ret (if rowIndex >=? 0 then rowIndex else -1).

(** [arr[i] = v] for a position inside the array. *)
Fixpoint assignAt {A : Type} (i : nat) (v : A) (arr : list A) : list A :=
  match arr, i with
  | [], _ => []
  | _ :: r, O => v :: r
  | x :: r, S j => x :: assignAt j v r
  end.

(** The cells of one row of [getMetaTableMatchedRowIndices]. *)
Definition readCells (row : Locator) : M (list string) :=
  cols <- call (All (SubLocator row "td")) ;;
  mapM (fun col => t <- call (InnerText col) ;; ret (trim t)) cols.

Fixpoint collectMetaRows (_minColumnSize : Z) (rows : list Locator)
    (arr : list (list string)) : M (list (list string)) :=
  match rows with
  | [] => ret arr
  | row :: rest =>
      arrTds <- readCells row ;;
      collectMetaRows _minColumnSize rest
        (if Z.of_nat (List.length arrTds) >? _minColumnSize
         then (arr ++ [arrTds])%list else arr)
  end.

(** The search loop of [getMetaTableMatchedRowIndices]: [n] rounds, each
    looking for the first row that still matches and blanking it. *)
Fixpoint searchMetaRows (_exactMatch : bool) (rowValues : list string) (n : nat)
    (arr : list (list string)) (foundIndices : list Z) : list Z :=
  match n with
  | O => foundIndices
  | S m =>
      let row_index := findIndex (getIndex_callback _exactMatch rowValues) arr in
      if row_index >=? 0
      then searchMetaRows _exactMatch rowValues m
             (assignAt (Z.to_nat row_index) [] arr) (foundIndices ++ [row_index])%list
      else searchMetaRows _exactMatch rowValues m arr foundIndices
  end.

Definition getMetaTableMatchedRowIndices (rowValues : list string)
    (options : option MetaMatchOptions) : M (list Z) :=
  let _locator :=
    match optField mm_locator options with
    | Some l => if String.eqb l "" then "tr" else l
    | None => "tr"
    end in
  let _exactMatch := orDefault (optField mm_exactMatch options) false in
  let _minColumnSize := orDefault (optField mm_minColumnSize options) 1 in
  console_log ("Received data: " ++ arrayToString rowValues) ;;
  e <- getElement ;;
  rows <- call (All (SubLocator e _locator)) ;;
  arr <- collectMetaRows _minColumnSize rows [] ;;
  ret (searchMetaRows _exactMatch rowValues (List.length arr) arr []).

End Methods.

(** ** Concrete pages used in the examples *)

(** A page that does not change while it is looked at: every reply is a
    function of the request alone. *)
Record Dom : Type := mkDom {
  d_pages : list Page;
  d_exists : string -> bool;
  d_count : Locator -> nat;
  d_all : Locator -> list Locator;
  d_attribute : Locator -> string -> option string;
  d_innerText : Locator -> string;
  d_allInnerTexts : Locator -> list string;
  d_cssPath : Locator -> string;
  d_xPath : Locator -> string
}.

Definition staticEnv (d : Dom) : Env :=
  fun T _ q =>
    match q in Query T return outcome T with
    | ContextPages => Ok (d_pages d)
    | WaitForPopup => Throw (EngineError "no popup")
    | WaitForTimeout _ _ => Ok tt
    | WaitForLoadState _ _ => Ok tt
    | QuerySelector _ sel => Ok (d_exists d sel)
    | Count l => Ok (d_count d l)
    | All l => Ok (d_all d l)
    | WaitFor _ => Ok tt
    | GetAttribute l name => Ok (d_attribute d l name)
    | InnerText l => Ok (d_innerText d l)
    | AllInnerTexts l => Ok (d_allInnerTexts d l)
    | Click _ _ => Ok tt
    | DblClick _ _ => Ok tt
    | CheckBox _ _ => Ok tt
    | UncheckBox _ _ => Ok tt
    | ClearText _ => Ok tt
    | Fill _ _ _ => Ok tt
    | Press _ _ => Ok tt
    | TypeText _ _ _ => Ok tt
    | PressSequentially _ _ _ => Ok tt
    | CssPath l => Ok (d_cssPath d l)
    | XPath l => Ok (d_xPath d l)
    end.

(** [l.all()] on a locator with [n] matches: [l.nth(0) .. l.nth(n-1)]. *)
Definition nthLocators (l : Locator) (n : nat) : list Locator :=
  map (Nth l) (upTo n).

(** The outermost [nth] index of a locator, if it has one. *)
Definition nthIndex (l : Locator) : option Z :=
  match l with
  | Nth _ i => Some i
  | _ => None
  end.

(** A table given by the inner text of its rows; [roots] is the number of
    elements the handle's own selector matches. *)
Definition tableDom (roots : nat) (rows : list string) : Dom :=
  {| d_pages := [0%nat];
     d_exists := fun _ => true;
     d_count := fun l =>
       match l with
       | SubLocator _ _ => List.length rows
       | _ => roots
       end;
     d_all := fun _ => [];
     d_attribute := fun _ _ => None;
     d_innerText := fun _ => "";
     d_allInnerTexts := fun l =>
       match l with
       | Nth (SubLocator _ _) i =>
           match index rows i with
           | Some t => [t]
           | None => []
           end
       | _ => []
       end;
     d_cssPath := fun _ => "";
     d_xPath := fun _ => "" |}.

Definition start (h : UiActions) : State := mkState h None [].

Definition lf : string := String newline EmptyString.

(** The three-row table of the specification's scenario: a header of one
    cell, then the rows Alice/30 and Bob/30. *)
Definition scenarioRows : list string :=
  ["Header"; "Alice" ++ lf ++ "30"; "Bob" ++ lf ++ "30"].

(** A list with [n] items: every locator has [n] matches, [all] enumerates
    them, and [cssPath]/[xPath] name an item by its position. The
    ["disabled"] attribute of every element is [disabled]. *)
Definition listDom (n : nat) (disabled : option string) : Dom :=
  {| d_pages := [0%nat];
     d_exists := fun _ => (0 <? n)%nat;
     d_count := fun _ => n;
     d_all := fun l => nthLocators l n;
     d_attribute := fun _ name => if String.eqb name "disabled" then disabled else None;
     d_innerText := fun _ => "item";
     d_allInnerTexts := fun _ => repeat "item" n;
     d_cssPath := fun l => "ul > li:nth-child(" ++ numberToString (orDefault (nthIndex l) 0 + 1) ++ ")";
     d_xPath := fun l => "/ul/li[" ++ numberToString (orDefault (nthIndex l) 0 + 1) ++ "]" |}.

(** A table whose header cells have the texts [headers]. *)
Definition headersDom (headers : list string) : Dom :=
  {| d_pages := [0%nat];
     d_exists := fun _ => true;
     d_count := fun _ => List.length headers;
     d_all := fun _ => [];
     d_attribute := fun _ _ => None;
     d_innerText := fun _ => "";
     d_allInnerTexts := fun _ => headers;
     d_cssPath := fun _ => "";
     d_xPath := fun _ => "" |}.

(** A table given by the cell texts of its rows, for the methods that go
    through the cell elements: [all] enumerates rows and cells by position
    and [innerText] of the [j]-th cell of the [i]-th row is its text. *)
Definition cellsDom (rows : list (list string)) : Dom :=
  {| d_pages := [0%nat];
     d_exists := fun _ => true;
     d_count := fun _ => List.length rows;
     d_all := fun l =>
       match l with
       | SubLocator (Nth _ i) _ =>
           nthLocators l (List.length (orDefault (index rows i) []))
       | _ => nthLocators l (List.length rows)
       end;
     d_attribute := fun _ _ => None;
     d_innerText := fun l =>
       match l with
       | Nth (SubLocator (Nth _ i) _) j =>
           orDefault (index (orDefault (index rows i) []) j) ""
       | _ => ""
       end;
     d_allInnerTexts := fun _ => [];
     d_cssPath := fun _ => "";
     d_xPath := fun _ => "" |}.

(** The table handle of the examples. *)
Definition table : State := start (constructor "table" None).

(** ** Chains *)

(** The narrowing operations of a chain, with their arguments. *)
Inductive Narrowing : Type :=
| NFind (loc : string) (options : option FindOptions)
| NGetNth (i : Z)
| NGetSibling (loc : string) (nthElement : Z)
| NContains (containsText : string) (options : option IndexOptions)
| NHasText (containsText : string) (exactMatch : bool) (options : option IndexOptions)
| NGetRow (i : Z) (options : option LocatorOptions).

(** The terminal actions of a chain, with their arguments. *)
Inductive Terminal : Type :=
| TClick (options : option ActionOptions)
| TDblClick (options : option ActionOptions)
| TCheck (options : option ActionOptions)
| TUncheck (options : option ActionOptions)
| TGetText (i : option Z)
| TGetCount
| TIsExist
| TSetValue (inputString : string) (options : option ValueOptions)
| TType (inputString : string) (options : option TypeOptions)
| TPressSequentially (inputString : string) (options : option TypeOptions)
| TGetRowsLength (options : option LocatorOptions)
| TGetHeaderColumnNumber (colName : string) (exactMatch : bool)
| TGetMatchedRowIndex (rowValues : list string) (options : option MatchOptions)
| TGetMatchedRowIndices (rowValues : list string) (options : option MatchOptions)
| TGetMetaTableMatchedRowIndex (rowValues : list string) (options : option MatchOptions).

(** [await m], the value dropped. *)
Definition discard {A : Type} (m : M A) : M unit := bind m (fun _ => ret tt).

Definition narrow (env : Env) (n : Narrowing) : M unit :=
  match n with
  | NFind loc o => find env loc o
  | NGetNth i => getNth env i
  | NGetSibling loc i => getSibling env loc i
  | NContains t o => contains env t o
  | NHasText t e o => hasText env t e o
  | NGetRow i o => getRow env i o
  end.

Definition terminal (env : Env) (t : Terminal) : M unit :=
  match t with
  | TClick o => click env o
  | TDblClick o => dblClick env o
  | TCheck o => check env o
  | TUncheck o => uncheck env o
  | TGetText i => discard (getText env i)
  | TGetCount => discard (getCount env)
  | TIsExist => discard (isExist env)
  | TSetValue v o => setValue env v o
  | TType v o => type env v o
  | TPressSequentially v o => pressSequentially env v o
  | TGetRowsLength o => discard (getRowsLength env o)
  | TGetHeaderColumnNumber c e => discard (getHeaderColumnNumber env c e)
  | TGetMatchedRowIndex v o => discard (getMatchedRowIndex env v o)
  | TGetMatchedRowIndices v o => discard (getMatchedRowIndices env v o)
  | TGetMetaTableMatchedRowIndex v o => discard (getMetaTableMatchedRowIndex env v o)
  end.

(** [await (await (await h.n1(..)).n2(..)).t(..)]: the narrowing operations
    in order, then the terminal action; a throw ends the chain. *)
Fixpoint chain (env : Env) (ns : list Narrowing) (t : Terminal) : M unit :=
  match ns with
  | [] => terminal env t
  | n :: rest => bind (narrow env n) (fun _ => chain env rest t)
  end.

(** The terminal actions whose last step is the declared
    [clearFullCssAndXPath]; [getCount] and [setValue] call the undeclared
    spelling. *)
Definition callsDeclaredClear (t : Terminal) : bool :=
  match t with
  | TGetCount | TSetValue _ _ => false
  | _ => true
  end.

(** The handle is back at its base locator. *)
Definition isReset (h : UiActions) : Prop :=
  fullCss h = locator h /\ fullXpath h = Some "".

(** A completed run of [m] leaves the handle reset. *)
Definition endsReset {A : Type} (m : M A) : Prop :=
  forall st a st', m st = (Ok a, st') -> isReset (this st').

(** [m] assigns no field of the handle. *)
Definition keepsThis {A : Type} (m : M A) : Prop :=
  forall st r st', m st = (r, st') -> this st' = this st.

(** The list page of the examples with four items, none disabled. *)
Definition fourItems : Env := staticEnv (listDom 4 None).

(** A handle on the items of the list. *)
Definition items : State :=
  start (constructor "ul > li" (Some (mkConstructorOptions (Some "menu item") None None))).

(** A page on which no selector matches anything. *)
Definition nothingThere : Env := staticEnv (listDom 0 None).

(** The list handle with its buffer of locators initialised to an empty
    array, which the constructor does not do. *)
Definition bufferedItems : State :=
  mkState (set_tempLocators (Some []) (this items)) None [].

(** ** Reading a history *)

(** Page resolution and readiness waits: the calls [getPage] and
    [waitTillElementToBeReady] make. *)
Definition isPageEvent (ev : Event) : bool :=
  match ev with
  | EvCall q _ =>
      match q with
      | ContextPages | WaitForPopup | WaitForTimeout _ _ | WaitForLoadState _ _ => true
      | _ => false
      end
  | _ => false
  end.

(** The element a call acts on, for the calls that go through a locator. *)
Definition callTarget {T : Type} (q : Query T) : option Locator :=
  match q with
  | ContextPages | WaitForPopup | WaitForTimeout _ _ | WaitForLoadState _ _
  | QuerySelector _ _ => None
  | Count l | All l | WaitFor l | GetAttribute l _ | InnerText l | AllInnerTexts l
  | Click l _ | DblClick l _ | CheckBox l _ | UncheckBox l _ | ClearText l
  | Fill l _ _ | Press l _ | TypeText l _ _ | PressSequentially l _ _
  | CssPath l | XPath l => Some l
  end.

(** Automation calls: the engine calls made on a resolved element. *)
Definition isElementCall (ev : Event) : bool :=
  match ev with
  | EvCall q _ => match callTarget q with Some _ => true | None => false end
  | _ => false
  end.



(** What [logger.info(msg)] appends to a history (most recent first). *)
Definition logEvents (msg : string) : list Event :=
  if negb (includes (toLowerCase msg) "password")
  then [EvConsole msg; EvLogger msg]
  else [EvLogger msg].

(** The ways a run of [check] or [uncheck] can go, as the events it appends
    (most recent first). [toggle] is the engine call ([CheckBox] or
    [UncheckBox]), [obj] the element acted on, [pre] the page events of the
    readiness waits. *)
Definition ToggleRun (toggle : Locator -> bool -> Query unit) (obj : Locator)
    (force : bool) (doneMsg skipMsg : string) (r : outcome unit) (new : list Event) : Prop :=
  exists pre,
    Forall (fun ev => isPageEvent ev = true) pre /\
    ((* the element was not reached *)
     (new = pre /\ exists e, r = Throw e) \/
     (* the attribute read failed *)
     (exists e, r = Throw e /\
        new = EvCall (GetAttribute obj "disabled") (Throw e) :: pre) \/
     (* disabled: the action is skipped *)
     (exists flag, truthy flag = true /\ r = Ok tt /\
        new = (logEvents skipMsg ++ EvCall (GetAttribute obj "disabled") (Ok flag) :: pre)%list) \/
     (* not disabled: the action is performed *)
     (exists flag, truthy flag = false /\ r = Ok tt /\
        new = (logEvents doneMsg ++ EvCall (toggle obj force) (Ok tt)
                 :: EvCall (GetAttribute obj "disabled") (Ok flag) :: pre)%list) \/
     (* not disabled: the action is attempted and fails *)
     (exists flag e, truthy flag = false /\ r = Throw e /\
        new = EvCall (toggle obj force) (Throw e)
                :: EvCall (GetAttribute obj "disabled") (Ok flag) :: pre)).

(** The events of a history that [f] recognises, oldest first (a history
    lists the most recent event first). *)
Fixpoint collect {X : Type} (f : Event -> option X) (tr : list Event) : list X :=
  match tr with
  | [] => []
  | ev :: r =>
      match f ev with
      | Some x => (collect f r ++ [x])%list
      | None => collect f r
      end
  end.

Definition loggerLine (ev : Event) : option string :=
  match ev with
  | EvLogger msg => Some msg
  | _ => None
  end.

Definition consoleLine (ev : Event) : option string :=
  match ev with
  | EvConsole msg => Some msg
  | _ => None
  end.

Definition eventTarget (ev : Event) : option Locator :=
  match ev with
  | EvCall q _ => callTarget q
  | _ => None
  end.

(** A successful reply to [allInnerTexts]. *)
Definition textsReply (ev : Event) : option (list string) :=
  match ev with
  | EvCall q r =>
      match q in Query T return outcome T -> option (list string) with
      | AllInnerTexts _ => fun r => match r with Ok ts => Some ts | Throw _ => None end
      | _ => fun _ => None
      end r
  | _ => None
  end.

(** A successful read of the ["disabled"] attribute. *)
Definition disabledReply (ev : Event) : option (option string) :=
  match ev with
  | EvCall q r =>
      match q in Query T return outcome T -> option (option string) with
      | GetAttribute _ name =>
          fun r => match r with
                   | Ok v => if String.eqb name "disabled" then Some v else None
                   | Throw _ => None
                   end
      | _ => fun _ => None
      end r
  | _ => None
  end.

(** A successful reply to [page.$(selector)]: was an element found. *)
Definition existsReply (ev : Event) : option bool :=
  match ev with
  | EvCall q r =>
      match q in Query T return outcome T -> option bool with
      | QuerySelector _ _ => fun r => match r with Ok b => Some b | Throw _ => None end
      | _ => fun _ => None
      end r
  | _ => None
  end.

(** The answers to the existence checks of a history. *)
Definition existsReplies : list Event -> list bool := collect existsReply.

(** The lines handed to the logger. *)
Definition loggerLines : list Event -> list string := collect loggerLine.

(** The lines printed to the console. *)
Definition consoleLines : list Event -> list string := collect consoleLine.

(** The elements the calls of a history acted on. *)
Definition targets : list Event -> list Locator := collect eventTarget.

(** The row and header texts the engine handed back. *)
Definition textsRead : list Event -> list (list string) := collect textsReply.

(** The values read from ["disabled"] attributes. *)
Definition disabledReads : list Event -> list (option string) := collect disabledReply.

(** [run] appends [new] to the history: [new] is what the run did. *)
Definition appended (st st' : State) (new : list Event) : Prop :=
  trace st' = (new ++ trace st)%list.

(** Fields of the handle other than [page] are the same in [h] and [h']. *)
Definition samePlace (h h' : UiActions) : Prop :=
  h' = set_page (page h') h.

(** A run that only resolved the page and waited: nothing but page events
    in the history, no field but [page] assigned. *)
Definition quiet (st st' : State) (new : list Event) : Prop :=
  appended st st' new /\ Forall (fun ev => isPageEvent ev = true) new /\
  samePlace (this st) (this st').

(** [m] never completes: every run ends in a throw. *)
Definition neverOk {A : Type} (m : M A) : Prop :=
  forall st r st', m st = (r, st') -> exists e, r = Throw e.

(** [m] assigns no field of the handle but [page]. *)
Definition keepsPlace {A : Type} (m : M A) : Prop :=
  forall st r st', m st = (r, st') -> samePlace (this st) (this st').


(** The line a value-entering action hands to the logger. *)
Definition valueLogLine (label descriptor inputString : string) : string :=
  descriptor ++ label ++ maskedValue descriptor inputString.

(** An event that is no log line. *)
Definition noLog (ev : Event) : Prop :=
  loggerLine ev = None /\ consoleLine ev = None.

(** [m] logs nothing and assigns no field of the handle but [page]. *)
Definition silent {A : Type} (m : M A) : Prop :=
  forall st r st', m st = (r, st') ->
    exists new, appended st st' new /\ Forall noLog new /\
                samePlace (this st) (this st').

(** [m] adds nothing to the history. *)
Definition mute {A : Type} (m : M A) : Prop :=
  forall st r st', m st = (r, st') -> trace st' = trace st.

(** [m] hands at most the line [line h] to the logger, where [h] is the
    handle it starts from, and exactly that line when it completes; the
    console shows nothing or that line, the latter only when the line does
    not mention a password. *)
Definition logsLine {A : Type} (line : UiActions -> string) (m : M A) : Prop :=
  forall st r st', m st = (r, st') ->
    exists new, appended st st' new /\
      (loggerLines new = [] \/ loggerLines new = [line (this st)]) /\
      (consoleLines new = [] \/
       (consoleLines new = [line (this st)] /\
        includes (toLowerCase (line (this st))) "password" = false)) /\
      (forall a, r = Ok a -> loggerLines new = [line (this st)]).

(** What the specification asks of the log of a value-entering action
    [action] whose line is labelled [label]: with a descriptor that mentions
    a password the logger gets at most the line with the redaction marker
    and the console nothing; with any other descriptor the logger gets at
    most the line with the input value. A completed run has logged its
    line. *)
Definition MasksPasswords {O : Type} (label : string)
    (action : Env -> string -> option O -> M unit) : Prop :=
  forall env v options st r st' new,
    action env v options st = (r, st') ->
    appended st st' new ->
    let desc := objectDescriptor (this st) in
    (includes (toLowerCase desc) "password" = true ->
       (loggerLines new = [] \/ loggerLines new = [desc ++ label ++ "******"]) /\
       consoleLines new = [] /\
       (r = Ok tt -> loggerLines new = [desc ++ label ++ "******"])) /\
    (includes (toLowerCase desc) "password" = false ->
       (loggerLines new = [] \/ loggerLines new = [desc ++ label ++ v]) /\
       (r = Ok tt -> loggerLines new = [desc ++ label ++ v]) /\
       includes (desc ++ label ++ v) v = true).

(** Two runs of [action] from the same state that differ in the input value
    (and possibly in what the engine answers) and both reach the log have
    logged the same lines, when the descriptor mentions a password. *)
Definition MaskedRunsAgree {O : Type} (action : Env -> string -> option O -> M unit) : Prop :=
  forall env1 env2 v1 v2 options st r1 st1 new1 r2 st2 new2,
    action env1 v1 options st = (r1, st1) -> appended st st1 new1 ->
    action env2 v2 options st = (r2, st2) -> appended st st2 new2 ->
    includes (toLowerCase (objectDescriptor (this st))) "password" = true ->
    loggerLines new1 <> [] -> loggerLines new2 <> [] ->
    loggerLines new1 = loggerLines new2 /\ consoleLines new1 = consoleLines new2.

(** [`${description} [${index}]`] *)
Definition indexedDescriptor (description : string) (i : Z) : string :=
  description ++ " [" ++ numberToString i ++ "]".

(** A handle as [new UiElement(locator, { description })] leaves it. *)
Definition freshHandle (h : UiActions) : Prop :=
  fullCss h = locator h /\ fullXpath h = None /\ page h = None /\
  tempLocator h = None /\ tempLocators h = None.

(** ** The rules as the specification words them *)

(** The comparison of one cell with one target value: exact is
    case-insensitive trimmed equality, substring is case-insensitive trimmed
    containment. *)
Definition spec_cellMatches (exact : bool) (target cell : string) : bool :=
  if exact then String.eqb (toLowerCase (trim cell)) (toLowerCase (trim target))
  else includes (toLowerCase (trim cell)) (toLowerCase (trim target)).

(** A row is a match when, for every target value, at least one cell
    satisfies the comparison. *)
Definition spec_rowMatches (exact : bool) (targets : list string) (row : list string) : bool :=
  forallb (fun t => existsb (spec_cellMatches exact t) row) targets.

(** The filtered row sequence: rows whose split cell sequence has more than
    one entry. *)
Definition spec_filteredRows (rows : list (list string)) : list (list string) :=
  filter (fun cells => (1 <? List.length cells)%nat) rows.

(** Header lookup as the testable property words it: case-insensitive in
    both modes, equality when exact and containment otherwise. *)
Definition spec_headerMatches (exact : bool) (colName header : string) : bool :=
  spec_cellMatches exact colName header.

(** The comparison [getHeaderColumnNumber] makes. *)
Definition headerMatches (exactMatch : bool) (colName ele : string) : bool :=
  if exactMatch then String.eqb (trim ele) (trim colName)
  else String.eqb (toLowerCase (trim ele)) (toLowerCase (trim colName)).

(** [k] is the position of the first element of [l] satisfying [p], or [-1]
    when no element does. *)
Definition FirstMatch {A : Type} (p : A -> bool) (l : list A) (k : Z) : Prop :=
  (k = -1 /\ forall x, In x l -> p x = false) \/
  (exists n x, k = Z.of_nat n /\ nth_error l n = Some x /\ p x = true /\
     forall j y, (j < n)%nat -> nth_error l j = Some y -> p y = false).

(** The positions of [l], counted from [i], whose element satisfies [p]. *)
Fixpoint positionsFrom {A : Type} (i : Z) (p : A -> bool) (l : list A) : list Z :=
  match l with
  | [] => []
  | x :: r => if p x then i :: positionsFrom (i + 1) p r else positionsFrom (i + 1) p r
  end.

(** [getMatchedRowIndices] as the specification words it: the positions,
    within the filtered row sequence, of the rows that match. *)
Definition spec_getMatchedRowIndices (exact : bool) (targets : list string)
    (rowTexts : list (list string)) : list Z :=
  positionsFrom 0 (spec_rowMatches exact targets)
    (spec_filteredRows (map splitRow rowTexts)).

(** ** [StringUtils.replaceAll] *)

(** [s.split(sep)] for a separator of one or more characters, read from the
    left; [skip] counts the characters of the occurrence of [sep] just found
    that are still to be passed over. *)
Fixpoint splitFrom (sep : string) (skip : nat) (s : string) : list string :=
  match s with
  | EmptyString => [EmptyString]
  | String c r =>
      match skip with
      | S k => splitFrom sep k r
      | O =>
          if String.prefix sep s
          then EmptyString :: splitFrom sep (String.length sep - 1) r
          else match splitFrom sep 0 r with
               | h :: t => String c h :: t
               | [] => [String c EmptyString]
               end
      end
  end.

(** [s.split(sep)] for any separator; the empty separator splits between
    the characters. *)
Definition splitBy (sep s : string) : list string :=
  match sep with
  | EmptyString => map (fun c => String c EmptyString) (list_ascii_of_string s)
  | String _ _ => splitFrom sep 0 s
  end.

(** [val] is typed [string], so [val.constructor === String] holds. *)
Definition replaceAll (val replaceChar : string) : string :=
  if includes val replaceChar then join "" (splitBy replaceChar val) else val.

(** [s] with every occurrence of the character [c] left out. *)
Fixpoint without (c : ascii) (s : string) : string :=
  match s with
  | EmptyString => EmptyString
  | String d r => if Ascii.eqb d c then without c r else String d (without c r)
  end.

(** ** [getFullFileNames] (file utilities) *)

(** The loop over the directory listing. [array] is declared without a
    value, so it is [undefined] when the first matching name is pushed. *)
Fixpoint getFullFileNames_forEach (array : option (list string))
    (fileNameSubString : string) (fileNames : list string) : outcome unit :=
  match fileNames with
  | [] => Ok tt
  | fileName :: rest =>
      if includes fileName fileNameSubString then
        match array with
        | Some a => getFullFileNames_forEach (Some (a ++ [fileName])%list)
                      fileNameSubString rest
        | None => Throw (undefinedProperty "push")
        end
      else getFullFileNames_forEach array fileNameSubString rest
  end.

(** [readdirSync] stands for the result of [fs.readdirSync(dirPath)]. The
    function has no [return] of its own: the [return array] belongs to the
    callback and [forEach] drops it. *)
Definition getFullFileNames (readdirSync : outcome (list string))
    (fileNameSubString : string) : outcome unit :=
  match readdirSync with
  | Ok fileNames => getFullFileNames_forEach None fileNameSubString fileNames
  | Throw e => Throw e
  end.

(** ** Further methods of the handle and the table *)

Record ContainsClickOptions : Type := mkContainsClickOptions {
  cc_force : option bool;
  cc_index : option Z
}.

Record ForceOptions : Type := mkForceOptions {
  f_force : option bool
}.

Record MetaLinkOptions : Type := mkMetaLinkOptions {
  ml_linkName : option string;
  ml_lnkIndex : option Z;
  ml_locator : option string
}.

Record RowLinkOptions : Type := mkRowLinkOptions {
  rl_linkIndex : option Z;
  rl_force : option bool;
  rl_locator : option string
}.

(** [x || d] for an optional string: the empty string is falsy too. *)
Definition orElse (x : option string) (d : string) : string :=
  match x with
  | Some s => if String.eqb s "" then d else s
  | None => d
  end.

(** A value of type [string | false]. *)
Inductive StringOrFalse : Type :=
| JsString (s : string)
| JsFalse.

(** [x || false] for an optional string. *)
Definition orFalse (x : option string) : StringOrFalse :=
  match x with
  | Some s => if String.eqb s "" then JsFalse else JsString s
  | None => JsFalse
  end.

(** [v !== ''] *)
Definition notEmptyString (v : StringOrFalse) : bool :=
  match v with
  | JsString s => negb (String.eqb s "")
  | JsFalse => true
  end.

(** [`${v}`] *)
Definition template (v : StringOrFalse) : string :=
  match v with
  | JsString s => s
  | JsFalse => "false"
  end.

Section FurtherMethods.

Variable env : Env.

(** [playwright.page], the page the test hooks opened; the methods below
    read it and never assign it. *)
Variable playwright_page : option Page.

Definition staticWait (timeOut : Z) (isPage : bool) : M unit :=
  console_log ("waiting for seconds " ++ numberToString timeOut) ;;
  if isPage then
    (console_log ("waiting for the page : " ++ numberToString timeOut ++ " milliseconds") ;;
     match playwright_page with
     | Some p => call env (WaitForTimeout p timeOut)
     | None => throw (undefinedProperty "waitForTimeout")
     end)
  else
    (console_log ("waiting for the popup : " ++ numberToString timeOut ++ " milliseconds") ;;
     pp <- getPopup ;;
     match pp with
     | Some p => call env (WaitForTimeout p timeOut)
     | None => throw (undefinedProperty "waitForTimeout")
     end).

Definition containsClick (containsText : string) (options : option ContainsClickOptions)
    : M unit :=
  let _force := orDefault (optField cc_force options) false in
  let _index := orDefault (optField cc_index options) 0 in
  e <- getElement env ;;
  call env (Click (Nth (FilterHasText e containsText) _index) _force) ;;
  staticWait 100 true ;;
  h <- getThis ;;
  logger_info ("Clicked on the " ++ objectDescriptor h ++ " containing the text ["
               ++ containsText ++ "]") ;;
  clearFullCssAndXPath.

(** The line is logged before the click, the element clicked is the first
    one, and the last step is the undeclared spelling of the reset. *)
Definition clickLastLink (options : option ForceOptions) : M unit :=
  let _force := orDefault (optField f_force options) false in
  h <- getThis ;;
  logger_info ("Clicked on the first link - " ++ objectDescriptor h) ;;
  e <- getElement env ;;
  call env (Click (First e) _force) ;;
  clearFullCssAndXpath.

Fixpoint getTextAllMatchingObjects_loop (indices : list Z) (arr : list string)
    : M (list string) :=
  match indices with
  | [] => ret arr
  | indx :: rest =>
      staticWait 100 true ;;
      e <- getElement env ;;
      iText <- call env (InnerText (Nth e indx)) ;;
      getTextAllMatchingObjects_loop rest (arr ++ [trim iText])%list
  end.

Definition getTextAllMatchingObjects : M (list string) :=
  e <- getElement env ;;
  count <- call env (Count e) ;;
  arr <- getTextAllMatchingObjects_loop (upTo count) [] ;;
  clearFullCssAndXPath ;;
  ret arr.

(** [option?.force === undefined ? false : true]; the element is never
    cleared, the undeclared [setCssAndXPath] throws first. *)
Definition clear (option : option ForceOptions) : M unit :=
  let _force := match optField f_force option with None => false | Some _ => true end in
  ele <- getElement env ;;
  setCssAndXPath (Some ele) ;;
  call env (ClearText ele).

Definition getColumnHasText (cellValue : string) : M unit :=
  e <- getElement env ;;
  let ele := FilterHasText (SubLocator e "td") cellValue in
  setCssAndXPath (Some ele).

Definition getTable (index : option Z) : M unit :=
  let index := orDefault index 0 in
  e <- getElement env ;;
  let ele := Nth e index in
  setCssAndXPath (Some ele).

Definition getCellData (row col : Z) (options : option LocatorOptions) : M string :=
  let _locator := orDefault (optField lo_locator options) "tr" in
  h <- getThis ;;
  logger_info ("Getting cell data from " ++ objectDescriptor h ++ " - Row, Column ["
               ++ numberToString row ++ "," ++ numberToString col ++ "]") ;;
  e <- getElement env ;;
  val <- call env (InnerText (Nth (SubLocator (Nth (SubLocator e _locator) row) "td") col)) ;;
  clearFullCssAndXPath ;;
  logger_info ("Row, Column [" ++ numberToString row ++ ", " ++ numberToString col
               ++ "] = " ++ val) ;;
  ret val.

Definition getRowData (row : Z) (options : option LocatorOptions) : M (list string) :=
  let _locator := orDefault (optField lo_locator options) "tr" in
  e <- getElement env ;;
  arr <- call env (AllInnerTexts (Nth (SubLocator e _locator) row)) ;;
  clearFullCssAndXPath ;;
  ret arr.

Fixpoint getAllRowsColumnData_loop (_locator : string) (column : Z) (indices : list Z)
    (arr : list string) : M (list string) :=
  match indices with
  | [] => ret arr
  | i :: rest =>
      e <- getElement env ;;
      t <- call env (InnerText (Nth (SubLocator (Nth (SubLocator e _locator) i) "td") column)) ;;
      getAllRowsColumnData_loop _locator column rest (arr ++ [t])%list
  end.

Definition getAllRowsColumnData (column : Z) (options : option LocatorOptions)
    : M (list string) :=
  let _locator := orDefault (optField lo_locator options) "tr" in
  e <- getElement env ;;
  length <- call env (Count (SubLocator e _locator)) ;;
  arr <- getAllRowsColumnData_loop _locator column (upTo length) [] ;;
  clearFullCssAndXPath ;;
  ret arr.

Definition getHeaderName (i : Z) : M string :=
  e <- getElement env ;;
  text <- call env (InnerText (Nth (SubLocator e "th") i)) ;;
  clearFullCssAndXPath ;;
  ret text.

Definition getHeaderColumnLength : M nat :=
  waitTillElementToBeReady env ;;
  e <- getElement env ;;
  headerCount <- call env (Count (SubLocator e "th")) ;;
  clearFullCssAndXPath ;;
  ret headerCount.

(** Reads [this.page] as the last page resolution left it. *)
Definition getListOptions : M (list string) :=
  p <- thisPage "locator" ;;
  sel <- getLocator ;;
  innerTexts <- call env (AllInnerTexts (PageLocator p (sel ++ " option"))) ;;
  clearFullCssAndXPath ;;
  ret innerTexts.

Definition getMetaTableRowsLength (options : option LocatorOptions) : M nat :=
  let _locator := orDefault (optField lo_locator options) "tr" in
  waitTillElementToBeReady env ;;
  sel <- getLocator ;;
  modifyThis (set_fullCss (sel ++ " " ++ _locator)) ;;
  ex <- isExist env ;;
  length <- (if ex then e <- getElement env ;; call env (Count (SubLocator e _locator))
             else ret 0%nat) ;;
  clearFullCssAndXPath ;;
  ret length.

(** [link.click()] passes no options: the click is not forced. *)
Definition clickMetaTableRowLink (rowIndex : Z) (options : option MetaLinkOptions) : M unit :=
  let _locator := orElse (optField ml_locator options) "tr" in
  let _linkName := orFalse (optField ml_linkName options) in
  let _lnkIndex := orDefault (optField ml_lnkIndex options) (-1) in
  e <- getElement env ;;
  let row := Nth (SubLocator (Nth e rowIndex) _locator) 0 in
  let link :=
    if notEmptyString _linkName then FilterHasText row (template _linkName)
    else if _lnkIndex >? -1 then Nth (SubLocator row "a") (_lnkIndex - 1)
    else First (SubLocator row "a") in
  call env (Click link false) ;;
  clearFullCssAndXPath.

Definition isColumnValueExist (colValue : string) : M bool :=
  e <- getElement env ;;
  n <- call env (Count (FilterHasText (SubLocator e "td") colValue)) ;;
  let exist := (0 <? n)%nat in
  clearFullCssAndXPath ;;
  ret exist.

Definition clickRowLink (rowIndex : Z) (options : option RowLinkOptions) : M unit :=
  let _lIndex := orDefault (optField rl_linkIndex options) 0 in
  let _force := orDefault (optField rl_force options) false in
  e <- getElement env ;;
  let row := Nth e rowIndex in
  call env (Click (Nth (SubLocator row "a") _lIndex) _force) ;;
  clearFullCssAndXPath.

End FurtherMethods.

(** The operations that call the undeclared [setCssAndXPath] or
    [clearFullCssAndXpath], other than [getCount] and [setValue]. *)
Inductive Misspelt : Type :=
| MClear (option : option ForceOptions)
| MGetColumnHasText (cellValue : string)
| MGetTable (index : option Z)
| MGetNth (i : Z)
| MGetRow (i : Z) (options : option LocatorOptions)
| MClickLastLink (options : option ForceOptions)
| MFindNth (loc : string) (index : option Z) (hasText : option string) (nthObj : Z).

Definition misspelt (env : Env) (m : Misspelt) : M unit :=
  match m with
  | MClear o => clear env o
  | MGetColumnHasText v => getColumnHasText env v
  | MGetTable i => getTable env i
  | MGetNth i => getNth env i
  | MGetRow i o => getRow env i o
  | MClickLastLink o => clickLastLink env o
  | MFindNth loc i t n => find env loc (Some (mkFindOptions i t (Some n)))
  end.

(** The operations whose first step after resolving the element is the
    undeclared member. *)
Definition stopsAtTheElement (m : Misspelt) : bool :=
  match m with
  | MClickLastLink _ | MFindNth _ _ _ _ => false
  | _ => true
  end.

(** The reads and clicks of the handle and the table outside [Terminal]. *)
Inductive Further : Type :=
| FContainsClick (containsText : string) (options : option ContainsClickOptions)
| FGetTextAllMatchingObjects
| FGetCellData (row col : Z) (options : option LocatorOptions)
| FGetRowData (row : Z) (options : option LocatorOptions)
| FGetAllRowsColumnData (column : Z) (options : option LocatorOptions)
| FGetHeaderNames
| FGetHeaderName (i : Z)
| FGetHeaderColumnLength
| FGetListOptions
| FGetMetaTableRowsLength (options : option LocatorOptions)
| FClickMetaTableRowLink (rowIndex : Z) (options : option MetaLinkOptions)
| FIsColumnValueExist (colValue : string)
| FClickRowLink (rowIndex : Z) (options : option RowLinkOptions).

Definition further (env : Env) (pg : option Page) (f : Further) : M unit :=
  match f with
  | FContainsClick t o => containsClick env pg t o
  | FGetTextAllMatchingObjects => discard (getTextAllMatchingObjects env pg)
  | FGetCellData r c o => discard (getCellData env r c o)
  | FGetRowData r o => discard (getRowData env r o)
  | FGetAllRowsColumnData c o => discard (getAllRowsColumnData env c o)
  | FGetHeaderNames => discard (getHeaderNames env)
  | FGetHeaderName i => discard (getHeaderName env i)
  | FGetHeaderColumnLength => discard (getHeaderColumnLength env)
  | FGetListOptions => discard (getListOptions env)
  | FGetMetaTableRowsLength o => discard (getMetaTableRowsLength env o)
  | FClickMetaTableRowLink r o => clickMetaTableRowLink env r o
  | FIsColumnValueExist v => discard (isColumnValueExist env v)
  | FClickRowLink r o => clickRowLink env r o
  end.

(** ** More ways to read a history *)

(** A successful reply to [count]. *)
Definition countReply (ev : Event) : option nat :=
  match ev with
  | EvCall q r =>
      match q in Query T return outcome T -> option nat with
      | Count _ => fun r => match r with Ok n => Some n | Throw _ => None end
      | _ => fun _ => None
      end r
  | _ => None
  end.

(** A successful [innerText]: the element read and its text. *)
Definition innerTextRead (ev : Event) : option (Locator * string) :=
  match ev with
  | EvCall q r =>
      match q in Query T return outcome T -> option (Locator * string) with
      | InnerText l => fun r => match r with Ok t => Some (l, t) | Throw _ => None end
      | _ => fun _ => None
      end r
  | _ => None
  end.

(** The selector an existence check asked about. *)
Definition probedSelector (ev : Event) : option string :=
  match ev with
  | EvCall q _ =>
      match q with
      | QuerySelector _ sel => Some sel
      | _ => None
      end
  | _ => None
  end.

Definition isClickCall (ev : Event) : bool :=
  match ev with
  | EvCall q _ => match q with Click _ _ | DblClick _ _ => true | _ => false end
  | _ => false
  end.

Definition countReplies : list Event -> list nat := collect countReply.

Definition innerTextReads : list Event -> list (Locator * string) := collect innerTextRead.

Definition probedSelectors : list Event -> list string := collect probedSelector.

(** The state [st] with the effective selector of its handle set to [css]. *)
Definition withCss (css : string) (st : State) : State :=
  mkState (set_fullCss css (this st)) (popup st) (trace st).

(** The fields a method has no business changing: the base locator, the
    descriptor and the page selection. *)
Definition sameBase (h h' : UiActions) : Prop :=
  locator h' = locator h /\ objectDescriptor h' = objectDescriptor h /\
  isPopupExist h' = isPopupExist h /\ pageIndex h' = pageIndex h.

(** An event that is no console line mentioning a password. *)
Definition cleanEvent (ev : Event) : Prop :=
  match ev with
  | EvConsole msg => includes (toLowerCase msg) "password" = false
  | _ => True
  end.

(** [m] keeps the base fields of the handle and prints no password line,
    however it ends. *)
Definition tidy {A : Type} (m : M A) : Prop :=
  forall st r st', m st = (r, st') ->
    sameBase (this st) (this st') /\
    exists new, appended st st' new /\ Forall cleanEvent new.

(** The cell [column] of row [i] under the rows selector [rows] of a handle
    whose effective selector is [css], on some page. *)
Definition isCellOf (css rows : string) (column : Z) (i : Z) (l : Locator) : Prop :=
  exists p, l = Nth (SubLocator (Nth (SubLocator (PageLocator p css) rows) i) "td") column.

(** The [i]-th element the effective selector [css] matches, on some page. *)
Definition isNthOf (css : string) (i : Z) (l : Locator) : Prop :=
  exists p, l = Nth (PageLocator p css) i.

(** [m] neither reads nor assigns the effective selector: started with
    another one it does the same and leaves the other one in place. *)
Definition commutesCss {A : Type} (css : string) (m : M A) : Prop :=
  forall st,
    m (withCss css st) = (fst (m st), withCss css (snd (m st))) /\
    fullCss (this (snd (m st))) = fullCss (this st).

(** [m] overwrites the effective selector before it reads it: started with
    another one it does the same, unless it throws before the overwrite and
    leaves the other one in place. *)
Definition absorbsCss {A : Type} (css : string) (m : M A) : Prop :=
  forall st,
    m (withCss css st) = m st \/
    exists e s, m st = (Throw e, s) /\ m (withCss css st) = (Throw e, withCss css s) /\
                fullCss (this s) = fullCss (this st).

(** ** Which row is read, which element is counted *)

(** A successful [allInnerTexts]: the element read and its texts. *)
Definition rowRead (ev : Event) : option (Locator * list string) :=
  match ev with
  | EvCall q r =>
      match q in Query T return outcome T -> option (Locator * list string) with
      | AllInnerTexts l => fun r => match r with Ok ts => Some (l, ts) | Throw _ => None end
      | _ => fun _ => None
      end r
  | _ => None
  end.

(** A successful [count]: the element counted and the number. *)
Definition countRead (ev : Event) : option (Locator * nat) :=
  match ev with
  | EvCall q r =>
      match q in Query T return outcome T -> option (Locator * nat) with
      | Count l => fun r => match r with Ok n => Some (l, n) | Throw _ => None end
      | _ => fun _ => None
      end r
  | _ => None
  end.

Definition rowReads : list Event -> list (Locator * list string) := collect rowRead.

Definition countReads : list Event -> list (Locator * nat) := collect countRead.

(** The element at position [i] under the rows selector [rows] of a handle
    whose effective selector is [css], on some page. *)
Definition isRowOf (css rows : string) (i : Z) (l : Locator) : Prop :=
  exists p, l = Nth (SubLocator (PageLocator p css) rows) i.

(** ** An engine that does what it is asked *)

(** The page of the handle [h] is found, the waits return, and the calls of
    the value-entering and checkbox actions are answered without error. *)
Definition Obliging (env : Env) (h : UiActions) : Prop :=
  (isPopupExist h = true -> forall tr, exists p, env _ tr WaitForPopup = Ok p) /\
  (isPopupExist h = false ->
     forall tr, exists pages p,
       env _ tr ContextPages = Ok pages /\ index pages (pageIndex h) = Some p) /\
  (forall tr p ms, env _ tr (WaitForTimeout p ms) = Ok tt) /\
  (forall tr p s, env _ tr (WaitForLoadState p s) = Ok tt) /\
  (forall tr l, env _ tr (ClearText l) = Ok tt) /\
  (forall tr l v f, env _ tr (Fill l v f) = Ok tt) /\
  (forall tr l k, env _ tr (Press l k) = Ok tt) /\
  (forall tr l t d, env _ tr (TypeText l t d) = Ok tt) /\
  (forall tr l t d, env _ tr (PressSequentially l t d) = Ok tt) /\
  (forall tr l f, env _ tr (CheckBox l f) = Ok tt) /\
  (forall tr l f, env _ tr (UncheckBox l f) = Ok tt) /\
  (forall tr l n, exists v, env _ tr (GetAttribute l n) = Ok v).

(** On an obliging engine [m] returns. *)
Definition obliged {A : Type} (env : Env) (m : M A) : Prop :=
  forall st, Obliging env (this st) -> exists a st', m st = (Ok a, st').

(** On an obliging engine [m] hands exactly the line [line h] to the
    logger, where [h] is the handle it starts from, however it ends. *)
Definition reachesLog {A : Type} (env : Env) (line : UiActions -> string) (m : M A) : Prop :=
  forall st r st', Obliging env (this st) -> m st = (r, st') ->
    exists new, appended st st' new /\ loggerLines new = [line (this st)].

(** What the specification asks of the log of a value-entering action on
    an engine that does what it is asked: exactly one line, with the
    redaction marker in place of the value and nothing on the console when
    the descriptor mentions a password, with the value otherwise. *)
Definition LogsItsLine {O : Type} (label : string)
    (action : Env -> string -> option O -> M unit) : Prop :=
  forall env v options st r st' new,
    Obliging env (this st) ->
    action env v options st = (r, st') ->
    appended st st' new ->
    let desc := objectDescriptor (this st) in
    (includes (toLowerCase desc) "password" = true ->
       loggerLines new = [desc ++ label ++ "******"] /\ consoleLines new = []) /\
    (includes (toLowerCase desc) "password" = false ->
       loggerLines new = [desc ++ label ++ v]).

(** Two runs of [action] from the same state on engines that do what they
    are asked, differing in the input value, hand the same line to the
    logger and the same to the console when the descriptor mentions a
    password, and they do hand a line to the logger. *)
Definition MaskedRunsLogTheSame {O : Type} (action : Env -> string -> option O -> M unit)
    : Prop :=
  forall env1 env2 v1 v2 options st r1 st1 new1 r2 st2 new2,
    Obliging env1 (this st) -> Obliging env2 (this st) ->
    action env1 v1 options st = (r1, st1) -> appended st st1 new1 ->
    action env2 v2 options st = (r2, st2) -> appended st st2 new2 ->
    includes (toLowerCase (objectDescriptor (this st))) "password" = true ->
    loggerLines new1 <> [] /\
    loggerLines new1 = loggerLines new2 /\ consoleLines new1 = consoleLines new2.

(** ** The operations of the handle and the table taken together *)

Inductive Operation : Type :=
| OChain (ns : list Narrowing) (t : Terminal)
| OFurther (f : Further)
| OMisspelt (m : Misspelt)
| OGetAllObjects (options : option AllObjectsOptions)
| OGetMetaTableMatchedRowIndices (rowValues : list string) (options : option MetaMatchOptions).

Definition operate (env : Env) (pg : option Page) (op : Operation) : M unit :=
  match op with
  | OChain ns t => chain env ns t
  | OFurther f => further env pg f
  | OMisspelt m => misspelt env m
  | OGetAllObjects o => discard (getAllObjects env o)
  | OGetMetaTableMatchedRowIndices v o => discard (getMetaTableMatchedRowIndices env v o)
  end.

(** * Properties *)

(** ** The monad *)

Lemma bind_Ok {A B : Type} (m : M A) (k : A -> M B) st a st1 :
  m st = (Ok a, st1) -> bind m k st = k a st1.
Proof. intros H. unfold bind. rewrite H. reflexivity. Qed.

Lemma bind_Throw {A B : Type} (m : M A) (k : A -> M B) st e st1 :
  m st = (Throw e, st1) -> bind m k st = (Throw e, st1).
Proof. intros H. unfold bind. rewrite H. reflexivity. Qed.

Lemma bind_inv {A B : Type} (m : M A) (k : A -> M B) st r st' :
  bind m k st = (r, st') ->
  (exists a st1, m st = (Ok a, st1) /\ k a st1 = (r, st')) \/
  (exists e, m st = (Throw e, st') /\ r = Throw e).
Proof.
  unfold bind. destruct (m st) as [[a | e] st1] eqn:E; intros H.
  - left. exists a, st1. split; [reflexivity | exact H].
  - right. exists e. inversion H; subst. split; reflexivity.
Qed.

(** Case analysis on a hypothesis [H : bind m k st = (r, st')]: either
    [m] completed and [k] ran, or [m] threw. *)
Ltac bind_step H :=
  let a := fresh "a" in
  let s := fresh "s" in
  let e := fresh "e" in
  let H1 := fresh H "a" in
  let Hr := fresh H "r" in
  apply bind_inv in H;
  destruct H as [(a & s & H1 & H) | (e & H & Hr)].

Lemma appended_refl st : appended st st [].
Proof. reflexivity. Qed.

Lemma appended_trans st1 st2 st3 n1 n2 :
  appended st1 st2 n1 -> appended st2 st3 n2 -> appended st1 st3 (n2 ++ n1).
Proof.
  unfold appended. intros H1 H2. rewrite H2, H1. apply app_assoc.
Qed.

Section HandleFacts.

Variable env : Env.

Lemma samePlace_refl h : samePlace h h.
Proof. destruct h; reflexivity. Qed.

Lemma samePlace_trans h1 h2 h3 : samePlace h1 h2 -> samePlace h2 h3 -> samePlace h1 h3.
Proof.
  unfold samePlace. intros H1 H2. rewrite H2 at 1. rewrite H1 at 1.
  destruct h1; reflexivity.
Qed.

Lemma getLocator_run st : getLocator st = (Ok (fullCss (this st)), st).
Proof.
  unfold getLocator, bind, getThis, ret.
  destruct (String.eqb_spec (fullCss (this st)) (locator (this st))) as [E | E].
  - rewrite E. reflexivity.
  - reflexivity.
Qed.

Lemma getPage_spec st r st' :
  getPage env st = (r, st') ->
  exists new, appended st st' new /\ Forall (fun ev => isPageEvent ev = true) new /\
              samePlace (this st) (this st').
Proof.
  unfold getPage, bind, getThis, getPopup, setPopup, modifyThis, call, ret, appended, samePlace.
  destruct st as [h pp tr]; cbn.
  destruct (isPopupExist h) eqn:Ep; cbn.
  - destruct pp as [p |]; cbn.
    + intros H; inversion H; subst; clear H. exists []. cbn. auto.
    + destruct (env Page tr WaitForPopup) as [np | e] eqn:Ew; cbn;
        intros H; inversion H; subst; clear H; cbn;
        (eexists [_]; cbn; repeat split; auto; destruct h; reflexivity).
  - destruct (env (list Page) tr ContextPages) as [pages | e] eqn:Ec; cbn;
      intros H; inversion H; subst; clear H; cbn;
      (eexists [_]; cbn; repeat split; auto; destruct h; reflexivity).
Qed.

Lemma call_inv {T : Type} (q : Query T) st r st' :
  call env q st = (r, st') ->
  r = env T (trace st) q /\
  st' = mkState (this st) (popup st) (EvCall q r :: trace st).
Proof. unfold call. intros H; inversion H; subst. split; reflexivity. Qed.

Lemma thisPage_inv member st r st' :
  thisPage member st = (r, st') ->
  st' = st /\ (forall p, r = Ok p -> page (this st) = Some p).
Proof.
  unfold thisPage, bind, getThis, ret, throw.
  destruct (page (this st)) as [p |]; intros H; inversion H; subst; split; auto.
  - intros q Hq; inversion Hq; reflexivity.
  - intros q Hq; discriminate.
Qed.

Lemma quiet_refl st : quiet st st [].
Proof. repeat split; auto. apply samePlace_refl. Qed.

Lemma quiet_trans st1 st2 st3 n1 n2 :
  quiet st1 st2 n1 -> quiet st2 st3 n2 -> quiet st1 st3 (n2 ++ n1).
Proof.
  intros (A1 & F1 & S1) (A2 & F2 & S2). repeat split.
  - eapply appended_trans; eassumption.
  - apply Forall_app; split; assumption.
  - eapply samePlace_trans; eassumption.
Qed.

Lemma quiet_call {T : Type} (q : Query T) st r st' :
  (forall r', isPageEvent (EvCall q r') = true) ->
  call env q st = (r, st') ->
  quiet st st' [EvCall q r] /\ this st' = this st.
Proof.
  intros Hq H. apply call_inv in H as [_ ->]. repeat split; cbn.
  - constructor; [apply Hq | constructor].
  - destruct (this st); reflexivity.
Qed.

Lemma waitTillElementToBeReady_spec st r st' :
  waitTillElementToBeReady env st = (r, st') ->
  exists new, quiet st st' new /\
              (r = Ok tt -> exists p, page (this st') = Some p).
Proof.
  unfold waitTillElementToBeReady. intros H.
  bind_step H.
  2:{ apply getPage_spec in H as (n & Hn). exists n. split; [exact Hn | subst; discriminate]. }
  apply getPage_spec in Ha as (n0 & Q0).
  bind_step H.
  2:{ apply thisPage_inv in H as [-> _]. exists n0. split; [exact Q0 | subst; discriminate]. }
  apply thisPage_inv in Ha as [-> Hp]. specialize (Hp _ eq_refl).
  bind_step H.
  2:{ apply quiet_call in H as [H _]; [| reflexivity]. eexists. split;
      [eapply quiet_trans; eassumption | subst; discriminate]. }
  apply quiet_call in Ha as [Ha T1]; [| reflexivity].
  pose proof (quiet_trans _ _ _ _ _ Q0 Ha) as Q1.
  bind_step H.
  2:{ apply quiet_call in H as [H _]; [| reflexivity]. eexists. split;
      [eapply quiet_trans; eassumption | subst; discriminate]. }
  apply quiet_call in Ha0 as [Ha0 T2]; [| reflexivity].
  pose proof (quiet_trans _ _ _ _ _ Q1 Ha0) as Q2.
  bind_step H.
  2:{ apply quiet_call in H as [H _]; [| reflexivity]. eexists. split;
      [eapply quiet_trans; eassumption | subst; discriminate]. }
  apply quiet_call in Ha1 as [Ha1 T3]; [| reflexivity].
  pose proof (quiet_trans _ _ _ _ _ Q2 Ha1) as Q3.
  apply quiet_call in H as [H T4]; [| reflexivity].
  pose proof (quiet_trans _ _ _ _ _ Q3 H) as Q4.
  eexists. split; [exact Q4 |].
  intros _. exists a0. rewrite T4, T3, T2, T1. exact Hp.
Qed.

Lemma getElement_spec st r st' :
  getElement env st = (r, st') ->
  exists new, quiet st st' new /\
    (forall e, r = Ok e ->
       exists p, page (this st') = Some p /\ e = PageLocator p (fullCss (this st))).
Proof.
  unfold getElement. intros H.
  bind_step H.
  2:{ apply waitTillElementToBeReady_spec in H as (n & Hn & _). exists n.
      split; [exact Hn | subst; discriminate]. }
  apply waitTillElementToBeReady_spec in Ha as (n & Q & _).
  exists n.
  bind_step H.
  2:{ apply thisPage_inv in H as [-> _]. split; [exact Q | subst; discriminate]. }
  apply thisPage_inv in Ha as [-> Hp]. specialize (Hp _ eq_refl).
  rewrite bind_Ok with (1 := getLocator_run _) in H.
  unfold ret in H. inversion H; subst. split; [exact Q |].
  intros e He. inversion He; subst. exists a0. split; [exact Hp |].
  destruct Q as (_ & _ & S). rewrite S. reflexivity.
Qed.

(** What [quiet] keeps. *)
Lemma quiet_fields st st' new :
  quiet st st' new ->
  locator (this st') = locator (this st) /\
  fullCss (this st') = fullCss (this st) /\
  fullXpath (this st') = fullXpath (this st) /\
  objectDescriptor (this st') = objectDescriptor (this st) /\
  tempLocators (this st') = tempLocators (this st).
Proof.
  intros (_ & _ & S). rewrite S. repeat split; reflexivity.
Qed.

Lemma clearFullCssAndXPath_run st :
  clearFullCssAndXPath st =
  (Ok tt, mkState (set_fullXpath (Some "") (set_fullCss (locator (this st)) (this st)))
            (popup st) (trace st)).
Proof. reflexivity. Qed.

End HandleFacts.

(** ** Strings and arrays *)

Lemma findIndexFrom_range {A : Type} (p : A -> bool) (l : list A) (i : Z) :
  findIndexFrom i p l = -1 \/ i <= findIndexFrom i p l.
Proof.
  revert i. induction l as [| x r IH]; intros i; cbn.
  - left; reflexivity.
  - destruct (p x); [right; lia |].
    destruct (IH (i + 1)) as [E | E]; [left; exact E | right; lia].
Qed.

Lemma findIndexFrom_shift {A : Type} (p : A -> bool) (l : list A) (i : Z) :
  0 <= i ->
  findIndexFrom i p l = if findIndexFrom 0 p l <? 0 then -1 else findIndexFrom 0 p l + i.
Proof.
  revert i. induction l as [| x r IH]; intros i Hi; cbn.
  - reflexivity.
  - destruct (p x); cbn; [lia |].
    rewrite (IH (i + 1)) by lia. rewrite (IH 1) by lia.
    destruct (findIndexFrom 0 p r <? 0) eqn:E; cbn; [reflexivity |].
    apply Z.ltb_ge in E.
    destruct (findIndexFrom 0 p r + 1 <? 0) eqn:E'; [apply Z.ltb_lt in E'; lia | lia].
Qed.

Lemma findIndex_negative {A : Type} (p : A -> bool) (l : list A) :
  (findIndex p l <? 0) = negb (existsb p l).
Proof.
  unfold findIndex. induction l as [| x r IH]; cbn.
  - reflexivity.
  - destruct (p x); cbn; [reflexivity |].
    rewrite <- IH. rewrite (findIndexFrom_shift p r 1) by lia.
    destruct (findIndexFrom 0 p r <? 0) eqn:E; cbn; [reflexivity |].
    apply Z.ltb_ge in E. apply Z.ltb_ge. lia.
Qed.

Lemma findIndex_nonnegative {A : Type} (p : A -> bool) (l : list A) :
  (findIndex p l >=? 0) = existsb p l.
Proof.
  rewrite Z.geb_leb. rewrite Z.leb_antisym. rewrite findIndex_negative.
  apply negb_involutive.
Qed.

Lemma findIndex_FirstMatch {A : Type} (p : A -> bool) (l : list A) :
  FirstMatch p l (findIndex p l).
Proof.
  unfold findIndex. induction l as [| x r IH]; cbn.
  - left. split; [reflexivity | intros x []].
  - destruct (p x) eqn:Px.
    + right. exists 0%nat, x. repeat split; auto. intros j y Hj; lia.
    + rewrite (findIndexFrom_shift p r 1) by lia.
      destruct IH as [[E Hall] | (n & y & E & Hn & Py & Hbefore)].
      * left. rewrite E. cbn. split; [reflexivity |].
        intros z [<- | Hz]; [exact Px | apply Hall; exact Hz].
      * right. rewrite E.
        destruct (Z.of_nat n <? 0) eqn:En; [apply Z.ltb_lt in En; lia |].
        exists (S n), y. repeat split; auto; [lia |].
        intros [| j] z Hj Hz; cbn in Hz.
        -- inversion Hz; subst; exact Px.
        -- apply (Hbefore j z); [lia | exact Hz].
Qed.

Lemma isWhiteSpace_lowerChar c : isWhiteSpace (lowerChar c) = isWhiteSpace c.
Proof. destruct c as [[] [] [] [] [] [] [] []]; reflexivity. Qed.

Lemma toLowerCase_map s :
  toLowerCase s = string_of_list_ascii (map lowerChar (list_ascii_of_string s)).
Proof. induction s as [| c r IH]; cbn; [reflexivity | rewrite IH; reflexivity]. Qed.

Lemma trimStart_toLowerCase s : trimStart (toLowerCase s) = toLowerCase (trimStart s).
Proof.
  induction s as [| c r IH]; cbn; [reflexivity |].
  rewrite isWhiteSpace_lowerChar. destruct (isWhiteSpace c); [exact IH | reflexivity].
Qed.

Lemma reverse_toLowerCase s : reverse (toLowerCase s) = toLowerCase (reverse s).
Proof.
  unfold reverse. rewrite !toLowerCase_map, !list_ascii_of_string_of_list_ascii.
  rewrite map_rev. reflexivity.
Qed.

Lemma trim_toLowerCase s : trim (toLowerCase s) = toLowerCase (trim s).
Proof.
  unfold trim, trimEnd.
  rewrite trimStart_toLowerCase, reverse_toLowerCase, trimStart_toLowerCase,
    reverse_toLowerCase.
  reflexivity.
Qed.

(** ** The row tests *)

(** In exact mode the callback of [getMatchedRowIndex] asks, for every
    target, for one cell equal to it. *)
Lemma getMatchedRowIndex_callback_exact rowValues rowText :
  getMatchedRowIndex_callback true rowValues rowText =
  forallb (fun t => existsb (spec_cellMatches true t) rowText) rowValues.
Proof.
  induction rowValues as [| t rest IH]; cbn; [reflexivity |].
  rewrite findIndex_negative, IH. unfold spec_cellMatches.
  rewrite trim_toLowerCase.
  destruct (existsb _ rowText); reflexivity.
Qed.

(** In substring mode it asks that every cell contains every target. *)
Lemma getMatchedRowIndex_callback_substring rowValues rowText :
  getMatchedRowIndex_callback false rowValues rowText =
  forallb (fun t => forallb (spec_cellMatches false t) rowText) rowValues.
Proof.
  induction rowValues as [| t rest IH]; cbn; [reflexivity |].
  rewrite findIndex_nonnegative, IH. unfold spec_cellMatches.
  rewrite trim_toLowerCase.
  assert (E : forall l, existsb (fun ele => negb (includes (toLowerCase (trim ele)) (toLowerCase (trim t)))) l
                        = negb (forallb (fun cell => includes (toLowerCase (trim cell)) (toLowerCase (trim t))) l)).
  { induction l as [| c l IHl]; cbn; [reflexivity |].
    rewrite IHl. rewrite negb_andb. reflexivity. }
  rewrite E. destruct (forallb _ rowText); reflexivity.
Qed.

Lemma getMetaTableMatchedRowIndex_callback_same exact rowValues rowText :
  getMetaTableMatchedRowIndex_callback exact rowValues rowText =
  getMatchedRowIndex_callback exact rowValues rowText.
Proof.
  induction rowValues as [| t rest IH]; cbn; [reflexivity |].
  rewrite IH. reflexivity.
Qed.

(** The per-row test of [getMatchedRowIndices] is the specification's rule
    in both modes. *)
Lemma getMatchedRowIndices_flag_spec exact rowValues row :
  getMatchedRowIndices_flag exact rowValues row = spec_rowMatches exact rowValues row.
Proof.
  unfold spec_rowMatches.
  induction rowValues as [| t rest IH]; cbn; [reflexivity |].
  rewrite !findIndex_negative, IH. unfold spec_cellMatches.
  rewrite trim_toLowerCase.
  destruct exact; destruct (existsb _ row); reflexivity.
Qed.

Lemma getIndex_callback_spec exact expectedValues row :
  getIndex_callback exact expectedValues row = spec_rowMatches exact expectedValues row.
Proof.
  unfold spec_rowMatches.
  induction expectedValues as [| t rest IH]; cbn; [reflexivity |].
  rewrite !findIndex_negative, IH. unfold spec_cellMatches.
  rewrite trim_toLowerCase.
  destruct exact; destruct (existsb _ row); reflexivity.
Qed.

(** ** Histories *)

Lemma collect_app {X : Type} (f : Event -> option X) (a b : list Event) :
  collect f (a ++ b) = (collect f b ++ collect f a)%list.
Proof.
  induction a as [| ev a IH]; cbn.
  - rewrite app_nil_r. reflexivity.
  - rewrite IH. destruct (f ev); [rewrite app_assoc |]; reflexivity.
Qed.

Lemma collect_cons {X : Type} (f : Event -> option X) (ev : Event) (r : list Event) :
  collect f (ev :: r) =
  (collect f r ++ match f ev with Some x => [x] | None => [] end)%list.
Proof. cbn. destruct (f ev); [reflexivity | rewrite app_nil_r; reflexivity]. Qed.

Lemma collect_none {X : Type} (f : Event -> option X) (tr : list Event) :
  Forall (fun ev => f ev = None) tr -> collect f tr = [].
Proof.
  induction 1 as [| ev tr E _ IH]; cbn; [reflexivity |].
  rewrite E. exact IH.
Qed.

Lemma page_event_silent {X : Type} (f : Event -> option X) (tr : list Event) :
  (forall ev, isPageEvent ev = true -> f ev = None) ->
  Forall (fun ev => isPageEvent ev = true) tr -> collect f tr = [].
Proof.
  intros Hf H. apply collect_none. eapply Forall_impl; [| exact H]. exact Hf.
Qed.

Lemma loggerLine_page ev : isPageEvent ev = true -> loggerLine ev = None.
Proof. destruct ev; cbn; congruence. Qed.

Lemma consoleLine_page ev : isPageEvent ev = true -> consoleLine ev = None.
Proof. destruct ev; cbn; congruence. Qed.

Lemma eventTarget_page ev : isPageEvent ev = true -> eventTarget ev = None.
Proof. destruct ev as [T q r | |]; cbn; [destruct q; cbn |..]; congruence. Qed.

Lemma textsReply_page ev : isPageEvent ev = true -> textsReply ev = None.
Proof. destruct ev as [T q r | |]; cbn; [destruct q; cbn |..]; congruence. Qed.

Lemma disabledReply_page ev : isPageEvent ev = true -> disabledReply ev = None.
Proof. destruct ev as [T q r | |]; cbn; [destruct q; cbn |..]; congruence. Qed.

Lemma filter_page_event (g : Event -> bool) (tr : list Event) :
  (forall ev, isPageEvent ev = true -> g ev = false) ->
  Forall (fun ev => isPageEvent ev = true) tr -> filter g tr = [].
Proof.
  intros Hg. induction 1 as [| ev tr E _ IH]; cbn; [reflexivity |].
  rewrite (Hg _ E). exact IH.
Qed.

Lemma isElementCall_page ev : isPageEvent ev = true -> isElementCall ev = false.
Proof. destruct ev as [T q r | |]; cbn; [destruct q; cbn |..]; congruence. Qed.



(** ** C2 and C3: the row test of [getMatchedRowIndex] *)

(** C2. The claim says a row matches when, for every target, at least one
    cell satisfies the comparison. In substring mode the callbacks of
    [getMatchedRowIndex] and [getMetaTableMatchedRowIndex] reject a row as
    soon as one cell does not contain the target: they accept a row exactly
    when every cell contains every target. The row Alice/30 with target 30
    matches by the claim's rule and by the test of [getMatchedRowIndices]
    and [getIndex], and is rejected here. Exact mode follows the claim. *)
Theorem getMatchedRowIndex_substring_needs_every_cell :
  spec_rowMatches false ["30"] ["Alice"; "30"] = true /\
  getMatchedRowIndex_callback false ["30"] ["Alice"; "30"] = false /\
  getMetaTableMatchedRowIndex_callback false ["30"] ["Alice"; "30"] = false /\
  getMatchedRowIndices_flag false ["30"] ["Alice"; "30"] = true /\
  getIndex_callback false ["30"] ["Alice"; "30"] = true /\
  (forall rowValues rowText,
     getMatchedRowIndex_callback false rowValues rowText =
       forallb (fun t => forallb (spec_cellMatches false t) rowText) rowValues /\
     getMetaTableMatchedRowIndex_callback false rowValues rowText =
       forallb (fun t => forallb (spec_cellMatches false t) rowText) rowValues /\
     getMatchedRowIndex_callback true rowValues rowText =
       spec_rowMatches true rowValues rowText /\
     getMetaTableMatchedRowIndex_callback true rowValues rowText =
       spec_rowMatches true rowValues rowText).
Proof.
  repeat split; try reflexivity.
  - apply getMatchedRowIndex_callback_substring.
  - rewrite getMetaTableMatchedRowIndex_callback_same.
    apply getMatchedRowIndex_callback_substring.
  - apply getMatchedRowIndex_callback_exact.
  - rewrite getMetaTableMatchedRowIndex_callback_same.
    apply getMatchedRowIndex_callback_exact.
Qed.

(** C3. On the three-row table of the scenario (a one-cell header, then
    Alice/30 and Bob/30) the header is discarded and the filtered sequence
    is Alice/30, Bob/30, whose first row matching 30 by the claim's rule is
    at position 0. [getMatchedRowIndex(["30"])] in substring mode returns
    -1: neither row passes the substring test, since the cells Alice and
    Bob do not contain 30. In exact mode the same call returns 0. *)
Theorem getMatchedRowIndex_scenario_returns_minus_one :
  let env := staticEnv (tableDom 1 scenarioRows) in
  let table := start (constructor "table" None) in
  let exactly := Some (mkMatchOptions None (Some true)) in
  spec_filteredRows (map (fun t => splitRow [t]) scenarioRows) =
    [["Alice"; "30"]; ["Bob"; "30"]] /\
  findIndex (spec_rowMatches false ["30"])
    (spec_filteredRows (map (fun t => splitRow [t]) scenarioRows)) = 0 /\
  fst (getMatchedRowIndex env ["30"] None table) = Ok (-1) /\
  fst (getMetaTableMatchedRowIndex env ["30"] None table) = Ok (-1) /\
  fst (getMatchedRowIndex env ["30"] exactly table) = Ok 0.
Proof. repeat split; vm_compute; reflexivity. Qed.

Section TableFacts.

Variable env : Env.

Lemma appended_unique st st' n1 n2 :
  appended st st' n1 -> appended st st' n2 -> n1 = n2.
Proof.
  unfold appended. intros H1 H2. rewrite H1 in H2.
  apply app_inv_tail in H2. exact H2.
Qed.

Lemma textsRead_quiet st st' new : quiet st st' new -> textsRead new = [].
Proof.
  intros (_ & F & _). apply page_event_silent; [exact textsReply_page | exact F].
Qed.

(** The scan of [getMatchedRowIndices] over the positions [k .. k+n-1]: one
    text read per position, and a position is kept when its row passes. *)
Lemma scanRows_spec _locator _exactMatch rowValues n :
  forall k found st found' st',
    scanRows env _locator _exactMatch rowValues (map Z.of_nat (seq k n)) found st
      = (Ok found', st') ->
    exists new,
      appended st st' new /\ samePlace (this st) (this st') /\
      found' = (found ++ positionsFrom (Z.of_nat k)
                  (getMatchedRowIndices_flag _exactMatch rowValues)
                  (map (fun ts => split newline (arrayToString ts)) (textsRead new)))%list.
Proof.
  induction n as [| n IH]; intros k found st found' st' H; cbn in H.
  - unfold ret in H. inversion H; subst. exists []. cbn.
    rewrite app_nil_r. repeat split. apply samePlace_refl.
  - bind_step H; [| discriminate].
    apply getElement_spec in Ha as (n1 & Q1 & _).
    bind_step H; [| discriminate].
    apply call_inv in Ha as [Ea ->].
    apply IH in H as (n2 & A2 & S2 & ->).
    exists (n2 ++ (EvCall (AllInnerTexts (Nth (SubLocator a _locator) (Z.of_nat k))) (Ok a0)) :: n1)%list.
    destruct Q1 as (A1 & F1 & S1).
    split; [| split].
    + unfold appended in *. cbn in A2. rewrite A2, A1. rewrite <- app_assoc. reflexivity.
    + eapply samePlace_trans; [exact S1 | exact S2].
    + unfold textsRead. rewrite collect_app. cbn.
      rewrite (page_event_silent textsReply n1 textsReply_page F1). cbn.
      assert (Ek : Z.pos (Pos.of_succ_nat k) = Z.of_nat k + 1) by lia.
      rewrite Ek.
      match goal with |- context [if ?b then _ else _] => destruct b end;
        [rewrite <- app_assoc |]; reflexivity.
Qed.

(** The row-collecting loop of [getMatchedRowIndex]: one text read per
    position, and a row is kept when it splits into more than one cell. *)
Lemma collectRows_spec _locator indices :
  forall arr st arr' st',
    collectRows env _locator indices arr st = (Ok arr', st') ->
    exists new,
      appended st st' new /\ samePlace (this st) (this st') /\
      arr' = (arr ++ spec_filteredRows (map splitRow (textsRead new)))%list.
Proof.
  induction indices as [| i rest IH]; intros arr st arr' st' H; cbn in H.
  - unfold ret in H. inversion H; subst. exists []. cbn.
    rewrite app_nil_r. repeat split. apply samePlace_refl.
  - bind_step H; [| discriminate].
    apply getElement_spec in Ha as (n1 & Q1 & _).
    bind_step H; [| discriminate].
    apply call_inv in Ha as [Ea ->].
    apply IH in H as (n2 & A2 & S2 & ->).
    exists (n2 ++ (EvCall (AllInnerTexts (Nth (SubLocator a _locator) i)) (Ok a0)) :: n1)%list.
    destruct Q1 as (A1 & F1 & S1).
    split; [| split].
    + unfold appended in *. cbn in A2. rewrite A2, A1. rewrite <- app_assoc. reflexivity.
    + eapply samePlace_trans; [exact S1 | exact S2].
    + unfold textsRead. rewrite collect_app. cbn.
      rewrite (page_event_silent textsReply n1 textsReply_page F1). cbn.
      match goal with |- context [if ?b then _ else _] => destruct b end; cbn;
        [rewrite <- app_assoc |]; reflexivity.
Qed.

End TableFacts.

(** ** Positions *)

Lemma positionsFrom_In {A : Type} (p : A -> bool) (l : list A) :
  forall k i,
    In i (positionsFrom k p l) <->
    exists n x, i = k + Z.of_nat n /\ nth_error l n = Some x /\ p x = true.
Proof.
  induction l as [| y r IH]; intros k i; cbn.
  - split; [intros [] | intros (n & x & _ & Hn & _); destruct n; discriminate].
  - assert (Hr : In i (positionsFrom (k + 1) p r) <->
                 exists n x, i = k + Z.of_nat (S n) /\ nth_error r n = Some x /\ p x = true).
    { rewrite IH. split; intros (n & x & E & Hn & Px); exists n, x; repeat split; auto; lia. }
    destruct (p y) eqn:Py; cbn.
    + split.
      * intros [<- | H].
        -- exists 0%nat, y. repeat split; auto. cbn; lia.
        -- apply Hr in H as (n & x & E & Hn & Px). exists (S n), x. auto.
      * intros ([| n] & x & E & Hn & Px).
        -- left. cbn in E. lia.
        -- right. apply Hr. exists n, x. auto.
    + split.
      * intros H. apply Hr in H as (n & x & E & Hn & Px). exists (S n), x. auto.
      * intros ([| n] & x & E & Hn & Px).
        -- cbn in Hn. inversion Hn; subst. congruence.
        -- apply Hr. exists n, x. auto.
Qed.

Lemma positionsFrom_sorted {A : Type} (p : A -> bool) (l : list A) :
  forall k, StronglySorted Z.lt (positionsFrom k p l).
Proof.
  induction l as [| y r IH]; intros k; cbn; [constructor |].
  destruct (p y); [| apply IH].
  constructor; [apply IH |].
  apply Forall_forall. intros i Hi.
  apply positionsFrom_In in Hi as (n & x & E & _). lia.
Qed.

Lemma positionsFrom_ext {A : Type} (p q : A -> bool) (l : list A) k :
  (forall x, p x = q x) -> positionsFrom k p l = positionsFrom k q l.
Proof.
  intros E. revert k. induction l as [| y r IH]; intros k; cbn; [reflexivity |].
  rewrite E, IH. reflexivity.
Qed.

Section TableResults.

Variable env : Env.

(** ** C5: [getHeaderColumnNumber] *)

(** C5, as the code has it. [getHeaderColumnNumber] reads the header texts
    once and returns -1 when no header matches, otherwise the position of
    the first header that matches, where exact mode compares the trimmed
    texts for equality with letter case kept, and the default mode compares
    the trimmed texts for equality with letter case ignored. *)
Theorem getHeaderColumnNumber_first_match colName exactMatch st i st' new :
  getHeaderColumnNumber env colName exactMatch st = (Ok i, st') ->
  appended st st' new ->
  exists headers,
    textsRead new = [headers] /\
    FirstMatch (headerMatches exactMatch colName) headers i.
Proof.
  intros H A. unfold getHeaderColumnNumber in H.
  bind_step H; [| discriminate].
  apply getElement_spec in Ha as (n1 & Q1 & _).
  bind_step H; [| discriminate].
  apply call_inv in Ha as [Ea ->].
  bind_step H; [| discriminate].
  rewrite clearFullCssAndXPath_run in Ha. inversion Ha; subst; clear Ha.
  exists a0.
  assert (En : new = (EvCall (AllInnerTexts (SubLocator a "th")) (Ok a0) :: n1)%list).
  { apply (appended_unique st st' _ _ A). destruct Q1 as (A1 & _ & _).
    unfold appended in *.
    destruct exactMatch; unfold ret in H; inversion H; subst; cbn; rewrite A1; reflexivity. }
  split.
  - rewrite En. unfold textsRead. cbn.
    pose proof (textsRead_quiet _ _ _ Q1) as T1. unfold textsRead in T1.
    rewrite T1. reflexivity.
  - destruct exactMatch; unfold ret in H; inversion H; subst.
    + exact (findIndex_FirstMatch (headerMatches true colName) a0).
    + exact (findIndex_FirstMatch (headerMatches false colName) a0).
Qed.

End TableResults.

(** The variant that goes through the cell elements does filter: on the
    scenario table [getMetaTableMatchedRowIndices(["30"])] drops the one-cell
    header and reports the post-filter positions 0 and 1. Its search loop
    blanks a row once found and starts over, so with no target at all the
    blanked first row is found again in every round. *)
Lemma getMetaTableMatchedRowIndices_scenario :
  let env := staticEnv (cellsDom [["Header"]; ["Alice"; "30"]; ["Bob"; "30"]]) in
  fst (getMetaTableMatchedRowIndices env ["30"] None table) = Ok [0; 1] /\
  fst (getMetaTableMatchedRowIndices env [] None table) = Ok [0; 0].
Proof. split; vm_compute; reflexivity. Qed.

(** The header row Id, Name, Age: the lookup of [" name "] is an instance
    of the theorem and finds position 1. *)
Lemma getHeaderColumnNumber_first_match_witness :
  let run := getHeaderColumnNumber (staticEnv (headersDom ["Id"; "Name"; "Age"])) " name " false table in
  fst run = Ok 1 /\
  exists headers,
    textsRead (trace (snd run)) = [headers] /\
    FirstMatch (headerMatches false " name ") headers 1.
Proof.
  intros run. split; [vm_compute; reflexivity |].
  refine (getHeaderColumnNumber_first_match
            (staticEnv (headersDom ["Id"; "Name"; "Age"])) " name " false table 1
            (snd run) (trace (snd run)) _ _).
  - vm_compute. reflexivity.
  - vm_compute. reflexivity.
Defined.

(** C5 as stated fails in both modes. Exact mode keeps letter case: the
    header Name is not found under the name [name], which equals it when
    case is ignored. The default mode compares for equality, not for
    containment: the header Username is not found under [name], which it
    contains. *)
Lemma getHeaderColumnNumber_is_not_the_stated_lookup :
  fst (getHeaderColumnNumber (staticEnv (headersDom ["Name"])) "name" true table) = Ok (-1) /\
  findIndex (spec_headerMatches true "name") ["Name"] = 0 /\
  fst (getHeaderColumnNumber (staticEnv (headersDom ["Username"])) "name" false table) = Ok (-1) /\
  findIndex (spec_headerMatches false "name") ["Username"] = 0 /\
  fst (getHeaderColumnNumber (staticEnv (headersDom ["Name"])) "name" true table)
    <> Ok (findIndex (spec_headerMatches true "name") ["Name"]) /\
  fst (getHeaderColumnNumber (staticEnv (headersDom ["Username"])) "name" false table)
    <> Ok (findIndex (spec_headerMatches false "name") ["Username"]).
Proof.
  repeat split; try (vm_compute; reflexivity); vm_compute; intros H; discriminate H.
Qed.

(** ** C1: the reset after a terminal action *)

Section Reset.

Variable env : Env.

Lemma endsReset_bind {A B : Type} (m : M A) (k : A -> M B) :
  (forall a, endsReset (k a)) -> endsReset (bind m k).
Proof.
  intros Hk st b st' H. bind_step H; [| discriminate].
  eapply Hk; eassumption.
Qed.

Lemma endsReset_then {A B : Type} (m : M A) (k : A -> M B) :
  endsReset m -> (forall a, keepsThis (k a)) -> endsReset (bind m k).
Proof.
  intros Hm Hk st b st' H. bind_step H; [| discriminate].
  apply Hk in H. rewrite H. eapply Hm; eassumption.
Qed.

Lemma endsReset_clear : endsReset clearFullCssAndXPath.
Proof.
  intros st a st' H. rewrite clearFullCssAndXPath_run in H.
  inversion H; subst. split; reflexivity.
Qed.

Lemma keepsThis_bind {A B : Type} (m : M A) (k : A -> M B) :
  keepsThis m -> (forall a, keepsThis (k a)) -> keepsThis (bind m k).
Proof.
  intros Hm Hk st r st' H. bind_step H.
  - apply Hk in H. apply Hm in Ha. congruence.
  - apply Hm in H. exact H.
Qed.

Lemma keepsThis_ret {A : Type} (a : A) : keepsThis (ret a).
Proof. intros st r st' H. inversion H; reflexivity. Qed.

Lemma keepsThis_getThis : keepsThis getThis.
Proof. intros st r st' H. inversion H; reflexivity. Qed.

Lemma keepsThis_emit ev : keepsThis (emit ev).
Proof. intros st r st' H. inversion H; reflexivity. Qed.

Lemma keepsThis_call {T : Type} (q : Query T) : keepsThis (call env q).
Proof. intros st r st' H. apply call_inv in H as [_ ->]. reflexivity. Qed.

Lemma keepsThis_logger_info msg : keepsThis (logger_info msg).
Proof.
  unfold logger_info. apply keepsThis_bind; [apply keepsThis_emit |].
  intros _. destruct (negb _); [apply keepsThis_emit | apply keepsThis_ret].
Qed.

Lemma keepsThis_thisPage member : keepsThis (thisPage member).
Proof. intros st r st' H. apply thisPage_inv in H as [-> _]. reflexivity. Qed.

Lemma keepsThis_getLocator : keepsThis getLocator.
Proof. intros st r st' H. rewrite getLocator_run in H. inversion H; reflexivity. Qed.

Lemma endsReset_discard {A : Type} (m : M A) : endsReset m -> endsReset (discard m).
Proof. intros H. apply endsReset_then; [exact H | intros a; apply keepsThis_ret]. Qed.

Lemma click_endsReset options : endsReset (click env options).
Proof.
  unfold click. repeat first [apply endsReset_clear | apply endsReset_bind; intros].
Qed.

Lemma dblClick_endsReset options : endsReset (dblClick env options).
Proof.
  unfold dblClick. repeat first [apply endsReset_clear | apply endsReset_bind; intros].
Qed.

Lemma check_endsReset options : endsReset (check env options).
Proof.
  unfold check. repeat first [apply endsReset_clear | apply endsReset_bind; intros].
Qed.

Lemma uncheck_endsReset options : endsReset (uncheck env options).
Proof.
  unfold uncheck. repeat first [apply endsReset_clear | apply endsReset_bind; intros].
Qed.

Lemma type_endsReset v options : endsReset (type env v options).
Proof.
  unfold type. repeat first [apply endsReset_clear | apply endsReset_bind; intros].
Qed.

Lemma pressSequentially_endsReset v options : endsReset (pressSequentially env v options).
Proof.
  unfold pressSequentially. repeat first [apply endsReset_clear | apply endsReset_bind; intros].
Qed.

Lemma getText_endsReset i : endsReset (getText env i).
Proof.
  unfold getText. do 2 (apply endsReset_bind; intros).
  apply endsReset_then; [apply endsReset_clear |]. intros _.
  apply keepsThis_bind; [apply keepsThis_getThis |]. intros h.
  apply keepsThis_bind; [apply keepsThis_logger_info |]. intros _.
  apply keepsThis_ret.
Qed.

Lemma isExist_endsReset : endsReset (isExist env).
Proof.
  unfold isExist. do 5 (apply endsReset_bind; intros).
  apply endsReset_then; [apply endsReset_clear |]. intros _.
  apply keepsThis_bind; [apply keepsThis_thisPage |]. intros p.
  apply keepsThis_bind; [apply keepsThis_getLocator |]. intros sel.
  apply keepsThis_bind; [apply keepsThis_call |]. intros flag.
  apply keepsThis_ret.
Qed.

Lemma clear_then_ret {A : Type} (a : A) :
  endsReset (bind clearFullCssAndXPath (fun _ => ret a)).
Proof.
  apply endsReset_then; [apply endsReset_clear | intros _; apply keepsThis_ret].
Qed.

Lemma getRowsLength_endsReset options : endsReset (getRowsLength env options).
Proof.
  unfold getRowsLength. do 2 (apply endsReset_bind; intros). apply clear_then_ret.
Qed.

Lemma getHeaderColumnNumber_endsReset colName exactMatch :
  endsReset (getHeaderColumnNumber env colName exactMatch).
Proof.
  unfold getHeaderColumnNumber. do 2 (apply endsReset_bind; intros).
  apply endsReset_then; [apply endsReset_clear |]. intros _.
  destruct exactMatch; apply keepsThis_ret.
Qed.

Lemma getMatchedRowIndex_endsReset rowValues options :
  endsReset (getMatchedRowIndex env rowValues options).
Proof.
  unfold getMatchedRowIndex. do 4 (apply endsReset_bind; intros). apply clear_then_ret.
Qed.

Lemma getMatchedRowIndices_endsReset rowValues options :
  endsReset (getMatchedRowIndices env rowValues options).
Proof.
  unfold getMatchedRowIndices. do 3 (apply endsReset_bind; intros). apply clear_then_ret.
Qed.

Lemma getMetaTableMatchedRowIndex_endsReset rowValues options :
  endsReset (getMetaTableMatchedRowIndex env rowValues options).
Proof.
  unfold getMetaTableMatchedRowIndex. do 5 (apply endsReset_bind; intros).
  apply clear_then_ret.
Qed.

(** X20. The reset invariant for every terminal action that calls the
    declared [clearFullCssAndXPath]: after any chain of narrowing operations
    and such a terminal action, the effective locator is the base locator
    and the effective XPath is empty. *)
Lemma chain_reset ns t st st' :
  callsDeclaredClear t = true ->
  chain env ns t st = (Ok tt, st') ->
  isReset (this st').
Proof.
  intros Ht. revert st. induction ns as [| n rest IH]; intros st H; cbn in H.
  - destruct t; cbn in Ht; try discriminate; cbn in H.
    + eapply click_endsReset; eassumption.
    + eapply dblClick_endsReset; eassumption.
    + eapply check_endsReset; eassumption.
    + eapply uncheck_endsReset; eassumption.
    + eapply (endsReset_discard _ (getText_endsReset _)); eassumption.
    + eapply (endsReset_discard _ isExist_endsReset); eassumption.
    + eapply type_endsReset; eassumption.
    + eapply pressSequentially_endsReset; eassumption.
    + eapply (endsReset_discard _ (getRowsLength_endsReset _)); eassumption.
    + eapply (endsReset_discard _ (getHeaderColumnNumber_endsReset _ _)); eassumption.
    + eapply (endsReset_discard _ (getMatchedRowIndex_endsReset _ _)); eassumption.
    + eapply (endsReset_discard _ (getMatchedRowIndices_endsReset _ _)); eassumption.
    + eapply (endsReset_discard _ (getMetaTableMatchedRowIndex_endsReset _ _)); eassumption.
  - bind_step H; [| discriminate]. eapply IH; eassumption.
Qed.

Lemma neverOk_bind {A B : Type} (m : M A) (k : A -> M B) :
  (forall a, neverOk (k a)) -> neverOk (bind m k).
Proof.
  intros Hk st r st' H. bind_step H.
  - eapply Hk; eassumption.
  - eauto.
Qed.

Lemma neverOk_throw {A : Type} (e : Error) : neverOk (@throw A e).
Proof. intros st r st' H. inversion H; subst. eauto. Qed.

Lemma keepsPlace_bind {A B : Type} (m : M A) (k : A -> M B) :
  keepsPlace m -> (forall a, keepsPlace (k a)) -> keepsPlace (bind m k).
Proof.
  intros Hm Hk st r st' H. bind_step H.
  - eapply samePlace_trans; [eapply Hm | eapply Hk]; eassumption.
  - eapply Hm; eassumption.
Qed.

Lemma keepsThis_keepsPlace {A : Type} (m : M A) : keepsThis m -> keepsPlace m.
Proof.
  intros Hm st r st' H. apply Hm in H. rewrite H. apply samePlace_refl.
Qed.

Lemma keepsPlace_getElement : keepsPlace (getElement env).
Proof.
  intros st r st' H. apply getElement_spec in H as (n & (_ & _ & S) & _). exact S.
Qed.

Lemma keepsThis_throw {A : Type} (e : Error) : keepsThis (@throw A e).
Proof. intros st r st' H. inversion H; reflexivity. Qed.

Lemma keepsPlace_pressIfAsked keyPress : keepsPlace (pressIfAsked env keyPress).
Proof.
  destruct keyPress as [k |]; cbn.
  - apply keepsPlace_bind; [apply keepsPlace_getElement |].
    intros e. apply keepsThis_keepsPlace, keepsThis_call.
  - apply keepsThis_keepsPlace, keepsThis_ret.
Qed.

Lemma neverOk_first {A B : Type} (m : M A) (k : A -> M B) :
  neverOk m -> neverOk (bind m k).
Proof.
  intros Hm st r st' H. bind_step H.
  - apply Hm in Ha as (e & He). discriminate.
  - eauto.
Qed.

Lemma getCount_neverOk : neverOk (getCount env).
Proof.
  unfold getCount. do 2 (apply neverOk_bind; intros).
  apply neverOk_first, neverOk_throw.
Qed.

Lemma getCount_keepsPlace : keepsPlace (getCount env).
Proof.
  unfold getCount.
  apply keepsPlace_bind; [apply keepsPlace_getElement |]. intros e.
  apply keepsThis_keepsPlace.
  apply keepsThis_bind; [apply keepsThis_call |]. intros n.
  apply keepsThis_bind; [apply keepsThis_throw |]. intros _.
  apply keepsThis_ret.
Qed.

Lemma setValue_neverOk v options : neverOk (setValue env v options).
Proof.
  unfold setValue. do 7 (apply neverOk_bind; intros). apply neverOk_throw.
Qed.

Lemma setValue_keepsPlace v options : keepsPlace (setValue env v options).
Proof.
  unfold setValue.
  apply keepsPlace_bind; [apply keepsPlace_getElement |]. intros e1.
  apply keepsPlace_bind; [apply keepsThis_keepsPlace, keepsThis_call |]. intros _.
  apply keepsPlace_bind; [apply keepsPlace_getElement |]. intros e2.
  apply keepsPlace_bind; [apply keepsThis_keepsPlace, keepsThis_call |]. intros _.
  apply keepsPlace_bind; [apply keepsPlace_pressIfAsked |]. intros _.
  apply keepsThis_keepsPlace.
  apply keepsThis_bind; [apply keepsThis_getThis |]. intros h.
  apply keepsThis_bind; [apply keepsThis_logger_info |]. intros _.
  apply keepsThis_throw.
Qed.

(** The narrowing operations that call the undeclared spelling
    [setCssAndXPath] never complete. *)
Lemma getNth_neverOk i : neverOk (getNth env i).
Proof. unfold getNth. apply neverOk_bind; intros e. apply neverOk_throw. Qed.

Lemma getRow_neverOk i options : neverOk (getRow env i options).
Proof.
  unfold getRow. do 2 (apply neverOk_bind; intros). apply neverOk_throw.
Qed.

(** [getCount] and [setValue] end in a throw and leave the effective
    locator and XPath as they found them. *)
Lemma getCount_leaves_narrowing st :
  exists e st', getCount env st = (Throw e, st') /\
    fullCss (this st') = fullCss (this st) /\
    fullXpath (this st') = fullXpath (this st).
Proof.
  destruct (getCount env st) as [r st'] eqn:E.
  destruct (getCount_neverOk _ _ _ E) as (e & ->).
  exists e, st'. split; [reflexivity |].
  apply getCount_keepsPlace in E. rewrite E. split; reflexivity.
Qed.

Lemma setValue_leaves_narrowing v options st :
  exists e st', setValue env v options st = (Throw e, st') /\
    fullCss (this st') = fullCss (this st) /\
    fullXpath (this st') = fullXpath (this st).
Proof.
  destruct (setValue env v options st) as [r st'] eqn:E.
  destruct (setValue_neverOk _ _ _ _ _ E) as (e & ->).
  exists e, st'. split; [reflexivity |].
  apply setValue_keepsPlace in E. rewrite E. split; reflexivity.
Qed.

End Reset.

(** C1. [getCount] and [setValue] finish with a call of
    [this.clearFullCssAndXpath], a member the class does not declare (the
    reset method is [clearFullCssAndXPath]): whatever the engine replies,
    the call ends in a throw with the effective locator and XPath left as
    they were. After [contains("x")] on the list handle, [getCount] and
    [setValue("v")] throw and leave the handle narrowed to the first item,
    where the claim has it back at its base locator with an empty XPath;
    [click] after the same narrowing does reset the handle. *)
Theorem getCount_and_setValue_skip_the_reset :
  (forall env st, exists e st',
      getCount env st = (Throw e, st') /\
      fullCss (this st') = fullCss (this st) /\
      fullXpath (this st') = fullXpath (this st)) /\
  (forall env v options st, exists e st',
      setValue env v options st = (Throw e, st') /\
      fullCss (this st') = fullCss (this st) /\
      fullXpath (this st') = fullXpath (this st)) /\
  (let run := chain fourItems [NContains "x" None] TGetCount items in
   fst run = Throw (notAFunction "clearFullCssAndXpath") /\
   locator (this (snd run)) = "ul > li" /\
   fullCss (this (snd run)) = "ul > li:nth-child(1)" /\
   fullXpath (this (snd run)) = Some "/ul/li[1]") /\
  (let run := chain fourItems [NContains "x" None] (TSetValue "v" None) items in
   fst run = Throw (notAFunction "clearFullCssAndXpath") /\
   locator (this (snd run)) = "ul > li" /\
   fullCss (this (snd run)) = "ul > li:nth-child(1)" /\
   fullXpath (this (snd run)) = Some "/ul/li[1]") /\
  (let run := chain fourItems [NContains "x" None] (TClick None) items in
   fst run = Ok tt /\
   locator (this (snd run)) = "ul > li" /\
   fullCss (this (snd run)) = "ul > li" /\
   fullXpath (this (snd run)) = Some "").
Proof.
  split; [exact getCount_leaves_narrowing |].
  split; [exact setValue_leaves_narrowing |].
  repeat split; vm_compute; reflexivity.
Qed.

(** ** C6 and C10: [check] and [uncheck] *)

Section Checkbox.

Variable env : Env.

Lemma logger_info_run msg st :
  logger_info msg st =
  (Ok tt, mkState (this st) (popup st) (logEvents msg ++ trace st)%list).
Proof.
  unfold logger_info, logEvents, bind, emit, ret.
  destruct (negb (includes (toLowerCase msg) "password")); reflexivity.
Qed.

(** The index computation of [check] and [uncheck]: a given [objIndex]
    becomes -1, an absent one stays [undefined], and neither is greater
    than -1. *)
Lemma checkObjIndex_never_selects options :
  (forall i, optField ao_objIndex options = Some i -> checkObjIndex options = Some (-1)) /\
  (optField ao_objIndex options = None -> checkObjIndex options = None) /\
  gt (checkObjIndex options) (-1) = false.
Proof.
  unfold checkObjIndex.
  destruct (optField ao_objIndex options) as [i |]; repeat split; intros; congruence.
Qed.

Lemma checkTarget_first options :
  checkTarget env (checkObjIndex options) =
  bind (getElement env) (fun e => ret (First e)).
Proof.
  unfold checkTarget.
  destruct (checkObjIndex_never_selects options) as (_ & _ & ->). reflexivity.
Qed.

Lemma checkTarget_spec options st r st' :
  checkTarget env (checkObjIndex options) st = (r, st') ->
  exists new, quiet st st' new /\
    (forall obj, r = Ok obj -> exists p, obj = First (PageLocator p (fullCss (this st)))).
Proof.
  rewrite checkTarget_first. intros H. bind_step H.
  - apply getElement_spec in Ha as (n & Q & He).
    destruct (He _ eq_refl) as (p & _ & ->).
    unfold ret in H. inversion H; subst. exists n. split; [exact Q |].
    intros obj Ho. inversion Ho; subst. exists p. reflexivity.
  - apply getElement_spec in H as (n & Q & _). exists n. split; [exact Q |].
    intros obj Ho. subst. discriminate.
Qed.

(** The part of [check] and [uncheck] after the element is resolved. *)
Lemma toggle_tail (toggle : Locator -> bool -> Query unit) obj force
    (doneMsg skipMsg : UiActions -> string) st r st' :
  bind (call env (GetAttribute obj "disabled")) (fun flag =>
    bind (if negb (truthy flag)
          then bind (call env (toggle obj force)) (fun _ =>
                 bind getThis (fun h => logger_info (doneMsg h)))
          else bind getThis (fun h => logger_info (skipMsg h)))
         (fun _ => clearFullCssAndXPath)) st = (r, st') ->
  (exists e, r = Throw e /\
     trace st' = EvCall (GetAttribute obj "disabled") (Throw e) :: trace st) \/
  (exists flag, truthy flag = true /\ r = Ok tt /\
     trace st' = (logEvents (skipMsg (this st))
                    ++ EvCall (GetAttribute obj "disabled") (Ok flag) :: trace st)%list) \/
  (exists flag, truthy flag = false /\ r = Ok tt /\
     trace st' = (logEvents (doneMsg (this st)) ++ EvCall (toggle obj force) (Ok tt)
                    :: EvCall (GetAttribute obj "disabled") (Ok flag) :: trace st)%list) \/
  (exists flag e, truthy flag = false /\ r = Throw e /\
     trace st' = EvCall (toggle obj force) (Throw e)
                   :: EvCall (GetAttribute obj "disabled") (Ok flag) :: trace st).
Proof.
  intros H. bind_step H.
  2:{ apply call_inv in H as [E ->]. left. exists e. subst. cbn. auto. }
  apply call_inv in Ha as [E ->]. rename a into flag.
  destruct (truthy flag) eqn:Tf; cbn [negb] in H.
  - right; left. exists flag.
    bind_step H.
    2:{ exfalso. bind_step H; [| inversion H].
        inversion Ha; subst. rewrite logger_info_run in H. discriminate. }
    bind_step Ha; [| inversion Ha].
    inversion Haa; subst; clear Haa.
    rewrite logger_info_run in Ha. inversion Ha; subst; clear Ha.
    rewrite clearFullCssAndXPath_run in H. inversion H; subst; clear H.
    cbn. auto.
  - right; right.
    bind_step H.
    + left. exists flag.
      bind_step Ha; [| discriminate].
      apply call_inv in Haa as [E2 ->]. destruct a0.
      bind_step Ha; [| inversion Ha].
      inversion Haa; subst; clear Haa.
      rewrite logger_info_run in Ha. inversion Ha; subst; clear Ha.
      rewrite clearFullCssAndXPath_run in H. inversion H; subst; clear H.
      cbn. auto.
    + right. exists flag, e.
      bind_step H.
      * exfalso. bind_step H; [| inversion H].
        inversion Ha0; subst. rewrite logger_info_run in H. discriminate.
      * apply call_inv in H as [E2 ->]. inversion Hr0; subst. cbn. auto.
Qed.

Lemma check_run options st r st' new :
  check env options st = (r, st') ->
  appended st st' new ->
  exists p,
    ToggleRun CheckBox (First (PageLocator p (fullCss (this st))))
      (forceOrFalse (optField ao_force options))
      (objectDescriptor (this st) ++ " - checked the checkbox")
      (objectDescriptor (this st) ++ " - unable to check the checkbox, it's disabled")
      r new.
Proof.
  intros H A. unfold check in H.
  bind_step H.
  2:{ apply waitTillElementToBeReady_spec in H as (n0 & (A0 & F0 & _) & _).
      exists 0%nat, n0. split; [exact F0 |]. left.
      split; [exact (appended_unique _ _ _ _ A A0) | eauto]. }
  apply waitTillElementToBeReady_spec in Ha as (n0 & Q0 & _).
  bind_step H.
  2:{ apply checkTarget_spec in H as (n1 & Q1 & _).
      destruct (quiet_trans _ _ _ _ _ Q0 Q1) as (A1 & F1 & _).
      exists 0%nat, (n1 ++ n0)%list. split; [exact F1 |]. left.
      split; [exact (appended_unique _ _ _ _ A A1) | eauto]. }
  apply checkTarget_spec in Ha as (n1 & Q1 & Ho).
  destruct (Ho _ eq_refl) as (p & ->).
  pose proof (quiet_trans _ _ _ _ _ Q0 Q1) as Q.
  destruct (quiet_fields _ _ _ Q0) as (_ & Ec & _).
  destruct (quiet_fields _ _ _ Q) as (_ & _ & _ & Ed & _).
  destruct Q as (A1 & F1 & _).
  exists p, (n1 ++ n0)%list. split; [exact F1 |]. right.
  rewrite Ec in H.
  apply (toggle_tail CheckBox _ _
           (fun h => objectDescriptor h ++ " - checked the checkbox")
           (fun h => objectDescriptor h ++ " - unable to check the checkbox, it's disabled"))
    in H.
  rewrite Ed in H. unfold appended in A, A1. rewrite A1 in H.
  destruct H as [(e & -> & T) | [(flag & Tf & -> & T) | [(flag & Tf & -> & T) | (flag & e & Tf & -> & T)]]];
    rewrite A in T.
  - left. exists e. split; [reflexivity |].
    apply (app_inv_tail (trace st)). rewrite T. reflexivity.
  - right; left. exists flag. repeat split; auto.
    apply (app_inv_tail (trace st)). rewrite T.
    repeat (rewrite <- app_assoc || rewrite <- app_comm_cons). reflexivity.
  - right; right; left. exists flag. repeat split; auto.
    apply (app_inv_tail (trace st)). rewrite T.
    repeat (rewrite <- app_assoc || rewrite <- app_comm_cons). reflexivity.
  - right; right; right. exists flag, e. repeat split; auto.
    apply (app_inv_tail (trace st)). rewrite T. reflexivity.
Qed.

Lemma uncheck_run options st r st' new :
  uncheck env options st = (r, st') ->
  appended st st' new ->
  exists p,
    ToggleRun UncheckBox (First (PageLocator p (fullCss (this st))))
      (forceOrFalse (optField ao_force options))
      (objectDescriptor (this st) ++ " - unchecked the checkbox")
      (objectDescriptor (this st) ++ " - unable to uncheck the checkbox, it's disabled")
      r new.
Proof.
  intros H A. unfold uncheck in H.
  bind_step H.
  2:{ apply checkTarget_spec in H as (n1 & (A1 & F1 & _) & _).
      exists 0%nat, n1. split; [exact F1 |]. left.
      split; [exact (appended_unique _ _ _ _ A A1) | eauto]. }
  apply checkTarget_spec in Ha as (n1 & Q & Ho).
  destruct (Ho _ eq_refl) as (p & ->).
  destruct (quiet_fields _ _ _ Q) as (_ & _ & _ & Ed & _).
  destruct Q as (A1 & F1 & _).
  exists p, n1. split; [exact F1 |]. right.
  apply (toggle_tail UncheckBox _ _
           (fun h => objectDescriptor h ++ " - unchecked the checkbox")
           (fun h => objectDescriptor h ++ " - unable to uncheck the checkbox, it's disabled"))
    in H.
  rewrite Ed in H. unfold appended in A, A1. rewrite A1 in H.
  destruct H as [(e & -> & T) | [(flag & Tf & -> & T) | [(flag & Tf & -> & T) | (flag & e & Tf & -> & T)]]];
    rewrite A in T.
  - left. exists e. split; [reflexivity |].
    apply (app_inv_tail (trace st)). rewrite T. reflexivity.
  - right; left. exists flag. repeat split; auto.
    apply (app_inv_tail (trace st)). rewrite T.
    repeat (rewrite <- app_assoc || rewrite <- app_comm_cons). reflexivity.
  - right; right; left. exists flag. repeat split; auto.
    apply (app_inv_tail (trace st)). rewrite T.
    repeat (rewrite <- app_assoc || rewrite <- app_comm_cons). reflexivity.
  - right; right; right. exists flag, e. repeat split; auto.
    apply (app_inv_tail (trace st)). rewrite T. reflexivity.
Qed.

End Checkbox.

Lemma collect_logEvents_logger msg : collect loggerLine (logEvents msg) = [msg].
Proof. unfold logEvents. destruct (negb _); reflexivity. Qed.

Lemma collect_logEvents_disabled msg : collect disabledReply (logEvents msg) = [].
Proof. unfold logEvents. destruct (negb _); reflexivity. Qed.

Lemma collect_logEvents_targets msg : collect eventTarget (logEvents msg) = [].
Proof. unfold logEvents. destruct (negb _); reflexivity. Qed.

Lemma filter_logEvents (g : Event -> bool) msg :
  g (EvLogger msg) = false -> g (EvConsole msg) = false -> filter g (logEvents msg) = [].
Proof.
  intros H1 H2. unfold logEvents. destruct (negb _); cbn; rewrite ?H1, ?H2; reflexivity.
Qed.


(** From the shape of a run to the elements it acted on. *)
Lemma ToggleRun_targets toggle obj force doneMsg skipMsg r new :
  (forall l f, callTarget (toggle l f) = Some l) ->
  ToggleRun toggle obj force doneMsg skipMsg r new ->
  Forall (fun l => l = obj) (targets new).
Proof.
  intros Ht (pre & F & Shape).
  assert (Tpre : collect eventTarget pre = [])
    by (apply page_event_silent; [exact eventTarget_page | exact F]).
  unfold targets.
  destruct Shape as [(-> & _) | [(e & -> & ->) | [(fl & Tf & -> & ->) | [(fl & Tf & -> & ->) | (fl & e & Tf & -> & ->)]]]].
  - rewrite Tpre. constructor.
  - cbn. rewrite Tpre. repeat constructor.
  - rewrite collect_app. cbn. rewrite Tpre, collect_logEvents_targets.
    repeat constructor.
  - rewrite collect_app. cbn. rewrite Ht, Tpre, collect_logEvents_targets.
    repeat constructor.
  - cbn. rewrite Ht, Tpre. repeat constructor.
Qed.



(** ** C8: the log line of the value-entering actions *)

Section ValueLog.

Variable env : Env.

Lemma noLog_silent (new : list Event) :
  Forall noLog new -> loggerLines new = [] /\ consoleLines new = [].
Proof.
  intros F. split; apply collect_none; eapply Forall_impl; try exact F;
    intros ev [H1 H2]; assumption.
Qed.

Lemma silent_bind {A B : Type} (m : M A) (k : A -> M B) :
  silent m -> (forall a, silent (k a)) -> silent (bind m k).
Proof.
  intros Hm Hk st r st' H. bind_step H.
  - apply Hm in Ha as (n1 & A1 & F1 & S1). apply Hk in H as (n2 & A2 & F2 & S2).
    exists (n2 ++ n1)%list. split; [eapply appended_trans; eassumption |].
    split; [apply Forall_app; split; assumption |].
    eapply samePlace_trans; eassumption.
  - apply Hm in H. exact H.
Qed.

Lemma silent_ret {A : Type} (a : A) : silent (ret a).
Proof.
  intros st r st' H. inversion H; subst. exists []. repeat split; auto.
  apply samePlace_refl.
Qed.

Lemma silent_call {T : Type} (q : Query T) : silent (call env q).
Proof.
  intros st r st' H. apply call_inv in H as [_ ->]. exists [EvCall q r].
  repeat split; cbn; auto.
  - repeat constructor.
  - destruct (this st); reflexivity.
Qed.

Lemma silent_getElement : silent (getElement env).
Proof.
  intros st r st' H. apply getElement_spec in H as (n & (A & F & S) & _).
  exists n. repeat split; auto.
  eapply Forall_impl; [| exact F]. intros ev Hev.
  split; [apply loggerLine_page | apply consoleLine_page]; exact Hev.
Qed.

Lemma silent_pressIfAsked keyPress : silent (pressIfAsked env keyPress).
Proof.
  destruct keyPress as [k |]; cbn.
  - apply silent_bind; [apply silent_getElement | intros e; apply silent_call].
  - apply silent_ret.
Qed.

Lemma logsLine_after {A B : Type} (line : UiActions -> string) (m : M A) (k : A -> M B) :
  (forall h h', samePlace h h' -> line h' = line h) ->
  silent m -> (forall a, logsLine line (k a)) -> logsLine line (bind m k).
Proof.
  intros Hl Hm Hk st r st' H. bind_step H.
  - apply Hm in Ha as (n1 & A1 & F1 & S1).
    apply Hk in H as (n2 & A2 & L2 & C2 & O2).
    destruct (noLog_silent _ F1) as [L1 C1].
    rewrite (Hl _ _ S1) in L2, C2, O2.
    exists (n2 ++ n1)%list. split; [eapply appended_trans; eassumption |].
    unfold loggerLines, consoleLines in *. rewrite !collect_app, L1, C1. cbn.
    repeat split; auto.
  - apply Hm in H as (n1 & A1 & F1 & S1).
    destruct (noLog_silent _ F1) as [L1 C1].
    exists n1. repeat split; auto. intros a Ha. subst. discriminate.
Qed.

Lemma logsLine_log (line : UiActions -> string) (fin : M unit) :
  mute fin ->
  logsLine line (bind getThis (fun h => bind (logger_info (line h)) (fun _ => fin))).
Proof.
  intros Hf st r st' H.
  bind_step H; [| inversion H]. inversion Ha; subst; clear Ha.
  bind_step H; [| rewrite logger_info_run in H; discriminate].
  rewrite logger_info_run in Ha. inversion Ha; subst; clear Ha.
  apply Hf in H. cbn in H.
  exists (logEvents (line (this s))). split; [exact H |].
  unfold loggerLines, consoleLines, logEvents.
  destruct (includes (toLowerCase (line (this s))) "password") eqn:E; cbn; auto.
Qed.

Lemma mute_clearFullCssAndXPath : mute clearFullCssAndXPath.
Proof. intros st r st' H. rewrite clearFullCssAndXPath_run in H. inversion H; reflexivity. Qed.

Lemma mute_clearFullCssAndXpath : mute clearFullCssAndXpath.
Proof. intros st r st' H. inversion H; reflexivity. Qed.

Lemma valueLogLine_invariant label v h h' :
  samePlace h h' ->
  valueLogLine label (objectDescriptor h') v = valueLogLine label (objectDescriptor h) v.
Proof. intros S. rewrite S. reflexivity. Qed.

Lemma setValue_logsLine v options :
  logsLine (fun h => valueLogLine " - set the value: " (objectDescriptor h) v)
    (setValue env v options).
Proof.
  unfold setValue.
  apply logsLine_after; [intros; apply valueLogLine_invariant; assumption | apply silent_getElement |]. intros e1.
  apply logsLine_after; [intros; apply valueLogLine_invariant; assumption | apply silent_call |]. intros _.
  apply logsLine_after; [intros; apply valueLogLine_invariant; assumption | apply silent_getElement |]. intros e2.
  apply logsLine_after; [intros; apply valueLogLine_invariant; assumption | apply silent_call |]. intros _.
  apply logsLine_after; [intros; apply valueLogLine_invariant; assumption | apply silent_pressIfAsked |]. intros _.
  apply (logsLine_log (fun h => valueLogLine " - set the value: " (objectDescriptor h) v)).
  apply mute_clearFullCssAndXpath.
Qed.

Lemma type_logsLine v options :
  logsLine (fun h => valueLogLine " - typed the value: " (objectDescriptor h) v)
    (type env v options).
Proof.
  unfold type.
  apply logsLine_after; [intros; apply valueLogLine_invariant; assumption | apply silent_getElement |]. intros e1.
  apply logsLine_after; [intros; apply valueLogLine_invariant; assumption | apply silent_call |]. intros _.
  apply logsLine_after; [intros; apply valueLogLine_invariant; assumption | apply silent_pressIfAsked |]. intros _.
  apply (logsLine_log (fun h => valueLogLine " - typed the value: " (objectDescriptor h) v)).
  apply mute_clearFullCssAndXPath.
Qed.

Lemma pressSequentially_logsLine v options :
  logsLine (fun h => valueLogLine " - pressed sequentially: " (objectDescriptor h) v)
    (pressSequentially env v options).
Proof.
  unfold pressSequentially.
  apply logsLine_after; [intros; apply valueLogLine_invariant; assumption | apply silent_getElement |]. intros e1.
  apply logsLine_after; [intros; apply valueLogLine_invariant; assumption | apply silent_call |]. intros _.
  apply logsLine_after; [intros; apply valueLogLine_invariant; assumption | apply silent_pressIfAsked |]. intros _.
  apply (logsLine_log (fun h => valueLogLine " - pressed sequentially: " (objectDescriptor h) v)).
  apply mute_clearFullCssAndXPath.
Qed.

End ValueLog.

Lemma prefix_nil s : String.prefix "" s = true.
Proof. destruct s; reflexivity. Qed.

Lemma prefix_cons c w d s :
  String.prefix (String c w) (String d s) =
  if ascii_dec c d then String.prefix w s else false.
Proof. cbn. destruct (ascii_dec c d); reflexivity. Qed.

Lemma prefix_toLowerCase w s :
  String.prefix w s = true -> String.prefix (toLowerCase w) (toLowerCase s) = true.
Proof.
  revert s. induction w as [| c w IH]; intros s H; cbn [toLowerCase].
  - apply prefix_nil.
  - destruct s as [| d s]; [discriminate H |].
    cbn [toLowerCase]. rewrite prefix_cons in H |- *.
    destruct (ascii_dec c d) as [-> | N]; [| discriminate].
    destruct (ascii_dec (lowerChar d) (lowerChar d)) as [_ | N]; [| congruence].
    apply IH. exact H.
Qed.

Lemma includes_toLowerCase s w :
  includes s w = true -> includes (toLowerCase s) (toLowerCase w) = true.
Proof.
  induction s as [| c s IH]; cbn [includes toLowerCase]; intros H.
  - rewrite orb_false_r in H |- *. apply (prefix_toLowerCase w ""). exact H.
  - apply orb_true_iff in H as [H | H]; apply orb_true_iff.
    + left. apply (prefix_toLowerCase w (String c s)). exact H.
    + right. apply IH. exact H.
Qed.

Lemma prefix_append w s t :
  String.prefix w s = true -> String.prefix w (s ++ t) = true.
Proof.
  revert s. induction w as [| c w IH]; intros s H.
  - apply prefix_nil.
  - destruct s as [| d s]; [discriminate H |].
    cbn [append]. rewrite prefix_cons in H |- *.
    destruct (ascii_dec c d); [apply IH; exact H | discriminate].
Qed.

Lemma prefix_refl s : String.prefix s s = true.
Proof.
  induction s as [| c s IH]; [reflexivity |].
  rewrite prefix_cons. destruct (ascii_dec c c); [exact IH | congruence].
Qed.

Lemma includes_refl s : includes s s = true.
Proof. destruct s; cbn [includes]; rewrite prefix_refl; reflexivity. Qed.

(** A string contains what a front part of it contains. *)
Lemma includes_append_r s t sub :
  includes s sub = true -> includes (s ++ t) sub = true.
Proof.
  induction s as [| c s IH]; cbn [includes append]; intros H.
  - rewrite orb_false_r in H.
    destruct sub as [| d sub]; [| discriminate H].
    destruct t; reflexivity.
  - apply orb_true_iff in H as [H | H].
    + assert (P : String.prefix sub (String c s ++ t) = true)
        by (apply prefix_append; exact H).
      cbn [append] in P. rewrite P. reflexivity.
    + rewrite (IH H). apply orb_true_r.
Qed.

(** A string contains what a back part of it contains. *)
Lemma includes_append_l s t sub :
  includes t sub = true -> includes (s ++ t) sub = true.
Proof.
  intros H. induction s as [| c s IH]; cbn [includes append]; [exact H |].
  rewrite IH. apply orb_true_r.
Qed.

Lemma toLowerCase_append s t : toLowerCase (s ++ t) = (toLowerCase s ++ toLowerCase t)%string.
Proof. induction s as [| c s IH]; cbn; [reflexivity | rewrite IH; reflexivity]. Qed.

Lemma maskedValue_masked desc v :
  includes (toLowerCase desc) "password" = true -> maskedValue desc v = "******".
Proof. unfold maskedValue. intros ->. reflexivity. Qed.

Lemma maskedValue_plain desc v :
  includes (toLowerCase desc) "password" = false -> maskedValue desc v = v.
Proof. unfold maskedValue. intros ->. reflexivity. Qed.

Lemma masked_line_mentions_password label desc v :
  includes (toLowerCase desc) "password" = true ->
  includes (toLowerCase (valueLogLine label desc v)) "password" = true.
Proof.
  intros H. unfold valueLogLine. rewrite toLowerCase_append.
  apply includes_append_r. exact H.
Qed.

Lemma logsLine_masks {O : Type} (label : string)
    (action : Env -> string -> option O -> M unit) :
  (forall env v options,
     logsLine (fun h => valueLogLine label (objectDescriptor h) v) (action env v options)) ->
  MasksPasswords label action.
Proof.
  intros L env v options st r st' new H A desc.
  destruct (L env v options st r st' H) as (new' & A' & HL & HC & HO).
  rewrite (appended_unique _ _ _ _ A A'). clear A new.
  cbn beta in HL, HC, HO. fold desc in HL, HC, HO. unfold valueLogLine in HL, HC, HO.
  split; intros E.
  - rewrite (maskedValue_masked _ v E) in HL, HC, HO. repeat split.
    + exact HL.
    + destruct HC as [HC | [_ HC]]; [exact HC |].
      pose proof (masked_line_mentions_password label desc v E) as P.
      unfold valueLogLine in P. rewrite (maskedValue_masked _ v E) in P. congruence.
    + intros ->. eapply HO. reflexivity.
  - rewrite (maskedValue_plain _ v E) in HL, HC, HO. repeat split.
    + exact HL.
    + intros ->. eapply HO. reflexivity.
    + apply includes_append_l, includes_append_l, includes_refl.
Qed.

Lemma masks_agree {O : Type} (label : string)
    (action : Env -> string -> option O -> M unit) :
  MasksPasswords label action -> MaskedRunsAgree action.
Proof.
  intros Mk env1 env2 v1 v2 options st r1 st1 new1 r2 st2 new2 H1 A1 H2 A2 E N1 N2.
  destruct (proj1 (Mk env1 v1 options st r1 st1 new1 H1 A1) E) as ([L1 | L1] & C1 & _);
    [contradiction |].
  destruct (proj1 (Mk env2 v2 options st r2 st2 new2 H2 A2) E) as ([L2 | L2] & C2 & _);
    [contradiction |].
  split; congruence.
Qed.

(** ** C9: existence checks *)

Section Existence.

Variable env : Env.

Lemma existsReply_page ev : isPageEvent ev = true -> existsReply ev = None.
Proof. destruct ev as [T q r | |]; cbn; [destruct q; cbn |..]; congruence. Qed.

(** A run of [isExist]: page events, then at most one existence check, made
    with the base locator, whose answer is the result. *)
Lemma isExist_run st r st' :
  isExist env st = (r, st') ->
  exists pre, Forall (fun ev => isPageEvent ev = true) pre /\
    ((appended st st' pre /\ exists e, r = Throw e) \/
     (exists p, appended st st' (EvCall (QuerySelector p (locator (this st))) r :: pre))).
Proof.
  intros H. unfold isExist in H.
  bind_step H.
  2:{ apply getPage_spec in H as (n0 & A0 & F0 & _). exists n0. split; [exact F0 |].
      left. split; [exact A0 | eauto]. }
  apply getPage_spec in Ha as (n0 & A0 & F0 & S0).
  assert (Q0 : quiet st s n0) by (repeat split; assumption).
  bind_step H.
  2:{ apply thisPage_inv in H as [-> _]. exists n0. split; [exact F0 |].
      left. split; [exact A0 | eauto]. }
  apply thisPage_inv in Ha as [-> _].
  bind_step H.
  2:{ apply quiet_call in H as [Q1 _]; [| reflexivity].
      destruct (quiet_trans _ _ _ _ _ Q0 Q1) as (A1 & F1 & _).
      eexists. split; [exact F1 |]. left. split; [exact A1 | eauto]. }
  apply quiet_call in Ha as [Q1 _]; [| reflexivity].
  pose proof (quiet_trans _ _ _ _ _ Q0 Q1) as Q01.
  bind_step H.
  2:{ apply quiet_call in H as [Q2 _]; [| reflexivity].
      destruct (quiet_trans _ _ _ _ _ Q01 Q2) as (A1 & F1 & _).
      eexists. split; [exact F1 |]. left. split; [exact A1 | eauto]. }
  apply quiet_call in Ha as [Q2 _]; [| reflexivity].
  pose proof (quiet_trans _ _ _ _ _ Q01 Q2) as Q02.
  bind_step H.
  2:{ apply quiet_call in H as [Q3 _]; [| reflexivity].
      destruct (quiet_trans _ _ _ _ _ Q02 Q3) as (A1 & F1 & _).
      eexists. split; [exact F1 |]. left. split; [exact A1 | eauto]. }
  apply quiet_call in Ha as [Q3 _]; [| reflexivity].
  pose proof (quiet_trans _ _ _ _ _ Q02 Q3) as Q03.
  destruct (quiet_fields _ _ _ Q03) as (El & _).
  destruct Q03 as (A3 & F3 & _).
  bind_step H; [| rewrite clearFullCssAndXPath_run in H; discriminate].
  rewrite clearFullCssAndXPath_run in Ha. inversion Ha; subst; clear Ha.
  bind_step H.
  2:{ apply thisPage_inv in H as [-> _]. eexists. split; [exact F3 |].
      left. split; [exact A3 | eauto]. }
  apply thisPage_inv in Ha as [-> _].
  rewrite bind_Ok with (1 := getLocator_run _) in H.
  eexists. split; [exact F3 |]. right. exists a4.
  unfold appended in *. rewrite <- El.
  bind_step H.
  - apply call_inv in Ha as [E ->]. unfold ret in H. inversion H; subst; clear H.
    cbn. rewrite A3. reflexivity.
  - apply call_inv in H as [E ->]. subst r. cbn. rewrite A3. reflexivity.
Qed.

(** [isExist] answers false, without a throw, when the check finds no
    element. *)
Lemma isExist_zero_matches st r st' new :
  isExist env st = (r, st') ->
  appended st st' new ->
  existsReplies new = [false] ->
  r = Ok false.
Proof.
  intros H A D.
  destruct (isExist_run _ _ _ H) as (pre & F & [(A' & _) | (p & A')]);
    rewrite (appended_unique _ _ _ _ A A') in D; unfold existsReplies in D.
  - rewrite (page_event_silent existsReply pre existsReply_page F) in D. discriminate.
  - rewrite collect_cons, (page_event_silent existsReply pre existsReply_page F) in D.
    cbn in D. destruct r as [b |]; [| discriminate]. congruence.
Qed.

(** X23. [getRowsLength] returns 0, and makes no call on an element, when
    its existence check finds no element. *)
Lemma getRowsLength_absent_root options st r st' new :
  getRowsLength env options st = (r, st') ->
  appended st st' new ->
  existsReplies new = [false] ->
  r = Ok 0%nat /\ filter isElementCall new = [].
Proof.
  intros H A D. unfold getRowsLength in H. unfold existsReplies in D.
  bind_step H.
  - destruct (isExist_run _ _ _ Ha) as (pre & F & [(_ & e & He) | (p & A1)]);
      [discriminate |].
    assert (Dpre : collect existsReply pre = [])
      by (apply page_event_silent; [exact existsReply_page | exact F]).
    destruct a.
    + exfalso.
      assert (X : exists more, appended s st' more /\ collect existsReply more = []).
      { bind_step H.
        - bind_step Ha0; [| discriminate].
          apply getElement_spec in Ha0a as (n2 & (A2 & F2 & _) & _).
          apply call_inv in Ha0 as [_ ->].
          bind_step H; [| rewrite clearFullCssAndXPath_run in H; discriminate].
          rewrite clearFullCssAndXPath_run in Ha0. inversion Ha0; subst; clear Ha0.
          unfold ret in H. inversion H; subst; clear H.
          eexists (_ :: n2). split.
          + unfold appended in *. cbn. rewrite A2. reflexivity.
          + rewrite collect_cons.
            rewrite (page_event_silent existsReply n2 existsReply_page F2). reflexivity.
        - bind_step H.
          + apply getElement_spec in Ha0 as (n2 & (A2 & F2 & _) & _).
            apply call_inv in H as [_ ->].
            eexists (_ :: n2). split.
            * unfold appended in *. cbn. rewrite A2. reflexivity.
            * rewrite collect_cons.
              rewrite (page_event_silent existsReply n2 existsReply_page F2). reflexivity.
          + apply getElement_spec in H as (n2 & (A2 & F2 & _) & _).
            exists n2. split; [exact A2 |].
            apply (page_event_silent existsReply n2 existsReply_page F2). }
      destruct X as (more & A2 & D2).
      pose proof (appended_trans _ _ _ _ _ A1 A2) as A3.
      rewrite (appended_unique _ _ _ _ A A3) in D.
      rewrite collect_app, collect_cons, Dpre, D2 in D. cbn in D. discriminate.
    + bind_step H; [| discriminate].
      unfold ret in Ha0. inversion Ha0; subst; clear Ha0.
      rewrite bind_Ok with (1 := clearFullCssAndXPath_run _) in H.
      unfold ret in H. inversion H; subst; clear H.
      split; [reflexivity |].
      unfold appended in A, A1. cbn in A. rewrite A1 in A.
      apply (app_inv_tail (trace st) (_ :: pre) new) in A. subst new. cbn.
      apply filter_page_event; [exact isElementCall_page | exact F].
  - exfalso.
    destruct (isExist_run _ _ _ H) as (pre & F & [(A1 & _) | (p & A1)]);
      rewrite (appended_unique _ _ _ _ A A1) in D.
    + rewrite (page_event_silent existsReply pre existsReply_page F) in D. discriminate.
    + rewrite collect_cons, (page_event_silent existsReply pre existsReply_page F) in D.
      subst r. cbn in D. discriminate.
Qed.

End Existence.

(** C9. Where a selector matches nothing, [isExist] returns false and
    [getRowsLength] returns 0 without asking for a count. [getCount] does
    obtain the count 0 from the engine, but then calls
    [this.clearFullCssAndXpath], which the class does not declare, and ends
    in a TypeError instead of returning 0; it does so on every page. *)
Theorem getCount_throws_instead_of_returning_zero :
  fst (isExist nothingThere items) = Ok false /\
  fst (getRowsLength nothingThere None items) = Ok 0%nat /\
  fst (getCount nothingThere items) = Throw (notAFunction "clearFullCssAndXpath") /\
  hd_error (trace (snd (getCount nothingThere items)))
    = Some (EvCall (Count (PageLocator 0%nat "ul > li")) (Ok 0%nat)) /\
  (forall env st, exists e st', getCount env st = (Throw e, st')).
Proof.
  do 4 (split; [vm_compute; reflexivity |]).
  intros env st. destruct (getCount_leaves_narrowing env st) as (e & st' & H & _).
  exists e, st'. exact H.
Qed.

(** ** C7: [getAllObjects] *)

Section FanOut.

Variable env : Env.

(** With the buffer unset, pushing leaves the handle as it is: nothing
    happens for an empty result, the first push throws otherwise. *)
Lemma pushTempLocators_unset arrayLocators st r st' :
  tempLocators (this st) = None ->
  pushTempLocators arrayLocators st = (r, st') ->
  st' = st.
Proof.
  intros N H. unfold pushTempLocators in H.
  destruct arrayLocators as [| loc rest]; cbn in H.
  - inversion H; reflexivity.
  - unfold bind, getThis in H. rewrite N in H. cbn in H. inversion H; reflexivity.
Qed.

(** A handle whose buffer is unset, as the constructor leaves it, never
    gets a result from [getAllObjects]. *)
Lemma getAllObjects_unset_buffer options st :
  tempLocators (this st) = None ->
  exists e st', getAllObjects env options st = (Throw e, st').
Proof.
  intros N.
  destruct (getAllObjects env options st) as [r st'] eqn:H.
  assert (X : exists e, r = Throw e); [| destruct X as (e & ->); eauto].
  unfold getAllObjects in H.
  bind_step H; [| eauto].
  assert (N' : tempLocators (this s) = None).
  { destruct (optField go_hasText options) as [txt |].
    - bind_step Ha; [| discriminate].
      apply getElement_spec in Haa as (n1 & Q1 & _).
      destruct (quiet_fields _ _ _ Q1) as (_ & _ & _ & _ & Et).
      bind_step Ha; [| inversion Ha]. inversion Haa; subst; clear Haa.
      bind_step Ha; [| discriminate].
      apply call_inv in Haa as [_ ->].
      apply pushTempLocators_unset in Ha; [| cbn; congruence].
      subst s. cbn. congruence.
    - bind_step Ha; [| discriminate].
      apply getElement_spec in Haa as (n1 & Q1 & _).
      destruct (quiet_fields _ _ _ Q1) as (_ & _ & _ & _ & Et).
      bind_step Ha; [| discriminate].
      apply thisPage_inv in Haa as [-> _].
      bind_step Ha; [| inversion Ha]. inversion Haa; subst; clear Haa.
      bind_step Ha; [| discriminate].
      apply call_inv in Haa as [_ ->].
      apply pushTempLocators_unset in Ha; [| cbn; congruence].
      subst s. cbn. congruence. }
  unfold bind, getThis in H. rewrite N' in H. cbn in H. inversion H; eauto.
Qed.

Lemma numberToString_inj z z' : numberToString z = numberToString z' -> z = z'.
Proof.
  unfold numberToString. intros H. apply DecimalZ.to_int_inj.
  assert (E : Some (Z.to_int z) = Some (Z.to_int z'))
    by (rewrite <- !NilEmpty.isi; rewrite H; reflexivity).
  congruence.
Qed.

Lemma append_inj_l (a b c : string) : (a ++ b = a ++ c)%string -> b = c.
Proof.
  induction a as [| x a IH]; cbn; intros H; [exact H |].
  inversion H. apply IH. assumption.
Qed.

Lemma append_inj_r (b c : string) (x : ascii) :
  (b ++ String x "" = c ++ String x "")%string -> b = c.
Proof.
  revert c. induction b as [| y b IH]; intros [| z c] H; cbn in H.
  - reflexivity.
  - inversion H. destruct c; discriminate.
  - inversion H. destruct b; discriminate.
  - inversion H. f_equal. apply IH. assumption.
Qed.

Lemma indexedDescriptor_inj desc i j :
  indexedDescriptor desc i = indexedDescriptor desc j -> i = j.
Proof.
  unfold indexedDescriptor. intros H.
  apply append_inj_l in H. apply (append_inj_l " [") in H.
  apply append_inj_r in H. apply numberToString_inj. exact H.
Qed.

Lemma indexedFrom_indices {A : Type} (l : list A) k :
  map snd (indexedFrom k l) = map (fun n => k + Z.of_nat n) (seq 0 (List.length l)).
Proof.
  revert k. induction l as [| x l IH]; intros k; cbn [indexedFrom map List.length seq].
  - reflexivity.
  - f_equal; [cbn; lia |].
    rewrite IH, <- seq_shift, map_map. apply map_ext. intros n. lia.
Qed.

Lemma indexedFrom_NoDup {A : Type} (l : list A) k : NoDup (map snd (indexedFrom k l)).
Proof.
  rewrite indexedFrom_indices. apply Injective_map_NoDup; [| apply seq_NoDup].
  intros a b H. lia.
Qed.

(** The handles built from a buffer: one per entry, in order, each fresh
    and with the index of its entry in its descriptor. *)
Lemma mapM_newUiElement (buf : list Locator) :
  forall k st hs st',
    mapM (fun li : Locator * Z =>
            let (loc, index) := li in
            bind (call env (CssPath loc)) (fun cssLocator =>
            bind getThis (fun h' =>
            ret (newUiElement cssLocator
                   (objectDescriptor h' ++ " [" ++ numberToString index ++ "]")))))
         (indexedFrom k buf) st = (Ok hs, st') ->
    this st' = this st /\
    map objectDescriptor hs =
      map (indexedDescriptor (objectDescriptor (this st))) (map snd (indexedFrom k buf)) /\
    Forall freshHandle hs.
Proof.
  induction buf as [| loc buf IH]; intros k st hs st' H; cbn in H.
  - unfold ret in H. inversion H; subst. repeat split. constructor.
  - bind_step H; [| discriminate].
    bind_step Ha; [| discriminate].
    apply call_inv in Haa as [_ ->].
    bind_step Ha; [| inversion Ha]. inversion Haa; subst; clear Haa.
    unfold ret in Ha. inversion Ha; subst; clear Ha.
    bind_step H; [| discriminate].
    apply IH in Ha as (Et & Ed & Ff).
    unfold ret in H. inversion H; subst; clear H.
    cbn in Et. split; [exact Et |]. split.
    + cbn [map snd]. rewrite Ed. reflexivity.
    + constructor; [| exact Ff]. repeat split.
Qed.

Lemma pushTempLocators_set arrayLocators :
  forall old st r st',
    tempLocators (this st) = Some old ->
    pushTempLocators arrayLocators st = (r, st') ->
    r = Ok tt /\ trace st' = trace st /\
    this st' = set_tempLocators (Some (old ++ arrayLocators)%list) (this st).
Proof.
  unfold pushTempLocators.
  induction arrayLocators as [| loc rest IH]; intros old st r st' N H; cbn in H.
  - unfold ret in H. inversion H; subst. rewrite app_nil_r. repeat split.
    rewrite <- N. destruct (this st'); reflexivity.
  - unfold bind at 1 in H. unfold bind at 1, getThis at 1 in H. rewrite N in H.
    cbn [modifyThis] in H.
    apply (IH (old ++ [loc])%list) in H; [| reflexivity].
    destruct H as (-> & Et & Eh). cbn in Et, Eh.
    repeat split; auto. rewrite Eh, <- app_assoc. reflexivity.
Qed.

(** X21. With a buffer, [getAllObjects] appends the matches of this call
    to it and returns one fresh handle per entry of the whole buffer, the
    index of the entry in the descriptor: as many handles as all calls so
    far found matches, not as many as this call found. The descriptors are
    pairwise different. *)
Lemma getAllObjects_returns_whole_buffer options st old hs st' :
  tempLocators (this st) = Some old ->
  getAllObjects env options st = (Ok hs, st') ->
  exists found,
    tempLocators (this st') = Some (old ++ found)%list /\
    List.length hs = (List.length old + List.length found)%nat /\
    map objectDescriptor hs =
      map (indexedDescriptor (objectDescriptor (this st)))
          (map snd (indexedFrom 0 (old ++ found)%list)) /\
    NoDup (map objectDescriptor hs) /\
    Forall freshHandle hs.
Proof.
  intros N H. unfold getAllObjects in H.
  bind_step H; [| discriminate].
  assert (X : exists found,
             this s = set_page (page (this s))
                        (set_tempLocators (Some (old ++ found)%list) (this st))).
  { destruct (optField go_hasText options) as [txt |].
    - bind_step Ha; [| discriminate].
      apply getElement_spec in Haa as (n1 & (_ & _ & S1) & _).
      bind_step Ha; [| inversion Ha]. inversion Haa; subst; clear Haa.
      bind_step Ha; [| discriminate].
      apply call_inv in Haa as [_ ->]. eexists.
      apply (pushTempLocators_set _ old) in Ha as (_ & _ & Eh);
        [| cbn; rewrite S1; exact N].
      rewrite Eh. cbn. rewrite S1. reflexivity.
    - bind_step Ha; [| discriminate].
      apply getElement_spec in Haa as (n1 & (_ & _ & S1) & _).
      bind_step Ha; [| discriminate].
      apply thisPage_inv in Haa as [-> _].
      bind_step Ha; [| inversion Ha]. inversion Haa; subst; clear Haa.
      bind_step Ha; [| discriminate].
      apply call_inv in Haa as [_ ->]. eexists.
      apply (pushTempLocators_set _ old) in Ha as (_ & _ & Eh);
        [| cbn; rewrite S1; exact N].
      rewrite Eh. cbn. rewrite S1. reflexivity. }
  destruct X as (found & Es). exists found.
  bind_step H; [| inversion H]. inversion Ha0; subst; clear Ha0.
  rewrite Es in H. cbn [tempLocators set_page set_tempLocators] in H.
  apply mapM_newUiElement in H as (Et & Ed & Ff).
  assert (Edesc : objectDescriptor (this s0) = objectDescriptor (this st))
    by (rewrite Es; reflexivity).
  rewrite Edesc in Ed.
  split; [rewrite Et, Es; reflexivity |]. split; [| split; [exact Ed | split; [| exact Ff]]].
  - rewrite <- (length_map objectDescriptor), Ed, !length_map.
    rewrite <- (length_map snd), indexedFrom_indices, length_map, length_seq.
    apply length_app.
  - rewrite Ed. apply Injective_map_NoDup; [| apply indexedFrom_NoDup].
    intros i j. apply indexedDescriptor_inj.
Qed.

End FanOut.

(** C7. A handle as the constructor builds it has no buffer of locators:
    [getAllObjects] on a four-match scope throws when it pushes the first
    match, and returns nothing, for every freshly constructed handle and
    every page. With the buffer initialised to an empty array the first
    call returns four handles with descriptors [0] to [3] and their own CSS
    locators; the buffer is kept, so the second call on the same handle
    returns eight handles, the four matches twice, with descriptors [0]
    to [7]. *)
Theorem getAllObjects_needs_and_keeps_its_buffer :
  fst (getAllObjects fourItems None items) = Throw (undefinedProperty "push") /\
  (forall env options loc copts pp tr, exists e st',
      getAllObjects env options (mkState (constructor loc copts) pp tr) = (Throw e, st')) /\
  (let first := getAllObjects fourItems None bufferedItems in
   let second := getAllObjects fourItems None (snd first) in
   (exists handles, fst first = Ok handles /\
      map objectDescriptor handles =
        ["menu item [0]"; "menu item [1]"; "menu item [2]"; "menu item [3]"] /\
      map locator handles =
        ["ul > li:nth-child(1)"; "ul > li:nth-child(2)";
         "ul > li:nth-child(3)"; "ul > li:nth-child(4)"] /\
      map fullCss handles = map locator handles) /\
   (exists handles, fst second = Ok handles /\
      List.length handles = 8%nat /\
      map objectDescriptor handles =
        ["menu item [0]"; "menu item [1]"; "menu item [2]"; "menu item [3]";
         "menu item [4]"; "menu item [5]"; "menu item [6]"; "menu item [7]"] /\
      map locator handles =
        ["ul > li:nth-child(1)"; "ul > li:nth-child(2)";
         "ul > li:nth-child(3)"; "ul > li:nth-child(4)";
         "ul > li:nth-child(1)"; "ul > li:nth-child(2)";
         "ul > li:nth-child(3)"; "ul > li:nth-child(4)"])).
Proof.
  split; [vm_compute; reflexivity |]. split.
  - intros env options loc copts pp tr. apply getAllObjects_unset_buffer. reflexivity.
  - split; eexists; (split; [vm_compute; reflexivity |]);
      repeat split; vm_compute; reflexivity.
Qed.

(** ** [replaceAll] *)

Lemma splitFrom_not_nil sep s : forall skip, splitFrom sep skip s <> [].
Proof.
  induction s as [| c s IH]; intros skip; cbn [splitFrom]; [discriminate |].
  destruct skip as [| k]; [| apply IH].
  destruct (String.prefix sep (String c s)); [discriminate |].
  destruct (splitFrom sep 0 s); discriminate.
Qed.

Lemma append_empty_r s : (s ++ "")%string = s.
Proof. induction s as [| c s IH]; cbn; [reflexivity | rewrite IH; reflexivity]. Qed.

Lemma join_empty_cons h t : join "" (h :: t) = (h ++ join "" t)%string.
Proof.
  unfold join. destruct t as [| x t]; cbn [String.concat].
  - rewrite append_empty_r. reflexivity.
  - reflexivity.
Qed.

Lemma join_splitFrom_character c s :
  join "" (splitFrom (String c "") 0 s) = without c s.
Proof.
  induction s as [| d s IH]; [reflexivity |].
  cbn [splitFrom without]. rewrite prefix_cons, prefix_nil. cbn [String.length Nat.sub].
  destruct (ascii_dec c d) as [-> | N].
  - rewrite Ascii.eqb_refl, join_empty_cons. exact IH.
  - assert (E : Ascii.eqb d c = false) by (apply Ascii.eqb_neq; congruence).
    rewrite E. pose proof (splitFrom_not_nil (String c "") s 0%nat) as NN.
    destruct (splitFrom (String c "") 0 s) as [| h t]; [congruence |].
    rewrite join_empty_cons in IH |- *. cbn [append]. rewrite IH. reflexivity.
Qed.

Lemma includes_without c s : includes (without c s) (String c "") = false.
Proof.
  induction s as [| d s IH]; [reflexivity |].
  cbn [without]. destruct (Ascii.eqb d c) eqn:E; [exact IH |].
  cbn [includes]. rewrite prefix_cons, IH.
  destruct (ascii_dec c d) as [-> | N]; [rewrite Ascii.eqb_refl in E; discriminate |].
  reflexivity.
Qed.

Lemma without_absent c s : includes s (String c "") = false -> without c s = s.
Proof.
  induction s as [| d s IH]; intros H; [reflexivity |].
  cbn [includes] in H. rewrite prefix_cons, prefix_nil in H.
  apply orb_false_iff in H. destruct H as [H1 H2].
  cbn [without]. destruct (ascii_dec c d) as [-> | N]; [discriminate |].
  assert (E : Ascii.eqb d c = false) by (apply Ascii.eqb_neq; congruence).
  rewrite E, (IH H2). reflexivity.
Qed.

Lemma join_characters s :
  join "" (map (fun c => String c EmptyString) (list_ascii_of_string s)) = s.
Proof.
  induction s as [| c s IH]; [reflexivity |].
  cbn [list_ascii_of_string map]. rewrite join_empty_cons, IH. reflexivity.
Qed.

(** X1. [replaceAll] with a one-character separator returns the value with
    every occurrence of that character left out and the other characters in
    their order, so the result no longer contains the character; with the
    empty separator it returns the value as it is. *)
Theorem replaceAll_removes_the_character :
  (forall val c, replaceAll val (String c "") = without c val) /\
  (forall val c, includes (replaceAll val (String c "")) (String c "") = false) /\
  (forall val, replaceAll val "" = val).
Proof.
  assert (R : forall val c, replaceAll val (String c "") = without c val).
  { intros val c. unfold replaceAll.
    destruct (includes val (String c "")) eqn:E.
    - apply join_splitFrom_character.
    - symmetry. apply without_absent. exact E. }
  split; [exact R |]. split.
  - intros val c. rewrite R. apply includes_without.
  - intros val. unfold replaceAll.
    destruct (includes val ""); [| reflexivity]. apply join_characters.
Qed.

(** ** [getIndex] and the search loop of [getMetaTableMatchedRowIndices] *)

Lemma FirstMatch_ext {A : Type} (p q : A -> bool) (l : list A) k :
  (forall x, p x = q x) -> FirstMatch p l k -> FirstMatch q l k.
Proof.
  intros E [(K & N) | (n & x & K & Hn & Px & B)].
  - left. split; [exact K |]. intros x Hx. rewrite <- E. apply N. exact Hx.
  - right. exists n, x. split; [exact K |]. split; [exact Hn |].
    split; [rewrite <- E; exact Px |].
    intros j y Hj Hy. rewrite <- E. exact (B j y Hj Hy).
Qed.

(** X2. [getIndex] returns the position of the first row of the source
    array in which every expected value is matched by at least one cell
    (trimmed, letter case ignored; equality when exact, containment
    otherwise), and [-1] exactly when no row is such a row. *)
Theorem getIndex_first_matching_row :
  forall sourceArray expectedValues exactMatch,
    FirstMatch (spec_rowMatches exactMatch expectedValues) sourceArray
      (getIndex sourceArray expectedValues exactMatch).
Proof.
  intros src vals exact. unfold getIndex.
  pose proof (findIndex_FirstMatch (getIndex_callback exact vals) src) as F.
  apply (FirstMatch_ext (getIndex_callback exact vals)); [apply getIndex_callback_spec |].
  destruct (findIndex (getIndex_callback exact vals) src >=? 0) eqn:E; [exact F |].
  destruct F as [(K & N) | (n & x & K & _)]; [left; split; [reflexivity | exact N] |].
  rewrite K in E. lia.
Qed.

Lemma positionsFrom_length {A : Type} (p : A -> bool) (l : list A) :
  forall k, (List.length (positionsFrom k p l) <= List.length l)%nat.
Proof.
  induction l as [| x l IH]; intros k; cbn [positionsFrom List.length]; [lia |].
  destruct (p x); cbn [List.length]; specialize (IH (k + 1)); lia.
Qed.

Lemma positionsFrom_no_match {A : Type} (p : A -> bool) (l : list A) :
  forall k, findIndex p l = -1 -> positionsFrom k p l = [].
Proof.
  unfold findIndex. induction l as [| x l IH]; intros k H; [reflexivity |].
  cbn [findIndexFrom positionsFrom] in *. destruct (p x); [discriminate |].
  apply IH. destruct (findIndexFrom_range p l (0 + 1)) as [R | R]; [| lia].
  rewrite findIndexFrom_shift in R by lia.
  destruct (findIndexFrom 0 p l <? 0) eqn:E; [| lia].
  destruct (findIndexFrom_range p l 0) as [R0 | R0]; [exact R0 | lia].
Qed.

(** Blanking the first match leaves the later matches where they are. *)
Lemma positionsFrom_blank_first {A : Type} (p : A -> bool) (blank : A) (l : list A) :
  p blank = false ->
  forall k, 0 <= findIndex p l ->
    positionsFrom k p l =
    (k + findIndex p l) :: positionsFrom k p (assignAt (Z.to_nat (findIndex p l)) blank l).
Proof.
  intros Pb. unfold findIndex. induction l as [| x l IH]; intros k H.
  - cbn in H. lia.
  - cbn [findIndexFrom positionsFrom] in *. destruct (p x) eqn:Px.
    + cbn [Z.to_nat assignAt positionsFrom]. rewrite Pb. f_equal. lia.
    + rewrite findIndexFrom_shift in H |- * by lia.
      destruct (findIndexFrom 0 p l <? 0) eqn:E; [lia |].
      assert (P0 : 0 <= findIndexFrom 0 p l) by lia.
      replace (Z.to_nat (findIndexFrom 0 p l + (0 + 1)))
        with (S (Z.to_nat (findIndexFrom 0 p l))) by lia.
      cbn [assignAt positionsFrom]. rewrite Px.
      rewrite (IH (k + 1) P0). f_equal. lia.
Qed.

Lemma searchMetaRows_positions exact rowValues :
  getIndex_callback exact rowValues [] = false ->
  forall n arr found,
    (List.length (positionsFrom 0 (getIndex_callback exact rowValues) arr) <= n)%nat ->
    searchMetaRows exact rowValues n arr found =
    (found ++ positionsFrom 0 (getIndex_callback exact rowValues) arr)%list.
Proof.
  intros Pb. induction n as [| n IH]; intros arr found L.
  - cbn [searchMetaRows].
    destruct (positionsFrom 0 (getIndex_callback exact rowValues) arr);
      [rewrite app_nil_r; reflexivity | cbn in L; lia].
  - cbn [searchMetaRows].
    destruct (findIndex (getIndex_callback exact rowValues) arr >=? 0) eqn:E.
    + assert (P0 : 0 <= findIndex (getIndex_callback exact rowValues) arr) by lia.
      pose proof (positionsFrom_blank_first _ [] arr Pb 0 P0) as B.
      rewrite B in L |- *. cbn [List.length] in L.
      rewrite IH by lia. rewrite <- app_assoc. reflexivity.
    + assert (N : findIndex (getIndex_callback exact rowValues) arr = -1).
      { destruct (findIndex_FirstMatch (getIndex_callback exact rowValues) arr)
          as [(K & _) | (m & x & K & _)]; [exact K | lia]. }
      pose proof (positionsFrom_no_match _ arr 0 N) as Z0.
      rewrite IH by (rewrite Z0; cbn; lia). reflexivity.
Qed.

(** X3. The search loop of [getMetaTableMatchedRowIndices], given at least
    one value to look for, returns the positions of all the kept rows in
    which every value is matched by some cell, each position once and in
    ascending order: a row that was found is blanked and cannot be found
    again, and the loop runs once per kept row, which is enough rounds to
    find them all. *)
Theorem getMetaTableMatchedRowIndices_search_finds_every_row :
  forall exactMatch rowValues arr,
    rowValues <> [] ->
    searchMetaRows exactMatch rowValues (List.length arr) arr [] =
    positionsFrom 0 (spec_rowMatches exactMatch rowValues) arr.
Proof.
  intros exact vals arr NE.
  rewrite searchMetaRows_positions.
  - cbn [app]. apply positionsFrom_ext. apply getIndex_callback_spec.
  - destruct vals as [| v vals]; [congruence |]. cbn. destruct exact; reflexivity.
  - apply positionsFrom_length.
Qed.

Lemma getMetaTableMatchedRowIndices_search_finds_every_row_witness :
  searchMetaRows false ["30"] 3 [["Name"; "Age"]; ["Alice"; "30"]; ["Bob"; "30"]] [] =
  positionsFrom 0 (spec_rowMatches false ["30"])
    [["Name"; "Age"]; ["Alice"; "30"]; ["Bob"; "30"]].
Proof.
  apply (getMetaTableMatchedRowIndices_search_finds_every_row false ["30"]
           [["Name"; "Age"]; ["Alice"; "30"]; ["Bob"; "30"]]).
  discriminate.
Defined.

Lemma searchMetaRows_no_values exact :
  forall n arr found,
    (arr <> [] \/ n = 0%nat) ->
    searchMetaRows exact [] n arr found = (found ++ repeat 0 n)%list.
Proof.
  induction n as [| n IH]; intros arr found H.
  - cbn. rewrite app_nil_r. reflexivity.
  - destruct H as [H | H]; [| discriminate].
    destruct arr as [| x arr]; [congruence |].
    cbn [searchMetaRows]. unfold findIndex. cbn [findIndexFrom getIndex_callback].
    cbn [Z.geb Z.compare Z.to_nat assignAt].
    rewrite IH by (left; discriminate).
    rewrite <- app_assoc. reflexivity.
Qed.

(** X4. With no value to look for, every row matches, blanked or not: the
    search loop of [getMetaTableMatchedRowIndices] finds position [0] in
    every round and returns [0] once per kept row instead of the positions
    of the rows. *)
Theorem getMetaTableMatchedRowIndices_search_without_values :
  forall exactMatch arr,
    searchMetaRows exactMatch [] (List.length arr) arr [] = repeat 0 (List.length arr).
Proof.
  intros exact arr. rewrite searchMetaRows_no_values; [reflexivity |].
  destruct arr; [right; reflexivity | left; discriminate].
Qed.

(** ** [getFullFileNames] *)

Lemma getFullFileNames_forEach_unset sub names :
  getFullFileNames_forEach None sub names =
  if forallb (fun n => negb (includes n sub)) names then Ok tt
  else Throw (undefinedProperty "push").
Proof.
  induction names as [| n names IH]; [reflexivity |].
  cbn [getFullFileNames_forEach forallb]. destruct (includes n sub); [reflexivity |].
  exact IH.
Qed.

(** X5. [getFullFileNames] never returns a name. It completes, with no
    value, exactly when no name in the directory contains the substring;
    as soon as one does, pushing it onto the array that was never
    initialised throws. *)
Theorem getFullFileNames_throws_on_the_first_match :
  forall fileNames fileNameSubString,
    (getFullFileNames (Ok fileNames) fileNameSubString = Ok tt <->
     forall n, In n fileNames -> includes n fileNameSubString = false) /\
    (getFullFileNames (Ok fileNames) fileNameSubString <> Ok tt ->
     getFullFileNames (Ok fileNames) fileNameSubString = Throw (undefinedProperty "push")).
Proof.
  intros names sub. unfold getFullFileNames. rewrite getFullFileNames_forEach_unset.
  destruct (forallb (fun n => negb (includes n sub)) names) eqn:E.
  - split; [| congruence]. split; [| reflexivity]. intros _ n Hn.
    rewrite forallb_forall in E. specialize (E n Hn).
    destruct (includes n sub); [discriminate | reflexivity].
  - split; [| reflexivity]. split; [discriminate |]. intros H.
    assert (T : forallb (fun n => negb (includes n sub)) names = true)
      by (apply forallb_forall; intros n Hn; rewrite (H n Hn); reflexivity).
    congruence.
Qed.

(** ** What no chain does: the base fields and the console *)

Lemma sameBase_refl h : sameBase h h.
Proof. repeat split. Qed.

Lemma sameBase_trans h1 h2 h3 : sameBase h1 h2 -> sameBase h2 h3 -> sameBase h1 h3.
Proof.
  unfold sameBase. intros (A1 & A2 & A3 & A4) (B1 & B2 & B3 & B4).
  repeat split; congruence.
Qed.

Lemma samePlace_sameBase h h' : samePlace h h' -> sameBase h h'.
Proof. unfold samePlace. intros E. rewrite E. repeat split. Qed.

Lemma cleanEvent_page (new : list Event) :
  Forall (fun ev => isPageEvent ev = true) new -> Forall cleanEvent new.
Proof.
  apply Forall_impl. intros ev H. destruct ev; cbn in *; [exact I | exact I | discriminate].
Qed.

Lemma cleanEvent_console (new : list Event) :
  Forall cleanEvent new ->
  Forall (fun line => includes (toLowerCase line) "password" = false) (consoleLines new).
Proof.
  unfold consoleLines. induction new as [| ev new IH]; intros F; [constructor |].
  inversion F as [| ? ? C F']; subst. rewrite collect_cons.
  apply Forall_app. split; [apply IH; exact F' |].
  destruct ev; cbn; constructor; [exact C | constructor].
Qed.

Section Tidy.

Variable env : Env.

Lemma tidy_bind {A B : Type} (m : M A) (k : A -> M B) :
  tidy m -> (forall a, tidy (k a)) -> tidy (bind m k).
Proof.
  intros Hm Hk st r st' H. bind_step H.
  - destruct (Hm _ _ _ Ha) as (B1 & n1 & A1 & F1).
    destruct (Hk _ _ _ _ H) as (B2 & n2 & A2 & F2).
    split; [eapply sameBase_trans; eassumption |].
    exists (n2 ++ n1)%list. split; [eapply appended_trans; eassumption |].
    apply Forall_app. split; assumption.
  - subst r. exact (Hm _ _ _ H).
Qed.

Lemma tidy_keepsThis {A : Type} (m : M A) :
  keepsThis m -> mute m -> tidy m.
Proof.
  intros K Mu st r st' H. split.
  - rewrite (K _ _ _ H). apply sameBase_refl.
  - exists []. split; [exact (Mu _ _ _ H) | constructor].
Qed.

Lemma tidy_ret {A : Type} (a : A) : tidy (ret a).
Proof.
  intros st r st' H. inversion H; subst. split; [apply sameBase_refl |].
  exists []. split; [reflexivity | constructor].
Qed.

Lemma tidy_throw {A : Type} (e : Error) : tidy (@throw A e).
Proof.
  intros st r st' H. inversion H; subst. split; [apply sameBase_refl |].
  exists []. split; [reflexivity | constructor].
Qed.

Lemma tidy_getThis : tidy getThis.
Proof.
  intros st r st' H. inversion H; subst. split; [apply sameBase_refl |].
  exists []. split; [reflexivity | constructor].
Qed.

Lemma tidy_call {T : Type} (q : Query T) : tidy (call env q).
Proof.
  intros st r st' H. apply call_inv in H as (_ & ->). split; [apply sameBase_refl |].
  eexists [_]. split; [reflexivity |]. constructor; [exact I | constructor].
Qed.

Lemma tidy_logger_info msg : tidy (logger_info msg).
Proof.
  intros st r st' H. rewrite logger_info_run in H. inversion H; subst.
  split; [apply sameBase_refl |]. exists (logEvents msg). split; [reflexivity |].
  unfold logEvents. destruct (includes (toLowerCase msg) "password") eqn:E; cbn.
  - constructor; [exact I | constructor].
  - constructor; [exact E |]. constructor; [exact I | constructor].
Qed.

Lemma tidy_quiet {A : Type} (m : M A) :
  (forall st r st', m st = (r, st') -> exists new, quiet st st' new) -> tidy m.
Proof.
  intros Q st r st' H. destruct (Q _ _ _ H) as (new & A1 & F & S).
  split; [apply samePlace_sameBase; exact S |].
  exists new. split; [exact A1 | apply cleanEvent_page; exact F].
Qed.

Lemma tidy_getElement : tidy (getElement env).
Proof.
  apply tidy_quiet. intros st r st' H.
  apply getElement_spec in H as (new & Q & _). exists new. exact Q.
Qed.

Lemma tidy_waitTillElementToBeReady : tidy (waitTillElementToBeReady env).
Proof.
  apply tidy_quiet. intros st r st' H.
  apply waitTillElementToBeReady_spec in H as (new & Q & _). exists new. exact Q.
Qed.

Lemma tidy_getPage : tidy (getPage env).
Proof.
  apply tidy_quiet. intros st r st' H.
  apply getPage_spec in H as (new & Q). exists new. exact Q.
Qed.

Lemma tidy_thisPage member : tidy (thisPage member).
Proof.
  intros st r st' H. apply thisPage_inv in H as (-> & _).
  split; [apply sameBase_refl |]. exists []. split; [reflexivity | constructor].
Qed.

Lemma tidy_getLocator : tidy getLocator.
Proof.
  intros st r st' H. rewrite getLocator_run in H. inversion H; subst.
  split; [apply sameBase_refl |]. exists []. split; [reflexivity | constructor].
Qed.

Lemma tidy_set_fullCss css : tidy (modifyThis (set_fullCss css)).
Proof.
  intros st r st' H. inversion H; subst. split; [repeat split |].
  exists []. split; [reflexivity | constructor].
Qed.

Lemma tidy_set_fullXpath xp : tidy (modifyThis (set_fullXpath xp)).
Proof.
  intros st r st' H. inversion H; subst. split; [repeat split |].
  exists []. split; [reflexivity | constructor].
Qed.

Lemma tidy_clearFullCssAndXPath : tidy clearFullCssAndXPath.
Proof.
  intros st r st' H. rewrite clearFullCssAndXPath_run in H. inversion H; subst.
  split; [repeat split |]. exists []. split; [reflexivity | constructor].
Qed.

Lemma tidy_setCssAndXpath element : tidy (setCssAndXpath env element).
Proof.
  unfold setCssAndXpath.
  apply tidy_bind; [apply tidy_call | intros css].
  apply tidy_bind; [apply tidy_set_fullCss | intros _].
  apply tidy_bind; [apply tidy_call | intros xp]. apply tidy_set_fullXpath.
Qed.

Lemma tidy_discard {A : Type} (m : M A) : tidy m -> tidy (discard m).
Proof. intros H. apply tidy_bind; [exact H | intros a; apply tidy_ret]. Qed.

Lemma tidy_pressIfAsked keyPress : tidy (pressIfAsked env keyPress).
Proof.
  destruct keyPress as [k |]; cbn; [| apply tidy_ret].
  apply tidy_bind; [apply tidy_getElement | intros e; apply tidy_call].
Qed.

Lemma tidy_checkTarget i : tidy (checkTarget env i).
Proof.
  unfold checkTarget. destruct (gt i (-1));
    (apply tidy_bind; [apply tidy_getElement | intros e; apply tidy_ret]).
Qed.

Lemma tidy_isExist : tidy (isExist env).
Proof.
  unfold isExist.
  apply tidy_bind; [apply tidy_getPage | intros _].
  apply tidy_bind; [apply tidy_thisPage | intros p].
  do 3 (apply tidy_bind; [apply tidy_call | intros _]).
  apply tidy_bind; [apply tidy_clearFullCssAndXPath | intros _].
  apply tidy_bind; [apply tidy_thisPage | intros p'].
  apply tidy_bind; [apply tidy_getLocator | intros sel].
  apply tidy_bind; [apply tidy_call | intros flag]. apply tidy_ret.
Qed.

Lemma tidy_collectRows _locator indices :
  forall arr, tidy (collectRows env _locator indices arr).
Proof.
  induction indices as [| i rest IH]; intros arr; cbn [collectRows]; [apply tidy_ret |].
  apply tidy_bind; [apply tidy_getElement | intros e].
  apply tidy_bind; [apply tidy_call | intros tableData]. apply IH.
Qed.

Lemma tidy_scanRows _locator exact rowValues indices :
  forall found, tidy (scanRows env _locator exact rowValues indices found).
Proof.
  induction indices as [| i rest IH]; intros found; cbn [scanRows]; [apply tidy_ret |].
  apply tidy_bind; [apply tidy_getElement | intros e].
  apply tidy_bind; [apply tidy_call | intros row_text]. apply IH.
Qed.

End Tidy.

(** One step of a proof that a method is [tidy]: the primitives first, the
    control structure after them. *)
Ltac tidy_step env :=
  first
    [ apply tidy_ret | apply tidy_throw | apply tidy_getThis
    | apply (tidy_getElement env) | apply (tidy_waitTillElementToBeReady env)
    | apply (tidy_isExist env) | apply (tidy_getPage env)
    | apply tidy_thisPage | apply tidy_getLocator
    | apply tidy_clearFullCssAndXPath | apply (tidy_setCssAndXpath env)
    | apply tidy_logger_info | apply (tidy_pressIfAsked env)
    | apply (tidy_checkTarget env) | apply (tidy_collectRows env)
    | apply (tidy_scanRows env) | apply (tidy_call env)
    | apply tidy_set_fullCss | apply tidy_set_fullXpath
    | apply tidy_discard
    | apply tidy_bind; [| intros ?]
    | match goal with
      | |- tidy (if ?b then _ else _) => destruct b
      | |- tidy (match ?x with _ => _ end) => destruct x
      end ].

Section TidyChains.

Variable env : Env.

Lemma tidy_narrow n : tidy (narrow env n).
Proof.
  destruct n; cbn [narrow];
    unfold find, getNth, getSibling, contains, hasText, getRow, setCssAndXPath;
    repeat tidy_step env.
Qed.

Lemma tidy_terminal t : tidy (terminal env t).
Proof.
  destruct t; cbn [terminal];
    unfold click, dblClick, check, uncheck, getText, getCount, setValue, type,
      pressSequentially, getRowsLength, getHeaderColumnNumber, getMatchedRowIndex,
      getMatchedRowIndices, getMetaTableMatchedRowIndex, clearFullCssAndXpath;
    repeat tidy_step env.
Qed.

Lemma tidy_chain ns t : tidy (chain env ns t).
Proof.
  induction ns as [| n rest IH]; cbn [chain]; [apply tidy_terminal |].
  apply tidy_bind; [apply tidy_narrow | intros _; exact IH].
Qed.

End TidyChains.

(** X6. No chain of narrowing operations and a terminal action, however it
    ends, changes the base locator, the descriptor, the popup flag or the
    page index of the handle it runs on: narrowing and resetting only ever
    touch the effective selector, the effective XPath and the resolved
    page. *)
Theorem chains_keep_the_base_of_the_handle :
  forall env ns t st r st',
    chain env ns t st = (r, st') ->
    locator (this st') = locator (this st) /\
    objectDescriptor (this st') = objectDescriptor (this st) /\
    isPopupExist (this st') = isPopupExist (this st) /\
    pageIndex (this st') = pageIndex (this st).
Proof.
  intros env ns t st r st' H. exact (proj1 (tidy_chain env ns t st r st' H)).
Qed.

(** ** Clicks *)

Lemma isClickCall_page ev : isPageEvent ev = true -> isClickCall ev = false.
Proof. destruct ev as [T q r | |]; [destruct q |..]; cbn; congruence. Qed.

Lemma samePlace_css h h' :
  samePlace h h' -> fullCss h' = fullCss h /\ fullXpath h' = fullXpath h.
Proof. unfold samePlace. intros E. rewrite E. split; reflexivity. Qed.

Section Clicks.

Variable env : Env.

(** The ways a click or double click can go; [press] is the engine call,
    [pre] the page events of the readiness waits. *)
Lemma press_run (press : Locator -> bool -> Query unit) i force (line : string -> string)
    st r st' new :
  bind (getElement env) (fun e =>
    bind (call env (press (Nth e i) force)) (fun _ =>
      bind getThis (fun h =>
        bind (logger_info (line (objectDescriptor h)))
             (fun _ => clearFullCssAndXPath)))) st = (r, st') ->
  appended st st' new ->
  exists p pre,
    Forall (fun ev => isPageEvent ev = true) pre /\
    ((new = pre /\ (exists e, r = Throw e) /\ samePlace (this st) (this st')) \/
     (exists e, r = Throw e /\
        new = EvCall (press (Nth (PageLocator p (fullCss (this st))) i) force) (Throw e) :: pre /\
        samePlace (this st) (this st')) \/
     (r = Ok tt /\
        new = (logEvents (line (objectDescriptor (this st)))
                 ++ EvCall (press (Nth (PageLocator p (fullCss (this st))) i) force) (Ok tt)
                 :: pre)%list /\
        isReset (this st'))).
Proof.
  intros H A. bind_step H.
  2:{ apply getElement_spec in H as (n0 & (A0 & F0 & S0) & _).
      exists 0%nat, n0. split; [exact F0 |]. left.
      split; [exact (appended_unique _ _ _ _ A A0) |]. split; [eauto | exact S0]. }
  apply getElement_spec in Ha as (n0 & Q0 & He).
  destruct (He _ eq_refl) as (p & _ & ->).
  destruct (quiet_fields _ _ _ Q0) as (_ & _ & _ & Ed & _).
  destruct Q0 as (A0 & F0 & S0).
  exists p, n0. split; [exact F0 |]. right.
  unfold appended in A, A0.
  bind_step H.
  2:{ apply call_inv in H as (E & ->). left. exists e.
      split; [exact Hr |]. split; [| exact S0].
      cbn [trace] in A. rewrite A0 in A.
      apply (app_inv_tail (trace st)). rewrite <- A. reflexivity. }
  apply call_inv in Ha as (E & ->). right.
  bind_step H; [| inversion H].
  inversion Ha; subst; clear Ha. cbn [this] in H.
  bind_step H; [| rewrite logger_info_run in H; discriminate].
  rewrite logger_info_run in Ha. inversion Ha; subst; clear Ha.
  rewrite clearFullCssAndXPath_run in H. inversion H; subst; clear H.
  cbn [trace this] in *. split; [reflexivity |]. split; [| split; reflexivity].
  rewrite A0 in A. apply (app_inv_tail (trace st)). rewrite <- A.
  rewrite Ed. destruct a.
  repeat (rewrite <- app_assoc || rewrite <- app_comm_cons). reflexivity.
Qed.

(** From the shape of a run to what can be observed of it. *)
Lemma press_observed (press : Locator -> bool -> Query unit) obj force line pre r new
    (h h' : UiActions) :
  (forall l f, callTarget (press l f) = Some l) ->
  (forall l f rc, isClickCall (EvCall (press l f) rc) = true) ->
  Forall (fun ev => isPageEvent ev = true) pre ->
  ((new = pre /\ (exists e, r = Throw e) /\ samePlace h h') \/
   (exists e, r = Throw e /\ new = EvCall (press obj force) (Throw e) :: pre /\
      samePlace h h') \/
   (r = Ok tt /\ new = (logEvents line ++ EvCall (press obj force) (Ok tt) :: pre)%list /\
      isReset h')) ->
  (List.length (filter isClickCall new) <= 1)%nat /\
  Forall (fun l => l = obj) (targets new) /\
  (forall e, r = Throw e ->
     loggerLines new = [] /\ fullCss h' = fullCss h /\ fullXpath h' = fullXpath h) /\
  (r = Ok tt ->
     loggerLines new = [line] /\ targets new = [obj] /\ isReset h').
Proof.
  intros Ht Hc F Shape.
  assert (Tpre : collect eventTarget pre = [])
    by (apply page_event_silent; [exact eventTarget_page | exact F]).
  assert (Lpre : collect loggerLine pre = [])
    by (apply page_event_silent; [exact loggerLine_page | exact F]).
  assert (Cpre : filter isClickCall pre = [])
    by (apply filter_page_event; [exact isClickCall_page | exact F]).
  unfold targets, loggerLines.
  destruct Shape as [(-> & (e & ->) & S) | [(e & -> & -> & S) | (-> & -> & R)]].
  - rewrite Cpre, Tpre, Lpre. split; [cbn; lia |]. split; [constructor |].
    split; [| discriminate]. intros _ _. split; [reflexivity |]. apply samePlace_css, S.
  - cbn [filter]. rewrite Hc, Cpre, !collect_cons, Tpre, Lpre. cbn [eventTarget loggerLine].
    rewrite Ht. cbn. split; [lia |]. split; [repeat constructor |].
    split; [| discriminate]. intros _ _. split; [reflexivity |]. apply samePlace_css, S.
  - rewrite filter_app, !collect_app. cbn [filter]. rewrite Hc, Cpre, !collect_cons, Tpre, Lpre.
    rewrite filter_logEvents by reflexivity.
    rewrite collect_logEvents_targets, collect_logEvents_logger.
    cbn [eventTarget loggerLine]. rewrite Ht. cbn.
    split; [lia |]. split; [repeat constructor |].
    split; [discriminate |]. intros _. repeat split; apply R.
Qed.

End Clicks.


(** X9. [setLocator] assigns the base locator (and the descriptor, when
    one is given) but not the effective selector: the click that follows
    still goes to what the effective selector was before the call, under
    the new descriptor, and only the reset at the end of that click brings
    the new locator into force. *)
Theorem setLocator_takes_effect_after_the_next_reset :
  forall env loc description options st r st' new,
    bind (setLocator loc description) (fun _ => click env options) st = (r, st') ->
    appended st st' new ->
    let i := orDefault (optField ao_objIndex options) 0 in
    (exists p, Forall (fun l => l = Nth (PageLocator p (fullCss (this st))) i) (targets new)) /\
    (r = Ok tt ->
       loggerLines new =
         ["Clicked on the " ++ orDefault description (objectDescriptor (this st))
            ++ " [" ++ numberToString i ++ "]"] /\
       locator (this st') = loc /\ fullCss (this st') = loc).
Proof.
  intros env loc description options st r st' new H A i.
  bind_step H.
  2:{ exfalso. unfold setLocator in H. bind_step H; [| discriminate].
      destruct description; discriminate. }
  assert (E : s = mkState (match description with
                           | Some d => set_objectDescriptor d (set_locator loc (this st))
                           | None => set_locator loc (this st)
                           end) (popup st) (trace st)).
  { unfold setLocator in Ha. bind_step Ha; [| discriminate].
    inversion Haa; subst; clear Haa.
    destruct description; inversion Ha; reflexivity. }
  assert (A1 : appended s st' new) by (rewrite E; exact A).
  destruct (press_run env Click i (orDefault (optField ao_force options) false)
              (fun d => "Clicked on the " ++ d ++ " [" ++ numberToString i ++ "]")
              s r st' new H A1) as (p & pre & F & Shape).
  assert (Ec : fullCss (this s) = fullCss (this st))
    by (rewrite E; destruct description; reflexivity).
  assert (Ed : objectDescriptor (this s) = orDefault description (objectDescriptor (this st)))
    by (rewrite E; destruct description; reflexivity).
  assert (El : locator (this s) = loc)
    by (rewrite E; destruct description; reflexivity).
  destruct (press_observed Click _ _ _ _ _ _ _ _
              (fun l f => eq_refl) (fun l f rc => eq_refl) F Shape) as (_ & T & _ & D).
  split.
  - exists p. rewrite <- Ec. exact T.
  - intros Hr. destruct (D Hr) as (L & _ & R1 & R2). rewrite <- Ed.
    split; [exact L |].
    pose proof (proj1 (tidy_chain env [] (TClick options) s r st' H)) as (B & _).
    rewrite R1, B, El. split; reflexivity.
Qed.

(** ** The existence check *)

(** X10. [isExist] resets the handle before it looks: the one selector it
    asks the engine about is the base locator, never a narrowed effective
    selector. It makes no element call and logs nothing; a run that
    completes returns the engine's answer and leaves the handle reset. *)
Theorem isExist_asks_about_the_base_locator :
  forall env st r st' new,
    isExist env st = (r, st') ->
    appended st st' new ->
    Forall (fun sel => sel = locator (this st)) (probedSelectors new) /\
    targets new = [] /\ loggerLines new = [] /\
    (forall b, r = Ok b ->
       probedSelectors new = [locator (this st)] /\ existsReplies new = [b] /\
       isReset (this st')).
Proof.
  intros env st r st' new H A.
  assert (Ppre : forall pre, Forall (fun ev => isPageEvent ev = true) pre ->
                   collect probedSelector pre = []).
  { intros pre. apply page_event_silent.
    intros ev. destruct ev as [T q rc | |]; [destruct q |..]; cbn; congruence. }
  destruct (isExist_run env _ _ _ H) as (pre & F & [(A' & e & ->) | (p & A')]);
    rewrite (appended_unique _ _ _ _ A A');
    unfold probedSelectors, targets, loggerLines, existsReplies.
  - rewrite (Ppre _ F).
    rewrite (page_event_silent eventTarget pre eventTarget_page F).
    rewrite (page_event_silent loggerLine pre loggerLine_page F).
    split; [constructor |]. split; [reflexivity |]. split; [reflexivity |].
    intros b Hb. discriminate Hb.
  - rewrite !collect_cons, (Ppre _ F).
    rewrite (page_event_silent eventTarget pre eventTarget_page F).
    rewrite (page_event_silent loggerLine pre loggerLine_page F).
    rewrite (page_event_silent existsReply pre (existsReply_page) F).
    cbn. split; [repeat constructor |]. split; [reflexivity |]. split; [reflexivity |].
    intros b ->. split; [reflexivity |]. split; [reflexivity |].
    exact (isExist_endsReset env _ _ _ H).
Qed.

(** ** [getMetaTableRowsLength] *)

Section EffectiveSelector.

Variable env : Env.

Lemma commutesCss_call {T : Type} css (q : Query T) : commutesCss css (call env q).
Proof. intros st. split; reflexivity. Qed.

Lemma commutesCss_thisPage css member : commutesCss css (thisPage member).
Proof.
  intros [h pp tr]. unfold thisPage, bind, getThis, withCss. cbn.
  destruct (page h); split; reflexivity.
Qed.

Lemma commutesCss_bind {A B : Type} css (m : M A) (k : A -> M B) :
  commutesCss css m -> (forall a, commutesCss css (k a)) -> commutesCss css (bind m k).
Proof.
  intros Hm Hk st. unfold bind. destruct (Hm st) as (E & C). rewrite E.
  destruct (m st) as [[a | e] s]; cbn [fst snd] in *.
  - destruct (Hk a s) as (K & C'). split; [exact K | congruence].
  - split; [reflexivity | exact C].
Qed.

Lemma commutesCss_ret {A : Type} css (a : A) : commutesCss css (ret a).
Proof. intros st. split; reflexivity. Qed.

Lemma commutesCss_getPopup css : commutesCss css getPopup.
Proof. intros st. split; reflexivity. Qed.

Lemma commutesCss_setPopup css pp : commutesCss css (setPopup pp).
Proof. intros st. split; reflexivity. Qed.

Lemma commutesCss_set_page css pp : commutesCss css (modifyThis (set_page pp)).
Proof. intros st. split; reflexivity. Qed.

Lemma commutesCss_getPage css : commutesCss css (getPage env).
Proof.
  assert (E : forall s,
    getPage env s =
    (if isPopupExist (this s) then
       bind (bind getPopup (fun pp =>
               match pp with
               | None =>
                   bind (modifyThis (set_page None)) (fun _ =>
                     bind (call env WaitForPopup) (fun newPopup => setPopup (Some newPopup)))
               | Some _ => ret tt
               end))
            (fun _ => bind getPopup (fun pp' => modifyThis (set_page pp')))
     else
       bind (call env ContextPages) (fun pages =>
         modifyThis (set_page (index pages (pageIndex (this s)))))) s).
  { intros s. unfold getPage. unfold bind at 1. cbn [getThis].
    destruct (isPopupExist (this s)); reflexivity. }
  intros st. rewrite !E. cbn [withCss this set_fullCss isPopupExist pageIndex].
  destruct (isPopupExist (this st)).
  - apply commutesCss_bind.
    + apply commutesCss_bind; [apply commutesCss_getPopup | intros [p |]].
      * apply commutesCss_ret.
      * apply commutesCss_bind; [apply commutesCss_set_page | intros _].
        apply commutesCss_bind; [apply commutesCss_call | intros newPopup].
        apply commutesCss_setPopup.
    + intros _. apply commutesCss_bind; [apply commutesCss_getPopup | intros pp'].
      apply commutesCss_set_page.
  - apply commutesCss_bind; [apply commutesCss_call | intros pages].
    apply commutesCss_set_page.
Qed.

Lemma absorbsCss_bind {A B : Type} css (m : M A) (k : A -> M B) :
  commutesCss css m -> (forall a, absorbsCss css (k a)) -> absorbsCss css (bind m k).
Proof.
  intros Hm Hk st. unfold bind. destruct (Hm st) as (E & C). rewrite E.
  destruct (m st) as [[a | e] s]; cbn [fst snd] in *.
  - destruct (Hk a s) as [K | (e & s' & K1 & K2 & K3)]; [left; exact K |].
    right. exists e, s'. split; [exact K1 |]. split; [exact K2 | congruence].
  - right. exists e, s. split; [reflexivity |]. split; [reflexivity | exact C].
Qed.

Lemma absorbsCss_first {A B : Type} css (m : M A) (k : A -> M B) :
  absorbsCss css m -> absorbsCss css (bind m k).
Proof.
  intros Hm st. unfold bind.
  destruct (Hm st) as [E | (e & s & E1 & E2 & E3)].
  - left. rewrite E. reflexivity.
  - right. exists e, s. rewrite E1, E2. split; [reflexivity |]. split; [reflexivity | exact E3].
Qed.

Lemma absorbsCss_clear {B : Type} css (k : unit -> M B) :
  absorbsCss css (bind clearFullCssAndXPath k).
Proof.
  intros st. left. unfold bind. rewrite !clearFullCssAndXPath_run. reflexivity.
Qed.

Lemma absorbsCss_isExist css : absorbsCss css (isExist env).
Proof.
  unfold isExist.
  apply absorbsCss_bind; [apply commutesCss_getPage | intros _].
  apply absorbsCss_bind; [apply commutesCss_thisPage | intros p].
  do 3 (apply absorbsCss_bind; [apply commutesCss_call | intros _]).
  apply absorbsCss_clear.
Qed.

Lemma absorbsCss_getRowsLength css options : absorbsCss css (getRowsLength env options).
Proof. unfold getRowsLength. apply absorbsCss_first, absorbsCss_isExist. Qed.

End EffectiveSelector.

(** X11. [getMetaTableRowsLength] is a readiness wait followed by
    [getRowsLength]: the rows selector it appends to the effective
    selector is overwritten by the reset inside [isExist] before anything
    reads it. Both make the same engine calls and return the same result;
    they leave the same state behind, except that a run which throws
    before that reset leaves the handle with the appended selector. *)
Theorem getMetaTableRowsLength_is_getRowsLength_after_a_wait :
  forall env options st,
    let meta := getMetaTableRowsLength env options st in
    let plain := bind (waitTillElementToBeReady env) (fun _ => getRowsLength env options) st in
    fst meta = fst plain /\
    trace (snd meta) = trace (snd plain) /\
    (snd meta = snd plain \/
     exists e, fst meta = Throw e /\
       snd meta =
         withCss (fullCss (this (snd plain)) ++ " "
                    ++ orDefault (optField lo_locator options) "tr") (snd plain)).
Proof.
  intros env options st meta plain. subst meta plain.
  set (rows := orDefault (optField lo_locator options) "tr").
  set (rest := fun _ : unit =>
         bind getLocator (fun sel =>
           bind (modifyThis (set_fullCss (sel ++ " " ++ rows)))
                (fun _ => getRowsLength env options))).
  change (getMetaTableRowsLength env options) with (bind (waitTillElementToBeReady env) rest).
  destruct (waitTillElementToBeReady env st) as [[u | e] s] eqn:W.
  2:{ rewrite !(bind_Throw _ _ _ _ _ W). cbn [fst snd].
      split; [reflexivity |]. split; [reflexivity | left; reflexivity]. }
  rewrite (bind_Ok _ rest _ _ _ W), (bind_Ok _ (fun _ => getRowsLength env options) _ _ _ W).
  assert (R : rest u s = getRowsLength env options (withCss (fullCss (this s) ++ " " ++ rows) s)).
  { unfold rest. rewrite (bind_Ok _ _ _ _ _ (getLocator_run s)). reflexivity. }
  rewrite R.
  destruct (absorbsCss_getRowsLength env (fullCss (this s) ++ " " ++ rows) options s)
    as [E | (e & s' & E1 & E2 & E3)].
  - rewrite E. split; [reflexivity |]. split; [reflexivity | left; reflexivity].
  - rewrite E1, E2. cbn [fst snd]. split; [reflexivity |]. split; [reflexivity |].
    right. exists e. split; [reflexivity |]. rewrite E3. reflexivity.
Qed.

(** ** The reset invariant beyond the terminal actions *)

Section FurtherReset.

Variable env : Env.
Variable playwright_page : option Page.

Lemma clear_then_log {A : Type} msg (a : A) :
  endsReset (bind clearFullCssAndXPath (fun _ => bind (logger_info msg) (fun _ => ret a))).
Proof.
  apply endsReset_then; [apply endsReset_clear | intros _].
  apply keepsThis_bind; [apply keepsThis_logger_info | intros _; apply keepsThis_ret].
Qed.

Lemma further_endsReset f : endsReset (further env playwright_page f).
Proof.
  destruct f; cbn [further]; try apply endsReset_discard;
    unfold containsClick, getTextAllMatchingObjects, getCellData, getRowData,
      getAllRowsColumnData, getHeaderNames, getHeaderName, getHeaderColumnLength,
      getListOptions, getMetaTableRowsLength, clickMetaTableRowLink, isColumnValueExist,
      clickRowLink;
    repeat first [ apply endsReset_clear | apply clear_then_ret | apply clear_then_log
                 | apply endsReset_bind; intros ].
Qed.

End FurtherReset.

(** X12. The reset invariant holds for the reads and clicks of the handle
    and the table outside the core terminal actions as well: whenever
    [containsClick], [getTextAllMatchingObjects], [getCellData],
    [getRowData], [getAllRowsColumnData], [getHeaderNames], [getHeaderName],
    [getHeaderColumnLength], [getListOptions], [getMetaTableRowsLength],
    [clickMetaTableRowLink], [isColumnValueExist] or [clickRowLink]
    completes, the effective selector is the base locator again and the
    effective XPath is empty. *)
Theorem further_actions_reset_the_handle :
  forall env playwright_page f st st',
    further env playwright_page f st = (Ok tt, st') ->
    isReset (this st').
Proof.
  intros env pg f st st' H. exact (further_endsReset env pg f st tt st' H).
Qed.

(** ** The operations that call an undeclared member *)

Section Undeclared.

Variable env : Env.

Lemma quiet_getElement_then_throw {B : Type} (k : Locator -> M B) st r st' :
  (forall e, exists err, k e = throw err) ->
  bind (getElement env) k st = (r, st') ->
  (exists err, r = Throw err) /\ exists new, quiet st st' new.
Proof.
  intros Hk H. bind_step H.
  - apply getElement_spec in Ha as (n0 & Q0 & _).
    destruct (Hk a) as (err & E). rewrite E in H. inversion H; subst. eauto.
  - apply getElement_spec in H as (n0 & Q0 & _). eauto.
Qed.

Lemma misspelt_neverOk m : neverOk (misspelt env m).
Proof.
  destruct m; cbn [misspelt].
  - unfold clear. apply neverOk_bind; intros ele. apply neverOk_first, neverOk_throw.
  - unfold getColumnHasText. apply neverOk_bind; intros e. apply neverOk_throw.
  - unfold getTable. apply neverOk_bind; intros e. apply neverOk_throw.
  - apply getNth_neverOk.
  - apply getRow_neverOk.
  - unfold clickLastLink. do 4 (apply neverOk_bind; intros). apply neverOk_throw.
  - unfold find. apply neverOk_bind; intros _. cbn [optField fo_nthObj].
    do 2 (apply neverOk_bind; intros). apply neverOk_throw.
Qed.

Lemma misspelt_stops_quietly m st r st' :
  stopsAtTheElement m = true ->
  misspelt env m st = (r, st') ->
  exists new, quiet st st' new.
Proof.
  intros S H. destruct m; cbn in S; try discriminate; cbn [misspelt] in H.
  - apply quiet_getElement_then_throw in H as (_ & Q); [exact Q |].
    intros e. eexists. reflexivity.
  - apply quiet_getElement_then_throw in H as (_ & Q); [exact Q |].
    intros e. eexists. reflexivity.
  - apply quiet_getElement_then_throw in H as (_ & Q); [exact Q |].
    intros e. eexists. reflexivity.
  - apply quiet_getElement_then_throw in H as (_ & Q); [exact Q |].
    intros e. eexists. reflexivity.
  - unfold getRow in H. bind_step H.
    + apply waitTillElementToBeReady_spec in Ha as (n0 & Q0 & _).
      apply quiet_getElement_then_throw in H as (_ & n1 & Q1);
        [| intros e; eexists; reflexivity].
      eexists. eapply quiet_trans; eassumption.
    + apply waitTillElementToBeReady_spec in H as (n0 & Q0 & _). eauto.
Qed.

End Undeclared.

(** X13. The operations that call an undeclared member never complete:
    [clear], [getColumnHasText], [getTable], [getNth], [getRow],
    [clickLastLink] and [find] with [nthObj] end in a throw on every page.
    The first five throw as soon as the element is resolved, so [clear]
    never clears the field and the four narrowing operations never narrow:
    no element call is made and the effective selector and XPath stay as
    they were. *)
Theorem operations_on_undeclared_members_never_complete :
  forall env m st r st' new,
    misspelt env m st = (r, st') ->
    appended st st' new ->
    (exists e, r = Throw e) /\
    (stopsAtTheElement m = true ->
       targets new = [] /\
       fullCss (this st') = fullCss (this st) /\ fullXpath (this st') = fullXpath (this st)).
Proof.
  intros env m st r st' new H A. split; [exact (misspelt_neverOk env m st r st' H) |].
  intros S. destruct (misspelt_stops_quietly env m st r st' S H) as (new' & A' & F & P).
  rewrite (appended_unique _ _ _ _ A A'). split.
  - apply page_event_silent; [exact eventTarget_page | exact F].
  - apply samePlace_css. exact P.
Qed.

(** ** [clickMetaTableRowLink] *)

Lemma notEmptyString_orFalse x : notEmptyString (orFalse x) = true.
Proof.
  destruct x as [s |]; cbn; [| reflexivity].
  destruct (String.eqb s "") eqn:E; cbn; [reflexivity | rewrite E; reflexivity].
Qed.

Lemma template_orFalse x : template (orFalse x) = orElse x "false".
Proof. destruct x as [s |]; cbn; [destruct (String.eqb s "") |]; reflexivity. Qed.

(** X14. [clickMetaTableRowLink] always picks the link by text: the link
    name defaults to [false], which is never the empty string, so the
    branches that would use [lnkIndex] or the first link of the row are
    never taken. Every element call of a run goes to the row filtered by
    the link name, and by the text ["false"] when no name (or an empty one)
    is given; [lnkIndex] has no effect. *)
Theorem clickMetaTableRowLink_ignores_lnkIndex :
  forall env rowIndex options st r st' new,
    clickMetaTableRowLink env rowIndex options st = (r, st') ->
    appended st st' new ->
    exists p,
      Forall (fun l =>
                l = FilterHasText
                      (Nth (SubLocator (Nth (PageLocator p (fullCss (this st))) rowIndex)
                              (orElse (optField ml_locator options) "tr")) 0)
                      (orElse (optField ml_linkName options) "false"))
             (targets new).
Proof.
  intros env rowIndex options st r st' new H A. unfold clickMetaTableRowLink in H.
  rewrite notEmptyString_orFalse, template_orFalse in H.
  unfold targets. bind_step H.
  2:{ apply getElement_spec in H as (n0 & (A0 & F0 & _) & _).
      rewrite (appended_unique _ _ _ _ A A0). exists 0%nat.
      rewrite (page_event_silent eventTarget n0 eventTarget_page F0). constructor. }
  apply getElement_spec in Ha as (n0 & (A0 & F0 & _) & He).
  destruct (He _ eq_refl) as (p & _ & ->). exists p.
  assert (T0 : collect eventTarget n0 = [])
    by (apply page_event_silent; [exact eventTarget_page | exact F0]).
  unfold appended in A, A0.
  bind_step H.
  - apply call_inv in Ha as (_ & ->).
    rewrite clearFullCssAndXPath_run in H. inversion H; subst; clear H.
    cbn [trace] in A. rewrite A0 in A.
    assert (E : new = (EvCall (Click (FilterHasText
                  (Nth (SubLocator (Nth (PageLocator p (fullCss (this st))) rowIndex)
                          (orElse (optField ml_locator options) "tr")) 0)
                  (orElse (optField ml_linkName options) "false")) false) (Ok a) :: n0)).
    { apply (app_inv_tail (trace st)). rewrite <- A. reflexivity. }
    rewrite E, collect_cons, T0. cbn. repeat constructor.
  - apply call_inv in H as (_ & ->). cbn [trace] in A. rewrite A0 in A.
    assert (E : new = (EvCall (Click (FilterHasText
                  (Nth (SubLocator (Nth (PageLocator p (fullCss (this st))) rowIndex)
                          (orElse (optField ml_locator options) "tr")) 0)
                  (orElse (optField ml_linkName options) "false")) false) (Throw e) :: n0)).
    { apply (app_inv_tail (trace st)). rewrite <- A. reflexivity. }
    rewrite E, collect_cons, T0. cbn. repeat constructor.
Qed.

(** ** Reading a column and the texts of all matches *)

Lemma countReply_page ev : isPageEvent ev = true -> countReply ev = None.
Proof. destruct ev as [T q r | |]; [destruct q |..]; cbn; congruence. Qed.

Lemma innerTextRead_page ev : isPageEvent ev = true -> innerTextRead ev = None.
Proof. destruct ev as [T q r | |]; [destruct q |..]; cbn; congruence. Qed.

Lemma Forall2_snoc {A B : Type} (R : A -> B -> Prop) l1 l2 x y :
  Forall2 R l1 l2 -> R x y -> Forall2 R (l1 ++ [x]) (l2 ++ [y]).
Proof. intros F H. apply Forall2_app; [exact F | repeat constructor; exact H]. Qed.

Section Columns.

Variable env : Env.

Lemma getAllRowsColumnData_loop_spec rows column css indices :
  forall arr st arr' st',
    fullCss (this st) = css ->
    getAllRowsColumnData_loop env rows column indices arr st = (Ok arr', st') ->
    exists new,
      appended st st' new /\ samePlace (this st) (this st') /\
      arr' = (arr ++ map snd (innerTextReads new))%list /\
      Forall2 (fun i l => isCellOf css rows column i l) indices
        (map fst (innerTextReads new)) /\
      countReplies new = [].
Proof.
  unfold innerTextReads, countReplies.
  induction indices as [| i rest IH]; intros arr st arr' st' C H; cbn [getAllRowsColumnData_loop] in H.
  - inversion H; subst. exists []. split; [reflexivity |]. split; [apply samePlace_refl |].
    cbn. rewrite app_nil_r. repeat split. constructor.
  - bind_step H; [| discriminate].
    apply getElement_spec in Ha as (n0 & Q0 & He).
    destruct (He _ eq_refl) as (p & _ & ->).
    destruct (quiet_fields _ _ _ Q0) as (_ & Ec & _).
    destruct Q0 as (A0 & F0 & S0).
    bind_step H; [| discriminate].
    apply call_inv in Ha as (E & ->).
    match type of E with Ok ?x = _ => rename x into txt end.
    apply IH in H as (n1 & A1 & S1 & -> & F2 & C1); [| cbn [this]; congruence].
    exists (n1 ++ EvCall (InnerText (Nth (SubLocator (Nth (SubLocator
               (PageLocator p (fullCss (this st))) rows) i) "td") column)) (Ok txt) :: n0)%list.
    assert (I0 : collect innerTextRead n0 = [])
      by (apply page_event_silent; [exact innerTextRead_page | exact F0]).
    assert (C0 : collect countReply n0 = [])
      by (apply page_event_silent; [exact countReply_page | exact F0]).
    split; [| split; [| split; [| split]]].
    + unfold appended in *. cbn [trace] in A1. rewrite A1, A0.
      repeat (rewrite <- app_assoc || rewrite <- app_comm_cons). reflexivity.
    + eapply samePlace_trans; [exact S0 | exact S1].
    + rewrite collect_app, collect_cons, I0. cbn.
      rewrite <- app_assoc. reflexivity.
    + rewrite collect_app, collect_cons, I0. cbn.
      constructor; [exists p; rewrite C; reflexivity | exact F2].
    + rewrite collect_app, collect_cons, C0, C1. reflexivity.
Qed.

Lemma staticWait_run pg ms st r st' :
  staticWait env pg ms true st = (r, st') ->
  this st' = this st /\
  exists new, appended st st' new /\
    collect innerTextRead new = [] /\ collect countReply new = [] /\
    (r = Ok tt -> pg <> None).
Proof.
  unfold staticWait, console_log, emit, bind. cbn. destruct pg as [p |]; cbn.
  - intros H. inversion H; subst. split; [reflexivity |].
    eexists [_; _; _]. split; [reflexivity |]. repeat split; discriminate.
  - intros H. inversion H; subst. split; [reflexivity |].
    eexists [_; _]. split; [reflexivity |]. repeat split; discriminate.
Qed.

Lemma getTextAllMatchingObjects_loop_spec pg css indices :
  forall arr st arr' st',
    fullCss (this st) = css ->
    getTextAllMatchingObjects_loop env pg indices arr st = (Ok arr', st') ->
    exists new,
      appended st st' new /\ samePlace (this st) (this st') /\
      arr' = (arr ++ map (fun lt => trim (snd lt)) (innerTextReads new))%list /\
      Forall2 (fun i l => isNthOf css i l) indices (map fst (innerTextReads new)) /\
      countReplies new = [] /\
      (indices <> [] -> pg <> None).
Proof.
  unfold innerTextReads, countReplies.
  induction indices as [| i rest IH]; intros arr st arr' st' C H;
    cbn [getTextAllMatchingObjects_loop] in H.
  - inversion H; subst. exists []. split; [reflexivity |]. split; [apply samePlace_refl |].
    cbn. rewrite app_nil_r. repeat split; [constructor | congruence].
  - bind_step H; [| discriminate].
    apply staticWait_run in Ha as (Tw & nw & Aw & Iw & Cw & Pw). destruct a.
    bind_step H; [| discriminate].
    apply getElement_spec in Ha as (n0 & Q0 & He).
    destruct (He _ eq_refl) as (p & _ & ->).
    destruct (quiet_fields _ _ _ Q0) as (_ & Ec & _).
    destruct Q0 as (A0 & F0 & S0).
    bind_step H; [| discriminate].
    apply call_inv in Ha as (E & ->).
    match type of E with Ok ?x = _ => rename x into txt end.
    apply IH in H as (n1 & A1 & S1 & -> & F2 & C1 & _); [| cbn [this]; congruence].
    exists (n1 ++ EvCall (InnerText (Nth (PageLocator p (fullCss (this s))) i)) (Ok txt)
               :: n0 ++ nw)%list.
    assert (I0 : collect innerTextRead n0 = [])
      by (apply page_event_silent; [exact innerTextRead_page | exact F0]).
    assert (C0 : collect countReply n0 = [])
      by (apply page_event_silent; [exact countReply_page | exact F0]).
    split; [| split; [| split; [| split; [| split]]]].
    + unfold appended in *. cbn [trace] in A1. rewrite A1, A0, Aw.
      repeat (rewrite <- app_assoc || rewrite <- app_comm_cons). reflexivity.
    + rewrite <- Tw. eapply samePlace_trans; [exact S0 | exact S1].
    + rewrite collect_app, collect_cons, collect_app, I0, Iw. cbn.
      rewrite <- app_assoc. reflexivity.
    + rewrite collect_app, collect_cons, collect_app, I0, Iw. cbn.
      constructor; [exists p; rewrite Tw, C; reflexivity | exact F2].
    + rewrite collect_app, collect_cons, collect_app, C0, Cw, C1. reflexivity.
    + intros _. apply Pw. reflexivity.
Qed.

End Columns.

(** X15. A completed [getAllRowsColumnData] has asked once for the number
    of rows and then read, row by row from position 0, the cell [column] of
    each row under the effective selector: it returns the texts of those
    cells as the engine gave them, in row order, one per row counted, and
    leaves the handle reset. *)
Theorem getAllRowsColumnData_reads_the_column_row_by_row :
  forall env column options st arr st' new,
    getAllRowsColumnData env column options st = (Ok arr, st') ->
    appended st st' new ->
    exists n,
      countReplies new = [n] /\
      List.length arr = n /\
      arr = map snd (innerTextReads new) /\
      Forall2 (fun i l => isCellOf (fullCss (this st))
                            (orDefault (optField lo_locator options) "tr") column i l)
        (upTo n) (map fst (innerTextReads new)) /\
      isReset (this st').
Proof.
  intros env column options st arr st' new H A. unfold getAllRowsColumnData in H.
  bind_step H; [| discriminate].
  apply getElement_spec in Ha as (n0 & Q0 & He).
  destruct (He _ eq_refl) as (p & _ & ->).
  destruct (quiet_fields _ _ _ Q0) as (_ & Ec & _).
  destruct Q0 as (A0 & F0 & S0).
  bind_step H; [| discriminate].
  apply call_inv in Ha as (E & ->).
  match type of E with Ok ?x = _ => rename x into n end.
  bind_step H; [| discriminate].
  apply (getAllRowsColumnData_loop_spec env _ _ (fullCss (this st))) in Ha
    as (n1 & A1 & S1 & -> & F2 & C1); [| exact Ec].
  bind_step H; [| discriminate].
  rewrite clearFullCssAndXPath_run in Ha. inversion Ha; subst; clear Ha.
  inversion H; subst; clear H. cbn [app].
  assert (I0 : collect innerTextRead n0 = [])
    by (apply page_event_silent; [exact innerTextRead_page | exact F0]).
  assert (C0 : collect countReply n0 = [])
    by (apply page_event_silent; [exact countReply_page | exact F0]).
  assert (En : new = (n1 ++ EvCall (Count (SubLocator (PageLocator p (fullCss (this st)))
                        (orDefault (optField lo_locator options) "tr"))) (Ok n) :: n0)%list).
  { unfold appended in *. cbn [trace] in *. apply (app_inv_tail (trace st)).
    rewrite <- A, A1, A0.
    repeat (rewrite <- app_assoc || rewrite <- app_comm_cons). reflexivity. }
  assert (Ei : innerTextReads new = innerTextReads n1).
  { unfold innerTextReads. rewrite En, collect_app, collect_cons, I0. reflexivity. }
  exists n. rewrite Ei. split; [| split; [| split; [| split]]].
  - unfold countReplies in *. rewrite En, collect_app, collect_cons, C0, C1. reflexivity.
  - apply Forall2_length in F2. rewrite !length_map in *.
    unfold upTo in F2. rewrite length_map, length_seq in F2. lia.
  - reflexivity.
  - exact F2.
  - split; reflexivity.
Qed.

(** X16. A completed [getTextAllMatchingObjects] has asked once for the
    number of matches and then read the text of the match at each position
    from 0 up, under the effective selector: it returns those texts
    trimmed, in order, one per match counted, and leaves the handle reset.
    It waits on [playwright.page] before every read, so without that page
    it can only complete when nothing matches. *)
Theorem getTextAllMatchingObjects_reads_every_match_trimmed :
  forall env playwright_page st arr st' new,
    getTextAllMatchingObjects env playwright_page st = (Ok arr, st') ->
    appended st st' new ->
    exists n,
      countReplies new = [n] /\
      List.length arr = n /\
      arr = map (fun lt => trim (snd lt)) (innerTextReads new) /\
      Forall2 (fun i l => isNthOf (fullCss (this st)) i l)
        (upTo n) (map fst (innerTextReads new)) /\
      isReset (this st') /\
      (playwright_page = None -> arr = []).
Proof.
  intros env pg st arr st' new H A. unfold getTextAllMatchingObjects in H.
  bind_step H; [| discriminate].
  apply getElement_spec in Ha as (n0 & Q0 & He).
  destruct (He _ eq_refl) as (p & _ & ->).
  destruct (quiet_fields _ _ _ Q0) as (_ & Ec & _).
  destruct Q0 as (A0 & F0 & S0).
  bind_step H; [| discriminate].
  apply call_inv in Ha as (E & ->).
  match type of E with Ok ?x = _ => rename x into n end.
  bind_step H; [| discriminate].
  apply (getTextAllMatchingObjects_loop_spec env _ (fullCss (this st))) in Ha
    as (n1 & A1 & S1 & -> & F2 & C1 & Pg); [| exact Ec].
  bind_step H; [| discriminate].
  rewrite clearFullCssAndXPath_run in Ha. inversion Ha; subst; clear Ha.
  inversion H; subst; clear H. cbn [app].
  assert (I0 : collect innerTextRead n0 = [])
    by (apply page_event_silent; [exact innerTextRead_page | exact F0]).
  assert (C0 : collect countReply n0 = [])
    by (apply page_event_silent; [exact countReply_page | exact F0]).
  assert (En : new = (n1 ++ EvCall (Count (PageLocator p (fullCss (this st)))) (Ok n)
                        :: n0)%list).
  { unfold appended in *. cbn [trace] in *. apply (app_inv_tail (trace st)).
    rewrite <- A, A1, A0.
    repeat (rewrite <- app_assoc || rewrite <- app_comm_cons). reflexivity. }
  assert (Ei : innerTextReads new = innerTextReads n1).
  { unfold innerTextReads. rewrite En, collect_app, collect_cons, I0. reflexivity. }
  assert (L : List.length (innerTextReads n1) = n).
  { apply Forall2_length in F2. rewrite !length_map in *.
    unfold upTo in F2. rewrite length_map, length_seq in F2. lia. }
  exists n. rewrite Ei. split; [| split; [| split; [| split; [| split]]]].
  - unfold countReplies in *. rewrite En, collect_app, collect_cons, C0, C1. reflexivity.
  - rewrite length_map. exact L.
  - reflexivity.
  - exact F2.
  - split; reflexivity.
  - intros ->. destruct n as [| n]; [| exfalso; apply Pg; [discriminate | reflexivity]].
    destruct (innerTextReads n1); [reflexivity | discriminate].
Qed.

(** ** Page resolution *)

(** X17. A popup handle captures the popup once. When [playwright.popup]
    is already set, [getPage] makes no engine call and hands that page to
    the handle; when it is not, [getPage] waits for exactly one popup
    event, stores the page for every later handle, and on failure leaves
    both the shared slot and the page of the handle unset, whatever page
    the handle had resolved before. *)
Theorem getPage_captures_the_popup_once :
  forall env st r st' new,
    isPopupExist (this st) = true ->
    getPage env st = (r, st') ->
    appended st st' new ->
    (forall pp, popup st = Some pp ->
       r = Ok tt /\ new = [] /\ page (this st') = Some pp /\ popup st' = Some pp) /\
    (popup st = None ->
       (exists reply, new = [EvCall WaitForPopup reply]) /\
       (r = Ok tt -> exists pp, popup st' = Some pp /\ page (this st') = Some pp) /\
       (forall e, r = Throw e -> popup st' = None /\ page (this st') = None)).
Proof.
  intros env [h pp tr] r st' new P H A. cbn [this popup] in *.
  unfold getPage, bind, getThis, getPopup, setPopup, modifyThis, call, ret in H.
  cbn in H. rewrite P in H. unfold appended in A. cbn [trace] in A.
  destruct pp as [p |]; cbn in H.
  - inversion H; subst; clear H. cbn in A. split; [| discriminate].
    intros pp0 E. inversion E; subst. repeat split.
    apply (app_inv_tail tr). symmetry. exact A.
  - split; [discriminate |]. intros _.
    destruct (env Page tr WaitForPopup) as [p | e] eqn:W;
      inversion H; subst; clear H; cbn in A |- *.
    + split; [eexists; apply (app_inv_tail tr); symmetry; exact A |].
      split; [intros _; exists p; split; reflexivity | discriminate].
    + split; [eexists; apply (app_inv_tail tr); symmetry; exact A |].
      split; [discriminate | intros e0 _; split; reflexivity].
Qed.

(** X18. [find] with neither [hasText] nor [nthObj] reads the page of the
    handle as the last resolution left it and resolves nothing itself. On a
    handle that never resolved a page it throws before any engine call. On
    a handle that did, a [switchPage] in between has no effect on it: every
    element call still goes to the page resolved before, for the effective
    selector followed by the given one, and no page is looked up. (With
    [nthObj] the call goes on to resolve the element again, and with
    [hasText] it resolves it first; neither case is covered here.) *)
Theorem find_reads_the_page_without_resolving_it :
  forall env i loc options st r st' new,
    optField fo_hasText options = None ->
    optField fo_nthObj options = None ->
    bind (switchPage i) (fun _ => find env loc options) st = (r, st') ->
    appended st st' new ->
    (page (this st) = None -> r = Throw (undefinedProperty "locator") /\ new = []) /\
    (forall p, page (this st) = Some p ->
       Forall (fun l => l = Nth (PageLocator p (fullCss (this st) ++ " " ++ loc))
                             (orDefault (optField fo_index options) 0))
              (targets new) /\
       filter isPageEvent new = []).
Proof.
  intros env i loc options [[l pg d isP pi c x t ts] pp tr] r st' new Ht Hn H A.
  unfold switchPage, find in H. rewrite Ht, Hn in H.
  unfold appended in A. cbn [this trace page fullCss] in *.
  assert (G : forall s : State,
            getLocator s = (Ok (fullCss (this s)), s)) by exact getLocator_run.
  cbv [bind thisPage getThis setCssAndXpath call modifyThis ret throw
       this popup trace set_pageIndex page] in H.
  destruct pg as [p |].
  - split; [discriminate |]. intros p0 E. inversion E; subst p0. clear E.
    rewrite G in H.
    cbv [bind call modifyThis ret this popup trace set_pageIndex fullCss] in H.
    repeat match type of H with
           | context [match env ?T ?t ?q with _ => _ end] => destruct (env T t q)
           end;
      inversion H; subst; clear H; cbn [trace] in A;
      match type of A with
      | ?x :: ?y :: tr = _ => change (x :: y :: tr) with ([x; y] ++ tr)%list in A
      | ?x :: tr = _ => change (x :: tr) with ([x] ++ tr)%list in A
      end;
      apply (app_inv_tail tr) in A; subst new; cbn; split; repeat constructor.
  - inversion H; subst; clear H. cbn [trace] in A. split; [| discriminate].
    intros _. split; [reflexivity |]. apply (app_inv_tail tr). symmetry. exact A.
Qed.

(** ** [getMetaTableMatchedRowIndices]: the console and the handle *)

Section MetaTable.

Variable env : Env.

Lemma silent_readCells row : silent (readCells env row).
Proof.
  unfold readCells. apply silent_bind; [apply silent_call | intros cols].
  induction cols as [| col cols IH]; cbn [mapM]; [apply silent_ret |].
  apply silent_bind.
  - apply silent_bind; [apply silent_call | intros t; apply silent_ret].
  - intros y. apply silent_bind; [exact IH | intros ys; apply silent_ret].
Qed.

Lemma silent_collectMetaRows minColumnSize rows :
  forall arr, silent (collectMetaRows env minColumnSize rows arr).
Proof.
  induction rows as [| row rows IH]; intros arr; cbn [collectMetaRows]; [apply silent_ret |].
  apply silent_bind; [apply silent_readCells | intros arrTds; apply IH].
Qed.

End MetaTable.

(** X19. [getMetaTableMatchedRowIndices] prints the values it was given to
    the console itself, not through the logger: that line is the one
    console line of every run, whatever the values mention, and the logger
    gets nothing. Unlike the other table searches it never resets the
    handle: the effective selector and XPath are the same after the run as
    before, however the run ends. *)
Theorem getMetaTableMatchedRowIndices_prints_its_values_and_keeps_the_narrowing :
  forall env rowValues options st r st' new,
    getMetaTableMatchedRowIndices env rowValues options st = (r, st') ->
    appended st st' new ->
    consoleLines new = ["Received data: " ++ arrayToString rowValues] /\
    loggerLines new = [] /\
    fullCss (this st') = fullCss (this st) /\ fullXpath (this st') = fullXpath (this st).
Proof.
  intros env rowValues options st r st' new H A.
  unfold getMetaTableMatchedRowIndices in H.
  unfold bind at 1 in H. cbn [console_log emit] in H.
  match type of H with ?m ?s = _ => assert (S : silent m) end.
  { apply silent_bind; [apply silent_getElement | intros e].
    apply silent_bind; [apply silent_call | intros rows].
    apply silent_bind; [apply silent_collectMetaRows | intros arr; apply silent_ret]. }
  apply S in H as (n & A1 & F & P). cbn [this] in P.
  destruct (noLog_silent n F) as (L & C).
  assert (E : new = (n ++ [EvConsole ("Received data: " ++ arrayToString rowValues)])%list).
  { unfold appended in *. cbn [trace] in A1. apply (app_inv_tail (trace st)).
    rewrite <- A, A1, <- app_assoc. reflexivity. }
  unfold consoleLines, loggerLines in *. rewrite E, !collect_app, L, C.
  split; [reflexivity |]. split; [reflexivity |]. apply samePlace_css. exact P.
Qed.

(** ** Instances *)

(** A narrowing followed by [setValue] on the four-item list ends in the
    throw of the undeclared reset; the base fields are those of the handle
    the chain started from. *)
Lemma chains_keep_the_base_of_the_handle_witness :
  let run := chain fourItems [NContains "item" None] (TSetValue "soup" None) items in
  fst run = Throw (notAFunction "clearFullCssAndXpath") /\
  (locator (this (snd run)) = locator (this items) /\
   objectDescriptor (this (snd run)) = objectDescriptor (this items) /\
   isPopupExist (this (snd run)) = isPopupExist (this items) /\
   pageIndex (this (snd run)) = pageIndex (this items)).
Proof.
  intros run. split; [vm_compute; reflexivity |].
  refine (chains_keep_the_base_of_the_handle fourItems
            [NContains "item" None] (TSetValue "soup" None) items
            (fst run) (snd run) _).
  vm_compute. reflexivity.
Defined.


(** [setLocator('ol > li', { description: 'step' })] followed by [click] on
    the handle of the list items: the click goes to the old selector. *)
Lemma setLocator_takes_effect_after_the_next_reset_witness :
  let run := bind (setLocator "ol > li" (Some "step")) (fun _ => click fourItems None) items in
  targets (trace (snd run)) = [Nth (PageLocator 0%nat "ul > li") 0] /\
  (exists p, Forall (fun l => l = Nth (PageLocator p (fullCss (this items))) 0)
                    (targets (trace (snd run)))) /\
  (fst run = Ok tt ->
     loggerLines (trace (snd run)) =
       ["Clicked on the " ++ orDefault (Some "step") (objectDescriptor (this items))
          ++ " [" ++ numberToString 0 ++ "]"] /\
     locator (this (snd run)) = "ol > li" /\ fullCss (this (snd run)) = "ol > li").
Proof.
  intros run. split; [vm_compute; reflexivity |].
  refine (setLocator_takes_effect_after_the_next_reset fourItems "ol > li" (Some "step")
            None items (fst run) (snd run) (trace (snd run)) _ _).
  - vm_compute. reflexivity.
  - vm_compute. reflexivity.
Defined.

(** [isExist] on a narrowed handle, on a page where nothing matches. *)
Lemma isExist_asks_about_the_base_locator_witness :
  let narrowed := withCss "ul > li.active" items in
  let run := isExist nothingThere narrowed in
  fst run = Ok false /\
  Forall (fun sel => sel = locator (this narrowed)) (probedSelectors (trace (snd run))) /\
  targets (trace (snd run)) = [] /\ loggerLines (trace (snd run)) = [] /\
  (forall b, fst run = Ok b ->
     probedSelectors (trace (snd run)) = [locator (this narrowed)] /\
     existsReplies (trace (snd run)) = [b] /\
     isReset (this (snd run))).
Proof.
  intros narrowed run. split; [vm_compute; reflexivity |].
  refine (isExist_asks_about_the_base_locator nothingThere narrowed
            (fst run) (snd run) (trace (snd run)) _ _).
  - vm_compute. reflexivity.
  - vm_compute. reflexivity.
Defined.

(** [getRowData(1)] on the scenario table, from a narrowed handle. *)
Lemma further_actions_reset_the_handle_witness :
  let narrowed := withCss "table.results" table in
  let run := further (staticEnv (tableDom 1 scenarioRows)) None (FGetRowData 1 None) narrowed in
  fst run = Ok tt /\ isReset (this (snd run)).
Proof.
  intros narrowed run. split; [vm_compute; reflexivity |].
  refine (further_actions_reset_the_handle (staticEnv (tableDom 1 scenarioRows)) None
            (FGetRowData 1 None) narrowed (snd run) _).
  vm_compute. reflexivity.
Defined.

(** [clear()] on the four-item list. *)
Lemma operations_on_undeclared_members_never_complete_witness :
  let run := misspelt fourItems (MClear None) items in
  fst run = Throw (notAFunction "setCssAndXPath") /\
  (exists e, fst run = Throw e) /\
  (stopsAtTheElement (MClear None) = true ->
     targets (trace (snd run)) = [] /\
     fullCss (this (snd run)) = fullCss (this items) /\
     fullXpath (this (snd run)) = fullXpath (this items)).
Proof.
  intros run. split; [vm_compute; reflexivity |].
  refine (operations_on_undeclared_members_never_complete fourItems (MClear None) items
            (fst run) (snd run) (trace (snd run)) _ _).
  - vm_compute. reflexivity.
  - vm_compute. reflexivity.
Defined.

(** [clickMetaTableRowLink(1, { lnkIndex: 2 })]: the link is looked up by
    the text ["false"]. *)
Lemma clickMetaTableRowLink_ignores_lnkIndex_witness :
  let options := Some (mkMetaLinkOptions None (Some 2) None) in
  let run := clickMetaTableRowLink fourItems 1 options table in
  targets (trace (snd run)) =
    [FilterHasText (Nth (SubLocator (Nth (PageLocator 0%nat "table") 1) "tr") 0) "false"] /\
  exists p,
    Forall (fun l =>
              l = FilterHasText
                    (Nth (SubLocator (Nth (PageLocator p (fullCss (this table))) 1)
                            (orElse (optField ml_locator options) "tr")) 0)
                    (orElse (optField ml_linkName options) "false"))
           (targets (trace (snd run))).
Proof.
  intros options run. split; [vm_compute; reflexivity |].
  refine (clickMetaTableRowLink_ignores_lnkIndex fourItems 1 options table
            (fst run) (snd run) (trace (snd run)) _ _).
  - vm_compute. reflexivity.
  - vm_compute. reflexivity.
Defined.

(** The second column of a table with the rows Alice/30 and Bob/31. *)
Lemma getAllRowsColumnData_reads_the_column_row_by_row_witness :
  let env := staticEnv (cellsDom [["Alice"; "30"]; ["Bob"; "31"]]) in
  let run := getAllRowsColumnData env 1 None table in
  fst run = Ok ["30"; "31"] /\
  exists n,
    countReplies (trace (snd run)) = [n] /\
    List.length ["30"; "31"] = n /\
    ["30"; "31"] = map snd (innerTextReads (trace (snd run))) /\
    Forall2 (fun i l => isCellOf (fullCss (this table))
                          (orDefault (optField lo_locator None) "tr") 1 i l)
      (upTo n) (map fst (innerTextReads (trace (snd run)))) /\
    isReset (this (snd run)).
Proof.
  intros env run. split; [vm_compute; reflexivity |].
  refine (getAllRowsColumnData_reads_the_column_row_by_row env 1 None table
            ["30"; "31"] (snd run) (trace (snd run)) _ _).
  - vm_compute. reflexivity.
  - vm_compute. reflexivity.
Defined.

(** The texts of the four items of the list. *)
Lemma getTextAllMatchingObjects_reads_every_match_trimmed_witness :
  let run := getTextAllMatchingObjects fourItems (Some 0%nat) items in
  fst run = Ok ["item"; "item"; "item"; "item"] /\
  exists n,
    countReplies (trace (snd run)) = [n] /\
    List.length ["item"; "item"; "item"; "item"] = n /\
    ["item"; "item"; "item"; "item"] =
      map (fun lt => trim (snd lt)) (innerTextReads (trace (snd run))) /\
    Forall2 (fun i l => isNthOf (fullCss (this items)) i l)
      (upTo n) (map fst (innerTextReads (trace (snd run)))) /\
    isReset (this (snd run)) /\
    (Some 0%nat = None -> ["item"; "item"; "item"; "item"] = []).
Proof.
  intros run. split; [vm_compute; reflexivity |].
  refine (getTextAllMatchingObjects_reads_every_match_trimmed fourItems (Some 0%nat) items
            ["item"; "item"; "item"; "item"] (snd run) (trace (snd run)) _ _).
  - vm_compute. reflexivity.
  - vm_compute. reflexivity.
Defined.

(** A popup handle when the popup has been captured as page 7. *)
Lemma getPage_captures_the_popup_once_witness :
  let dialog := mkState (constructor "dialog"
                  (Some (mkConstructorOptions None (Some true) None))) (Some 7%nat) [] in
  let run := getPage fourItems dialog in
  (forall pp, popup dialog = Some pp ->
     fst run = Ok tt /\ trace (snd run) = [] /\
     page (this (snd run)) = Some pp /\ popup (snd run) = Some pp) /\
  (popup dialog = None ->
     (exists reply, trace (snd run) = [EvCall WaitForPopup reply]) /\
     (fst run = Ok tt ->
        exists pp, popup (snd run) = Some pp /\ page (this (snd run)) = Some pp) /\
     (forall e, fst run = Throw e ->
        popup (snd run) = None /\ page (this (snd run)) = None)).
Proof.
  intros dialog run.
  refine (getPage_captures_the_popup_once fourItems dialog
            (fst run) (snd run) (trace (snd run)) _ _ _).
  - reflexivity.
  - vm_compute. reflexivity.
  - vm_compute. reflexivity.
Defined.

(** [switchPage(1)] followed by [find('a')] on a handle that resolved
    page 3 before. *)
Lemma find_reads_the_page_without_resolving_it_witness :
  let resolved := mkState (set_page (Some 3%nat) (this items)) None [] in
  let run := bind (switchPage 1) (fun _ => find fourItems "a" None) resolved in
  targets (trace (snd run)) =
    [Nth (PageLocator 3%nat "ul > li a") 0; Nth (PageLocator 3%nat "ul > li a") 0] /\
  (page (this resolved) = None ->
     fst run = Throw (undefinedProperty "locator") /\ trace (snd run) = []) /\
  (forall p, page (this resolved) = Some p ->
     Forall (fun l => l = Nth (PageLocator p (fullCss (this resolved) ++ " " ++ "a"))
                           (orDefault (optField fo_index None) 0))
            (targets (trace (snd run))) /\
     filter isPageEvent (trace (snd run)) = []).
Proof.
  intros resolved run. split; [vm_compute; reflexivity |].
  refine (find_reads_the_page_without_resolving_it fourItems 1 "a" None resolved
            (fst run) (snd run) (trace (snd run)) _ _ _ _).
  - reflexivity.
  - reflexivity.
  - vm_compute. reflexivity.
  - vm_compute. reflexivity.
Defined.

(** A search for a value that mentions a password, from a narrowed
    handle. *)
Lemma getMetaTableMatchedRowIndices_prints_its_values_and_keeps_the_narrowing_witness :
  let env := staticEnv (cellsDom [["Header"]; ["Alice"; "30"]; ["Bob"; "30"]]) in
  let narrowed := withCss "table.results" table in
  let run := getMetaTableMatchedRowIndices env ["password: hunter2"] None narrowed in
  fst run = Ok [] /\
  consoleLines (trace (snd run)) = ["Received data: " ++ arrayToString ["password: hunter2"]] /\
  loggerLines (trace (snd run)) = [] /\
  fullCss (this (snd run)) = fullCss (this narrowed) /\
  fullXpath (this (snd run)) = fullXpath (this narrowed).
Proof.
  intros env narrowed run. split; [vm_compute; reflexivity |].
  refine (getMetaTableMatchedRowIndices_prints_its_values_and_keeps_the_narrowing env
            ["password: hunter2"] None narrowed (fst run) (snd run) (trace (snd run)) _ _).
  - vm_compute. reflexivity.
  - vm_compute. reflexivity.
Defined.

(** A narrowing followed by [click] on the four-item list. *)
Lemma chain_reset_witness :
  let run := chain fourItems [NContains "item" (Some (mkIndexOptions (Some 1)))]
               (TClick None) items in
  fst run = Ok tt /\ isReset (this (snd run)).
Proof.
  intros run. split; [vm_compute; reflexivity |].
  refine (chain_reset fourItems [NContains "item" (Some (mkIndexOptions (Some 1)))]
            (TClick None) items (snd run) _ _).
  - reflexivity.
  - vm_compute. reflexivity.
Defined.

(** The first call of [getAllObjects] on the list handle with an empty
    buffer. *)
Lemma getAllObjects_returns_whole_buffer_witness :
  let run := getAllObjects fourItems None bufferedItems in
  let hs := match fst run with Ok hs => hs | Throw _ => [] end in
  List.length hs = 4%nat /\
  exists found,
    tempLocators (this (snd run)) = Some ([] ++ found)%list /\
    List.length hs = (List.length (@nil Locator) + List.length found)%nat /\
    map objectDescriptor hs =
      map (indexedDescriptor (objectDescriptor (this bufferedItems)))
          (map snd (indexedFrom 0 ([] ++ found)%list)) /\
    NoDup (map objectDescriptor hs) /\
    Forall freshHandle hs.
Proof.
  intros run hs. split; [vm_compute; reflexivity |].
  refine (getAllObjects_returns_whole_buffer fourItems None bufferedItems [] hs (snd run) _ _).
  - reflexivity.
  - vm_compute. reflexivity.
Defined.

(** [getRowsLength] on a page where nothing matches. *)
Lemma getRowsLength_absent_root_witness :
  let run := getRowsLength nothingThere None table in
  fst run = Ok 0%nat /\ filter isElementCall (trace (snd run)) = [].
Proof.
  intros run.
  refine (getRowsLength_absent_root nothingThere None table
            (fst run) (snd run) (trace (snd run)) _ _ _).
  - vm_compute. reflexivity.
  - vm_compute. reflexivity.
  - vm_compute. reflexivity.
Defined.

(** ** Which rows the table searches read *)

Lemma rowRead_page ev : isPageEvent ev = true -> rowRead ev = None.
Proof. destruct ev as [T q r | |]; [destruct q |..]; cbn; congruence. Qed.

Lemma countRead_page ev : isPageEvent ev = true -> countRead ev = None.
Proof. destruct ev as [T q r | |]; [destruct q |..]; cbn; congruence. Qed.

Section RowReads.

Variable env : Env.

(** The scanning loop of [getMatchedRowIndices] reads the rows at the
    positions it is given, in order, and reports the positions of those
    that pass the test. *)
Lemma scanRows_reads_in_order rowsSel exact rowValues css n :
  forall k found st found' st',
    fullCss (this st) = css ->
    scanRows env rowsSel exact rowValues (map Z.of_nat (seq k n)) found st
      = (Ok found', st') ->
    exists new,
      appended st st' new /\ samePlace (this st) (this st') /\
      found' = (found ++ positionsFrom (Z.of_nat k)
                  (getMatchedRowIndices_flag exact rowValues)
                  (map (fun r => split newline (arrayToString (snd r))) (rowReads new)))%list /\
      Forall2 (fun i l => isRowOf css rowsSel i l) (map Z.of_nat (seq k n))
        (map fst (rowReads new)) /\
      countReads new = [].
Proof.
  unfold rowReads, countReads.
  induction n as [| n IH]; intros k found st found' st' C H; cbn [seq map scanRows] in H.
  - inversion H; subst. exists []. split; [reflexivity |]. split; [apply samePlace_refl |].
    cbn. rewrite app_nil_r. repeat split. constructor.
  - bind_step H; [| discriminate].
    apply getElement_spec in Ha as (n0 & Q0 & He).
    destruct (He _ eq_refl) as (p & _ & ->).
    destruct (quiet_fields _ _ _ Q0) as (_ & Ec & _).
    destruct Q0 as (A0 & F0 & S0).
    bind_step H; [| discriminate].
    apply call_inv in Ha as (E & ->).
    match type of E with Ok ?x = _ => rename x into texts end.
    apply IH in H as (n1 & A1 & S1 & -> & F2 & C1); [| cbn [this]; congruence].
    exists (n1 ++ EvCall (AllInnerTexts (Nth (SubLocator (PageLocator p (fullCss (this st)))
                            rowsSel) (Z.of_nat k))) (Ok texts) :: n0)%list.
    assert (I0 : collect rowRead n0 = [])
      by (apply page_event_silent; [exact rowRead_page | exact F0]).
    assert (C0 : collect countRead n0 = [])
      by (apply page_event_silent; [exact countRead_page | exact F0]).
    assert (Ek : Z.of_nat (S k) = Z.of_nat k + 1) by lia.
    split; [| split; [| split; [| split]]].
    + unfold appended in *. cbn [trace] in A1. rewrite A1, A0.
      repeat (rewrite <- app_assoc || rewrite <- app_comm_cons). reflexivity.
    + eapply samePlace_trans; [exact S0 | exact S1].
    + rewrite collect_app, collect_cons, I0. cbn [app rowRead map snd positionsFrom].
      rewrite Ek.
      destruct (getMatchedRowIndices_flag exact rowValues
                  (split newline (arrayToString texts)));
        [rewrite <- app_assoc |]; reflexivity.
    + rewrite collect_app, collect_cons, I0. cbn [app rowRead map fst seq].
      constructor; [exists p; rewrite C; reflexivity | exact F2].
    + rewrite collect_app, collect_cons, C0, C1. reflexivity.
Qed.

(** The row-collecting loop of [getMatchedRowIndex] reads the rows at the
    positions it is given, in order, and keeps those that split into more
    than one cell. *)
Lemma collectRows_reads_in_order rowsSel css indices :
  forall arr st arr' st',
    fullCss (this st) = css ->
    collectRows env rowsSel indices arr st = (Ok arr', st') ->
    exists new,
      appended st st' new /\ samePlace (this st) (this st') /\
      arr' = (arr ++ spec_filteredRows (map (fun r => splitRow (snd r)) (rowReads new)))%list /\
      Forall2 (fun i l => isRowOf css rowsSel i l) indices (map fst (rowReads new)) /\
      countReads new = [].
Proof.
  unfold rowReads, countReads.
  induction indices as [| i rest IH]; intros arr st arr' st' C H; cbn [collectRows] in H.
  - inversion H; subst. exists []. split; [reflexivity |]. split; [apply samePlace_refl |].
    cbn. rewrite app_nil_r. repeat split. constructor.
  - bind_step H; [| discriminate].
    apply getElement_spec in Ha as (n0 & Q0 & He).
    destruct (He _ eq_refl) as (p & _ & ->).
    destruct (quiet_fields _ _ _ Q0) as (_ & Ec & _).
    destruct Q0 as (A0 & F0 & S0).
    bind_step H; [| discriminate].
    apply call_inv in Ha as (E & ->).
    match type of E with Ok ?x = _ => rename x into texts end.
    apply IH in H as (n1 & A1 & S1 & -> & F2 & C1); [| cbn [this]; congruence].
    exists (n1 ++ EvCall (AllInnerTexts (Nth (SubLocator (PageLocator p (fullCss (this st)))
                            rowsSel) i)) (Ok texts) :: n0)%list.
    assert (I0 : collect rowRead n0 = [])
      by (apply page_event_silent; [exact rowRead_page | exact F0]).
    assert (C0 : collect countRead n0 = [])
      by (apply page_event_silent; [exact countRead_page | exact F0]).
    split; [| split; [| split; [| split]]].
    + unfold appended in *. cbn [trace] in A1. rewrite A1, A0.
      repeat (rewrite <- app_assoc || rewrite <- app_comm_cons). reflexivity.
    + eapply samePlace_trans; [exact S0 | exact S1].
    + rewrite collect_app, collect_cons, I0.
      cbn [app rowRead map snd spec_filteredRows filter].
      destruct (1 <? List.length (splitRow texts))%nat;
        [rewrite <- app_assoc |]; reflexivity.
    + rewrite collect_app, collect_cons, I0. cbn [app rowRead map fst].
      constructor; [exists p; rewrite C; reflexivity | exact F2].
    + rewrite collect_app, collect_cons, C0, C1. reflexivity.
Qed.

(** X22. A completed [getMatchedRowIndex] has asked once for the number [n]
    of rows under the effective selector and read the rows at positions 0
    to [n-1] in that order. It returns the position, within the rows read
    that split into more than one cell, of the first row its callback
    accepts, and -1 when it accepts none: rows of a single cell are not
    counted in the position. The handle is left reset. *)
Theorem getMatchedRowIndex_first_kept_row_of_the_rows_read_in_order
    rowValues options st i st' new :
  getMatchedRowIndex env rowValues options st = (Ok i, st') ->
  appended st st' new ->
  let rowsSel := orDefault (optField mo_locator options) "tr" in
  exists n,
    (exists p, countReads new =
                 [(SubLocator (PageLocator p (fullCss (this st))) rowsSel, n)]) /\
    Forall2 (fun k l => isRowOf (fullCss (this st)) rowsSel k l) (upTo n)
      (map fst (rowReads new)) /\
    FirstMatch
      (getMatchedRowIndex_callback (orDefault (optField mo_exactMatch options) false)
         (map unquote rowValues))
      (spec_filteredRows (map (fun r => splitRow (snd r)) (rowReads new))) i /\
    isReset (this st').
Proof.
  intros H A rowsSel. unfold getMatchedRowIndex in H. fold rowsSel in H.
  bind_step H; [| discriminate].
  apply waitTillElementToBeReady_spec in Ha as (nw & Qw & _).
  bind_step H; [| discriminate].
  apply getElement_spec in Ha as (n0 & Q0 & He).
  destruct (He _ eq_refl) as (p & _ & ->).
  pose proof (quiet_trans _ _ _ _ _ Qw Q0) as Q.
  destruct (quiet_fields _ _ _ Qw) as (_ & Ecw & _).
  destruct (quiet_fields _ _ _ Q) as (_ & Ec & _).
  destruct Q as (A0 & F0 & S0).
  bind_step H; [| discriminate].
  apply call_inv in Ha as (E & ->).
  match type of E with Ok ?x = _ => rename x into n end.
  bind_step H; [| discriminate].
  apply (collectRows_reads_in_order _ (fullCss (this st))) in Ha
    as (n1 & A1 & S1 & -> & F2 & C1); [| exact Ec].
  bind_step H; [| discriminate].
  rewrite clearFullCssAndXPath_run in Ha. inversion Ha; subst; clear Ha.
  inversion H; subst; clear H. cbn [app].
  assert (I0 : collect rowRead (n0 ++ nw) = [])
    by (apply page_event_silent; [exact rowRead_page | exact F0]).
  assert (C0 : collect countRead (n0 ++ nw) = [])
    by (apply page_event_silent; [exact countRead_page | exact F0]).
  assert (En : new = (n1 ++ EvCall (Count (SubLocator (PageLocator p (fullCss (this s)))
                        rowsSel)) (Ok n) :: n0 ++ nw)%list).
  { unfold appended in *. cbn [trace] in *. apply (app_inv_tail (trace st)).
    rewrite <- A, A1, A0.
    repeat (rewrite <- app_assoc || rewrite <- app_comm_cons). reflexivity. }
  assert (Ei : rowReads new = rowReads n1).
  { unfold rowReads. rewrite En, collect_app, collect_cons, I0. reflexivity. }
  exists n. rewrite Ei. split; [| split; [| split]].
  - exists p. unfold countReads in *.
    rewrite En, collect_app, collect_cons, C0, C1, Ecw. reflexivity.
  - exact F2.
  - match goal with
    | |- FirstMatch ?f ?l _ => pose proof (findIndex_FirstMatch f l) as F;
                               pose proof (findIndex_nonnegative f l) as G
    end.
    destruct (findIndex _ _ >=? 0) eqn:Ge; [exact F |].
    destruct F as [[_ Hall] | (m & x & _ & Hm & Px & _)].
    + left. split; [reflexivity | exact Hall].
    + exfalso. symmetry in G. apply Bool.not_true_iff_false in G. apply G.
      apply existsb_exists. exists x. split; [| exact Px].
      eapply nth_error_In; eassumption.
  - split; reflexivity.
Qed.

End RowReads.

(** An exact search for Alice in the scenario table: three rows are
    counted and read in order; the header row has one cell and is not
    counted in the position, so Alice is at position 0. *)
Lemma getMatchedRowIndex_first_kept_row_of_the_rows_read_in_order_witness :
  let options := Some (mkMatchOptions None (Some true)) in
  let run := getMatchedRowIndex (staticEnv (tableDom 1 scenarioRows)) ["alice"] options table in
  fst run = Ok 0 /\
  map snd (countReads (trace (snd run))) = [3%nat] /\
  exists n,
    (exists p, countReads (trace (snd run)) =
                 [(SubLocator (PageLocator p (fullCss (this table)))
                     (orDefault (optField mo_locator options) "tr"), n)]) /\
    Forall2 (fun k l => isRowOf (fullCss (this table))
                          (orDefault (optField mo_locator options) "tr") k l) (upTo n)
      (map fst (rowReads (trace (snd run)))) /\
    FirstMatch
      (getMatchedRowIndex_callback (orDefault (optField mo_exactMatch options) false)
         (map unquote ["alice"]))
      (spec_filteredRows (map (fun r => splitRow (snd r)) (rowReads (trace (snd run))))) 0 /\
    isReset (this (snd run)).
Proof.
  intros options run. split; [vm_compute; reflexivity |].
  split; [vm_compute; reflexivity |].
  refine (getMatchedRowIndex_first_kept_row_of_the_rows_read_in_order
            (staticEnv (tableDom 1 scenarioRows)) ["alice"] options table 0
            (snd run) (trace (snd run)) _ _).
  - vm_compute. reflexivity.
  - vm_compute. reflexivity.
Defined.

(** ** C4: [getMatchedRowIndices] *)

(** C4. [getMatchedRowIndices] does not return the post-filter positions
    of the matching rows. Every completed run asks for the number [n] of
    matches of the handle itself, not of its rows, reads the rows at
    positions 0 to [n-1] in that order and returns the raw positions of
    those that match, with no row left out for having a single cell. On the
    scenario table (a one-cell header, then Alice/30 and Bob/30) a handle
    that matches the one table reads the header only and returns nothing
    for the target 30, where the post-filter positions of the matching rows
    are 0 and 1; and when the handle happens to match as many elements as
    there are rows, the result is 1 and 2, the header counted. *)
Theorem getMatchedRowIndices_counts_the_handle_and_keeps_every_row :
  (forall env rowValues options st found st' new,
     getMatchedRowIndices env rowValues options st = (Ok found, st') ->
     appended st st' new ->
     let rowsSel := orDefault (optField mo_locator options) "tr" in
     exists n,
       (exists p, countReads new = [(PageLocator p (fullCss (this st)), n)]) /\
       Forall2 (fun k l => isRowOf (fullCss (this st)) rowsSel k l) (upTo n)
         (map fst (rowReads new)) /\
       found = positionsFrom 0
                 (spec_rowMatches (orDefault (optField mo_exactMatch options) false)
                    (map unquote rowValues))
                 (map (fun r => split newline (arrayToString (snd r))) (rowReads new))) /\
  spec_getMatchedRowIndices false ["30"] (map (fun t => [t]) scenarioRows) = [0; 1] /\
  (let run := getMatchedRowIndices (staticEnv (tableDom 1 scenarioRows)) ["30"] None table in
   fst run = Ok [] /\
   map snd (countReads (trace (snd run))) = [1%nat] /\
   map snd (rowReads (trace (snd run))) = [["Header"]]) /\
  (let run := getMatchedRowIndices (staticEnv (tableDom 3 scenarioRows)) ["30"] None table in
   fst run = Ok [1; 2] /\
   map snd (rowReads (trace (snd run))) = map (fun t => [t]) scenarioRows).
Proof.
  split; [| split; [vm_compute; reflexivity |];
            split; repeat split; vm_compute; reflexivity].
  intros env rowValues options st found st' new H A rowsSel.
  unfold getMatchedRowIndices in H. fold rowsSel in H.
  bind_step H; [| discriminate].
  apply getElement_spec in Ha as (n0 & Q0 & He).
  destruct (He _ eq_refl) as (p & _ & ->).
  destruct (quiet_fields _ _ _ Q0) as (_ & Ec & _).
  destruct Q0 as (A0 & F0 & S0).
  bind_step H; [| discriminate].
  apply call_inv in Ha as (E & ->).
  match type of E with Ok ?x = _ => rename x into n end.
  bind_step H; [| discriminate].
  apply (scanRows_reads_in_order env _ _ _ (fullCss (this st)) n 0%nat) in Ha
    as (n1 & A1 & S1 & -> & F2 & C1); [| exact Ec].
  bind_step H; [| discriminate].
  rewrite clearFullCssAndXPath_run in Ha. inversion Ha; subst; clear Ha.
  inversion H; subst; clear H. cbn [app].
  assert (I0 : collect rowRead n0 = [])
    by (apply page_event_silent; [exact rowRead_page | exact F0]).
  assert (C0 : collect countRead n0 = [])
    by (apply page_event_silent; [exact countRead_page | exact F0]).
  assert (En : new = (n1 ++ EvCall (Count (PageLocator p (fullCss (this st)))) (Ok n)
                        :: n0)%list).
  { unfold appended in *. cbn [trace] in *. apply (app_inv_tail (trace st)).
    rewrite <- A, A1, A0.
    repeat (rewrite <- app_assoc || rewrite <- app_comm_cons). reflexivity. }
  assert (Ei : rowReads new = rowReads n1).
  { unfold rowReads. rewrite En, collect_app, collect_cons, I0. reflexivity. }
  exists n. rewrite Ei. split; [| split].
  - exists p. unfold countReads in *.
    rewrite En, collect_app, collect_cons, C0, C1. reflexivity.
  - exact F2.
  - apply positionsFrom_ext. intros x. apply getMatchedRowIndices_flag_spec.
Qed.

(** ** Runs on an engine that does what it is asked *)

Lemma Obliging_sameBase env h h' : sameBase h h' -> Obliging env h -> Obliging env h'.
Proof.
  intros (_ & _ & Ep & Ei) O. unfold Obliging in *. rewrite Ep, Ei. exact O.
Qed.

(** The pages of the examples oblige every handle that is no popup handle
    and selects one of their pages. *)
Lemma staticEnv_obliging d h :
  isPopupExist h = false ->
  (exists p, index (d_pages d) (pageIndex h) = Some p) ->
  Obliging (staticEnv d) h.
Proof.
  intros P (p & I). unfold Obliging. rewrite P.
  split; [discriminate |]. split; [intros _ tr; exists (d_pages d), p; split; [reflexivity | exact I] |].
  repeat split; intros; try reflexivity. eexists. reflexivity.
Qed.

Section Obliged.

Variable env : Env.

Lemma obliged_bind {A B : Type} (m : M A) (k : A -> M B) :
  obliged env m -> tidy m -> (forall a, obliged env (k a)) -> obliged env (bind m k).
Proof.
  intros Hm Tm Hk st O. destruct (Hm st O) as (a & s & E).
  destruct (Tm _ _ _ E) as (B1 & _).
  destruct (Hk a s (Obliging_sameBase _ _ _ B1 O)) as (b & s' & E').
  exists b, s'. rewrite (bind_Ok _ _ _ _ _ E). exact E'.
Qed.

Lemma obliged_ret {A : Type} (a : A) : obliged env (ret a).
Proof. intros st _. exists a, st. reflexivity. Qed.

Lemma obliged_getThis : obliged env getThis.
Proof. intros st _. exists (this st), st. reflexivity. Qed.

Lemma obliged_logger_info msg : obliged env (logger_info msg).
Proof. intros st _. rewrite logger_info_run. eauto. Qed.

Lemma obliged_clearFullCssAndXPath : obliged env clearFullCssAndXPath.
Proof. intros st _. rewrite clearFullCssAndXPath_run. eauto. Qed.

Lemma obliged_call {T : Type} (q : Query T) :
  (forall h, Obliging env h -> forall tr, exists a, env T tr q = Ok a) ->
  obliged env (call env q).
Proof.
  intros Hq st O. destruct (Hq _ O (trace st)) as (a & E).
  exists a. unfold call. rewrite E. eauto.
Qed.

Lemma obliged_getPage st :
  Obliging env (this st) ->
  exists p st', getPage env st = (Ok tt, st') /\ page (this st') = Some p.
Proof.
  destruct st as [[l pg d isP pi c x t ts] pp tr]. intros (Op & Oc & _).
  cbn [this isPopupExist pageIndex] in Op, Oc.
  cbv [getPage bind getThis getPopup setPopup modifyThis call ret
       this popup trace isPopupExist pageIndex].
  destruct isP.
  - destruct pp as [p |]; [exists p; eexists; split; reflexivity |].
    destruct (Op eq_refl tr) as (p & E). rewrite E.
    exists p. eexists. split; reflexivity.
  - destruct (Oc eq_refl tr) as (pages & p & E & I). rewrite E.
    exists p. eexists. split; [reflexivity | exact I].
Qed.

Lemma obliged_waitTillElementToBeReady : obliged env (waitTillElementToBeReady env).
Proof.
  intros st O. destruct (obliged_getPage st O) as (p & s1 & E1 & P1).
  unfold waitTillElementToBeReady. rewrite (bind_Ok _ _ _ _ _ E1).
  assert (O1 : Obliging env (this s1)).
  { eapply Obliging_sameBase; [| exact O]. exact (proj1 (tidy_getPage env _ _ _ E1)). }
  assert (Et : thisPage "waitForTimeout" s1 = (Ok p, s1))
    by (unfold thisPage, bind, getThis; cbn; rewrite P1; reflexivity).
  rewrite (bind_Ok _ _ _ _ _ Et).
  assert (Ob : obliged env
                 (bind (call env (WaitForTimeout p 10)) (fun _ =>
                  bind (call env (WaitForLoadState p None)) (fun _ =>
                  bind (call env (WaitForLoadState p (Some "domcontentloaded"))) (fun _ =>
                  call env (WaitForLoadState p (Some "networkidle"))))))).
  { repeat (apply obliged_bind; [| apply tidy_call | intros _]);
      apply obliged_call; intros h Oh tr; eexists; apply Oh. }
  exact (Ob s1 O1).
Qed.

Lemma obliged_getElement : obliged env (getElement env).
Proof.
  intros st O. destruct (obliged_waitTillElementToBeReady st O) as ([] & s1 & E1).
  destruct (waitTillElementToBeReady_spec env _ _ _ E1) as (n & _ & Pg).
  destruct (Pg eq_refl) as (p & P1).
  unfold getElement. rewrite (bind_Ok _ _ _ _ _ E1).
  assert (Et : thisPage "locator" s1 = (Ok p, s1))
    by (unfold thisPage, bind, getThis; cbn; rewrite P1; reflexivity).
  rewrite (bind_Ok _ _ _ _ _ Et), (bind_Ok _ _ _ _ _ (getLocator_run s1)).
  eexists. eexists. reflexivity.
Qed.

Lemma obliged_pressIfAsked keyPress : obliged env (pressIfAsked env keyPress).
Proof.
  destruct keyPress as [k |]; cbn [pressIfAsked]; [| apply obliged_ret].
  apply obliged_bind; [apply obliged_getElement | apply tidy_getElement | intros e].
  apply obliged_call. intros h Oh tr. eexists. apply Oh.
Qed.

Lemma obliged_checkTarget i : obliged env (checkTarget env i).
Proof.
  unfold checkTarget. destruct (gt i (-1));
    (apply obliged_bind; [apply obliged_getElement | apply tidy_getElement
                         | intros e; apply obliged_ret]).
Qed.

Lemma obliged_toggle (toggle : Locator -> bool -> Query unit) obj force (doneMsg skipMsg : UiActions -> string) :
  (forall h, Obliging env h -> forall tr l f, env unit tr (toggle l f) = Ok tt) ->
  obliged env
    (bind (call env (GetAttribute obj "disabled")) (fun flag =>
       bind (if negb (truthy flag)
             then bind (call env (toggle obj force)) (fun _ =>
                    bind getThis (fun h => logger_info (doneMsg h)))
             else bind getThis (fun h => logger_info (skipMsg h)))
            (fun _ => clearFullCssAndXPath))).
Proof.
  intros Ht.
  apply obliged_bind;
    [apply obliged_call; intros h Oh tr; apply Oh | apply tidy_call | intros flag].
  destruct (negb (truthy flag)).
  - apply obliged_bind; [| repeat tidy_step env | intros _; apply obliged_clearFullCssAndXPath].
    apply obliged_bind;
      [apply obliged_call; intros h Oh tr; eexists; apply (Ht h Oh) | apply tidy_call | intros _].
    apply obliged_bind; [apply obliged_getThis | apply tidy_getThis | intros h].
    apply obliged_logger_info.
  - apply obliged_bind; [| repeat tidy_step env | intros _; apply obliged_clearFullCssAndXPath].
    apply obliged_bind; [apply obliged_getThis | apply tidy_getThis | intros h].
    apply obliged_logger_info.
Qed.

Lemma obliged_check options : obliged env (check env options).
Proof.
  unfold check.
  apply obliged_bind;
    [apply obliged_waitTillElementToBeReady | apply tidy_waitTillElementToBeReady | intros _].
  apply obliged_bind; [apply obliged_checkTarget | apply tidy_checkTarget | intros obj].
  apply (obliged_toggle CheckBox obj _
           (fun h => objectDescriptor h ++ " - checked the checkbox")
           (fun h => objectDescriptor h ++ " - unable to check the checkbox, it's disabled")).
  intros h Oh tr l f. apply Oh.
Qed.

Lemma obliged_uncheck options : obliged env (uncheck env options).
Proof.
  unfold uncheck.
  apply obliged_bind; [apply obliged_checkTarget | apply tidy_checkTarget | intros obj].
  apply (obliged_toggle UncheckBox obj _
           (fun h => objectDescriptor h ++ " - unchecked the checkbox")
           (fun h => objectDescriptor h ++ " - unable to uncheck the checkbox, it's disabled")).
  intros h Oh tr l f. apply Oh.
Qed.

(** *** The log is reached *)

Lemma reachesLog_after {A B : Type} (line : UiActions -> string) (m : M A) (k : A -> M B) :
  (forall h h', samePlace h h' -> line h' = line h) ->
  silent m -> obliged env m -> (forall a, reachesLog env line (k a)) ->
  reachesLog env line (bind m k).
Proof.
  intros Hl Sm Om Hk st r st' O H.
  destruct (Om st O) as (a & s & E). rewrite (bind_Ok _ _ _ _ _ E) in H.
  destruct (Sm _ _ _ E) as (n1 & A1 & F1 & S1).
  destruct (noLog_silent _ F1) as [L1 _].
  assert (O1 : Obliging env (this s))
    by (eapply Obliging_sameBase; [apply samePlace_sameBase; exact S1 | exact O]).
  destruct (Hk a s r st' O1 H) as (n2 & A2 & L2).
  exists (n2 ++ n1)%list. split; [eapply appended_trans; eassumption |].
  unfold loggerLines in *. rewrite collect_app, L1, L2, (Hl _ _ S1). reflexivity.
Qed.

Lemma reachesLog_log (line : UiActions -> string) (fin : M unit) :
  mute fin ->
  reachesLog env line (bind getThis (fun h => bind (logger_info (line h)) (fun _ => fin))).
Proof.
  intros Hf st r st' _ H.
  bind_step H; [| inversion H]. inversion Ha; subst; clear Ha.
  bind_step H; [| rewrite logger_info_run in H; discriminate].
  rewrite logger_info_run in Ha. inversion Ha; subst; clear Ha.
  apply Hf in H. cbn in H.
  exists (logEvents (line (this s))). split; [exact H |].
  apply collect_logEvents_logger.
Qed.

Lemma obliged_unit_call (q : Query unit) :
  (forall h, Obliging env h -> forall tr, env unit tr q = Ok tt) ->
  obliged env (call env q).
Proof. intros Hq. apply obliged_call. intros h Oh tr. eexists. apply (Hq h Oh). Qed.

Lemma setValue_reachesLog v options :
  reachesLog env (fun h => valueLogLine " - set the value: " (objectDescriptor h) v)
    (setValue env v options).
Proof.
  unfold setValue.
  apply reachesLog_after;
    [intros; apply valueLogLine_invariant; assumption | apply silent_getElement
    | apply obliged_getElement |]. intros e1.
  apply reachesLog_after;
    [intros; apply valueLogLine_invariant; assumption | apply silent_call
    | apply obliged_unit_call; intros h Oh tr; apply Oh |]. intros _.
  apply reachesLog_after;
    [intros; apply valueLogLine_invariant; assumption | apply silent_getElement
    | apply obliged_getElement |]. intros e2.
  apply reachesLog_after;
    [intros; apply valueLogLine_invariant; assumption | apply silent_call
    | apply obliged_unit_call; intros h Oh tr; apply Oh |]. intros _.
  apply reachesLog_after;
    [intros; apply valueLogLine_invariant; assumption | apply silent_pressIfAsked
    | apply obliged_pressIfAsked |]. intros _.
  apply (reachesLog_log (fun h => valueLogLine " - set the value: " (objectDescriptor h) v)).
  apply mute_clearFullCssAndXpath.
Qed.

Lemma type_reachesLog v options :
  reachesLog env (fun h => valueLogLine " - typed the value: " (objectDescriptor h) v)
    (type env v options).
Proof.
  unfold type.
  apply reachesLog_after;
    [intros; apply valueLogLine_invariant; assumption | apply silent_getElement
    | apply obliged_getElement |]. intros e1.
  apply reachesLog_after;
    [intros; apply valueLogLine_invariant; assumption | apply silent_call
    | apply obliged_unit_call; intros h Oh tr; apply Oh |]. intros _.
  apply reachesLog_after;
    [intros; apply valueLogLine_invariant; assumption | apply silent_pressIfAsked
    | apply obliged_pressIfAsked |]. intros _.
  apply (reachesLog_log (fun h => valueLogLine " - typed the value: " (objectDescriptor h) v)).
  apply mute_clearFullCssAndXPath.
Qed.

Lemma pressSequentially_reachesLog v options :
  reachesLog env (fun h => valueLogLine " - pressed sequentially: " (objectDescriptor h) v)
    (pressSequentially env v options).
Proof.
  unfold pressSequentially.
  apply reachesLog_after;
    [intros; apply valueLogLine_invariant; assumption | apply silent_getElement
    | apply obliged_getElement |]. intros e1.
  apply reachesLog_after;
    [intros; apply valueLogLine_invariant; assumption | apply silent_call
    | apply obliged_unit_call; intros h Oh tr; apply Oh |]. intros _.
  apply reachesLog_after;
    [intros; apply valueLogLine_invariant; assumption | apply silent_pressIfAsked
    | apply obliged_pressIfAsked |]. intros _.
  apply (reachesLog_log
           (fun h => valueLogLine " - pressed sequentially: " (objectDescriptor h) v)).
  apply mute_clearFullCssAndXPath.
Qed.

End Obliged.

Lemma reachesLog_logs {O : Type} (label : string)
    (action : Env -> string -> option O -> M unit) :
  (forall env v options,
     reachesLog env (fun h => valueLogLine label (objectDescriptor h) v)
       (action env v options)) ->
  MasksPasswords label action ->
  LogsItsLine label action.
Proof.
  intros R Mk env v options st r st' new Ob H A desc.
  destruct (R env v options st r st' Ob H) as (new' & A' & L).
  rewrite <- (appended_unique _ _ _ _ A A') in L. cbn beta in L. fold desc in L.
  unfold valueLogLine in L.
  destruct (Mk env v options st r st' new H A) as (Mp & _). fold desc in Mp.
  split; intros E.
  - rewrite (maskedValue_masked _ v E) in L. split; [exact L |].
    exact (proj1 (proj2 (Mp E))).
  - rewrite (maskedValue_plain _ v E) in L. exact L.
Qed.

Lemma logs_the_same {O : Type} (label : string)
    (action : Env -> string -> option O -> M unit) :
  LogsItsLine label action -> MaskedRunsLogTheSame action.
Proof.
  intros L env1 env2 v1 v2 options st r1 st1 new1 r2 st2 new2 O1 O2 H1 A1 H2 A2 E.
  destruct (proj1 (L env1 v1 options st r1 st1 new1 O1 H1 A1) E) as (L1 & C1).
  destruct (proj1 (L env2 v2 options st r2 st2 new2 O2 H2 A2) E) as (L2 & C2).
  rewrite L1, L2, C1, C2. split; [discriminate |]. split; reflexivity.
Qed.

(** C8. For [setValue], [type] and [pressSequentially]: when the handle's
    descriptor contains the word password in any letter case, the line
    handed to the logger is the descriptor, the action's label and the
    marker ******, whatever the input value, and nothing is printed to the
    console; two runs that differ in the input value and both reach the log
    have logged the same lines. When the descriptor does not contain the
    word, the line ends with the input value. On an engine that does what
    it is asked each of the three actions does hand its line to the logger,
    exactly once and as just described, [setValue] before the throw it
    ends in; so two such runs that differ only in the input value log the
    same line when the descriptor mentions a password. *)
Theorem value_actions_mask_passwords :
  MasksPasswords " - set the value: " setValue /\
  MasksPasswords " - typed the value: " type /\
  MasksPasswords " - pressed sequentially: " pressSequentially /\
  MaskedRunsAgree setValue /\
  MaskedRunsAgree type /\
  MaskedRunsAgree pressSequentially /\
  (forall desc w, includes desc w = true -> toLowerCase w = "password" ->
                  includes (toLowerCase desc) "password" = true) /\
  LogsItsLine " - set the value: " setValue /\
  LogsItsLine " - typed the value: " type /\
  LogsItsLine " - pressed sequentially: " pressSequentially /\
  MaskedRunsLogTheSame setValue /\
  MaskedRunsLogTheSame type /\
  MaskedRunsLogTheSame pressSequentially.
Proof.
  assert (M1 : MasksPasswords " - set the value: " setValue)
    by (apply logsLine_masks; intros; apply setValue_logsLine).
  assert (M2 : MasksPasswords " - typed the value: " type)
    by (apply logsLine_masks; intros; apply type_logsLine).
  assert (M3 : MasksPasswords " - pressed sequentially: " pressSequentially)
    by (apply logsLine_masks; intros; apply pressSequentially_logsLine).
  assert (L1 : LogsItsLine " - set the value: " setValue)
    by (apply reachesLog_logs; [intros; apply setValue_reachesLog | exact M1]).
  assert (L2 : LogsItsLine " - typed the value: " type)
    by (apply reachesLog_logs; [intros; apply type_reachesLog | exact M2]).
  assert (L3 : LogsItsLine " - pressed sequentially: " pressSequentially)
    by (apply reachesLog_logs; [intros; apply pressSequentially_reachesLog | exact M3]).
  split; [exact M1 |]. split; [exact M2 |]. split; [exact M3 |].
  split; [exact (masks_agree _ _ M1) |].
  split; [exact (masks_agree _ _ M2) |].
  split; [exact (masks_agree _ _ M3) |].
  split; [intros desc w H E; rewrite <- E; apply includes_toLowerCase; exact H |].
  split; [exact L1 |]. split; [exact L2 |]. split; [exact L3 |].
  split; [exact (logs_the_same _ _ L1) |].
  split; [exact (logs_the_same _ _ L2) | exact (logs_the_same _ _ L3)].
Qed.

(** On the password field of the examples, [setValue] with two different
    values logs the same masked line both times, and nothing reaches the
    console, although both runs end in the throw of the undeclared reset;
    on the menu item, [type] logs the line that ends with the value
    typed. *)
Lemma value_actions_mask_passwords_witness :
  let field := start (constructor "#pw"
                 (Some (mkConstructorOptions (Some "Login PassWord field") None None))) in
  let run1 := setValue fourItems "hunter2" None field in
  let run2 := setValue fourItems "12345" None field in
  let run3 := type fourItems "soup" None items in
  fst run1 = Throw (notAFunction "clearFullCssAndXpath") /\
  loggerLines (trace (snd run1)) = ["Login PassWord field - set the value: ******"] /\
  consoleLines (trace (snd run1)) = [] /\
  (loggerLines (trace (snd run1)) <> [] /\
   loggerLines (trace (snd run1)) = loggerLines (trace (snd run2)) /\
   consoleLines (trace (snd run1)) = consoleLines (trace (snd run2))) /\
  ((includes (toLowerCase (objectDescriptor (this items))) "password" = true ->
      loggerLines (trace (snd run3)) =
        [objectDescriptor (this items) ++ " - typed the value: " ++ "******"] /\
      consoleLines (trace (snd run3)) = []) /\
   (includes (toLowerCase (objectDescriptor (this items))) "password" = false ->
      loggerLines (trace (snd run3)) =
        [objectDescriptor (this items) ++ " - typed the value: " ++ "soup"])).
Proof.
  intros field run1 run2 run3.
  do 3 (split; [vm_compute; reflexivity |]).
  split.
  - refine (proj1 (proj2 (proj2 (proj2 (proj2 (proj2 (proj2 (proj2 (proj2 (proj2 (proj2
              value_actions_mask_passwords))))))))))
              fourItems fourItems "hunter2" "12345" None field
              (fst run1) (snd run1) (trace (snd run1))
              (fst run2) (snd run2) (trace (snd run2)) _ _ _ _ _ _ _).
    + apply staticEnv_obliging; [reflexivity | exists 0%nat; reflexivity].
    + apply staticEnv_obliging; [reflexivity | exists 0%nat; reflexivity].
    + vm_compute. reflexivity.
    + vm_compute. reflexivity.
    + vm_compute. reflexivity.
    + vm_compute. reflexivity.
    + vm_compute. reflexivity.
  - refine (proj1 (proj2 (proj2 (proj2 (proj2 (proj2 (proj2 (proj2 (proj2
              value_actions_mask_passwords))))))))
              fourItems "soup" None items
              (fst run3) (snd run3) (trace (snd run3)) _ _ _).
    + apply staticEnv_obliging; [reflexivity | exists 0%nat; reflexivity].
    + vm_compute. reflexivity.
    + vm_compute. reflexivity.
Defined.

(** ** C10: the element [check] and [uncheck] act on *)

(** A completed run of [check] or [uncheck] has read the attribute once and
    acted on [obj] alone: once, for the read, when the element is disabled,
    twice, for the read and the action, when it is not. *)
Lemma ToggleRun_completed toggle obj force doneMsg skipMsg r new :
  (forall l f, callTarget (toggle l f) = Some l) ->
  (forall l f rc, disabledReply (EvCall (toggle l f) rc) = None) ->
  ToggleRun toggle obj force doneMsg skipMsg r new ->
  r = Ok tt ->
  exists flag,
    disabledReads new = [flag] /\
    targets new = if truthy flag then [obj] else [obj; obj].
Proof.
  intros Ht Hd (pre & F & Shape) Hr.
  assert (Tpre : collect eventTarget pre = [])
    by (apply page_event_silent; [exact eventTarget_page | exact F]).
  assert (Dpre : collect disabledReply pre = [])
    by (apply page_event_silent; [exact disabledReply_page | exact F]).
  unfold targets, disabledReads.
  destruct Shape as [(_ & e & ->) | [(e & -> & _) | [(fl & Tf & _ & ->)
                    | [(fl & Tf & _ & ->) | (fl & e & _ & -> & _)]]]];
    try discriminate.
  - exists fl. rewrite Tf, !collect_app, !collect_cons, Tpre, Dpre,
      collect_logEvents_targets, collect_logEvents_disabled.
    split; reflexivity.
  - exists fl. rewrite Tf, !collect_app, !collect_cons, Tpre, Dpre, Hd,
      collect_logEvents_targets, collect_logEvents_disabled.
    cbn [eventTarget]. rewrite Ht. split; reflexivity.
Qed.

(** C10. Whatever the options, [check] and [uncheck] act on the first
    element of the current match set: a given [objIndex] is turned into -1,
    an absent one stays [undefined], neither passes the greater-than -1
    test, and every element call of the run goes to [first()] of the
    locator built from the effective selector. A run that completes has
    read the ["disabled"] attribute of that first element and, unless the
    value read is truthy, made its second and last element call on it, the
    check or uncheck; and on an engine that does what it is asked the run
    does complete. *)
Theorem check_and_uncheck_ignore_objIndex env options st r st' new :
  check env options st = (r, st') \/ uncheck env options st = (r, st') ->
  appended st st' new ->
  (forall i, optField ao_objIndex options = Some i -> checkObjIndex options = Some (-1)) /\
  (optField ao_objIndex options = None -> checkObjIndex options = None) /\
  gt (checkObjIndex options) (-1) = false /\
  exists p,
    let obj := First (PageLocator p (fullCss (this st))) in
    Forall (fun l => l = obj) (targets new) /\
    (r = Ok tt ->
       exists flag,
         disabledReads new = [flag] /\
         targets new = if truthy flag then [obj] else [obj; obj]) /\
    (Obliging env (this st) -> r = Ok tt).
Proof.
  intros H A.
  destruct (checkObjIndex_never_selects options) as (H1 & H2 & H3).
  repeat (split; [assumption |]).
  destruct H as [H | H].
  - destruct (check_run env _ _ _ _ _ H A) as (p & R). exists p. cbn zeta.
    split; [eapply ToggleRun_targets; [| exact R]; reflexivity |].
    split; [eapply ToggleRun_completed; [| | exact R]; reflexivity |].
    intros Ob. destruct (obliged_check env options st Ob) as ([] & s & E). congruence.
  - destruct (uncheck_run env _ _ _ _ _ H A) as (p & R). exists p. cbn zeta.
    split; [eapply ToggleRun_targets; [| exact R]; reflexivity |].
    split; [eapply ToggleRun_completed; [| | exact R]; reflexivity |].
    intros Ob. destruct (obliged_uncheck env options st Ob) as ([] & s & E). congruence.
Qed.

(** [check({ objIndex: 2 })] and [uncheck({ objIndex: 2 })] on the four-item
    list are instances of the theorem: both complete, and the attribute
    read and the action go to [first()], not to the third item. *)
Lemma check_and_uncheck_ignore_objIndex_witness :
  let options := Some (mkActionOptions (Some 2) None) in
  let checked := check fourItems options items in
  let unchecked := uncheck fourItems options items in
  (fst checked = Ok tt /\
   targets (trace (snd checked)) =
     [First (PageLocator 0%nat "ul > li"); First (PageLocator 0%nat "ul > li")] /\
   exists p,
     let obj := First (PageLocator p (fullCss (this items))) in
     Forall (fun l => l = obj) (targets (trace (snd checked))) /\
     (fst checked = Ok tt ->
        exists flag,
          disabledReads (trace (snd checked)) = [flag] /\
          targets (trace (snd checked)) = if truthy flag then [obj] else [obj; obj]) /\
     (Obliging fourItems (this items) -> fst checked = Ok tt)) /\
  (fst unchecked = Ok tt /\
   targets (trace (snd unchecked)) =
     [First (PageLocator 0%nat "ul > li"); First (PageLocator 0%nat "ul > li")] /\
   exists p,
     let obj := First (PageLocator p (fullCss (this items))) in
     Forall (fun l => l = obj) (targets (trace (snd unchecked))) /\
     (fst unchecked = Ok tt ->
        exists flag,
          disabledReads (trace (snd unchecked)) = [flag] /\
          targets (trace (snd unchecked)) = if truthy flag then [obj] else [obj; obj]) /\
     (Obliging fourItems (this items) -> fst unchecked = Ok tt)).
Proof.
  intros options checked unchecked. split.
  - split; [vm_compute; reflexivity |]. split; [vm_compute; reflexivity |].
    refine (proj2 (proj2 (proj2
              (check_and_uncheck_ignore_objIndex fourItems options items
                 (fst checked) (snd checked) (trace (snd checked)) _ _)))).
    + left. vm_compute. reflexivity.
    + vm_compute. reflexivity.
  - split; [vm_compute; reflexivity |]. split; [vm_compute; reflexivity |].
    refine (proj2 (proj2 (proj2
              (check_and_uncheck_ignore_objIndex fourItems options items
                 (fst unchecked) (snd unchecked) (trace (snd unchecked)) _ _)))).
    + right. vm_compute. reflexivity.
    + vm_compute. reflexivity.
Defined.

(** ** What reaches the console *)

Section Console.

Variable env : Env.
Variable playwright_page : option Page.

Lemma tidy_staticWait : tidy (staticWait env playwright_page 100 true).
Proof.
  intros st r st' H.
  unfold staticWait, console_log, emit, bind in H. cbn in H.
  destruct playwright_page as [p |]; cbn in H; inversion H; subst; clear H;
    (split; [apply sameBase_refl |]).
  - eexists [_; _; _]. split; [reflexivity |].
    repeat constructor.
  - eexists [_; _]. split; [reflexivity |]. repeat constructor.
Qed.

Lemma tidy_getTextAllMatchingObjects_loop indices :
  forall arr, tidy (getTextAllMatchingObjects_loop env playwright_page indices arr).
Proof.
  induction indices as [| i rest IH]; intros arr; cbn [getTextAllMatchingObjects_loop];
    [apply tidy_ret |].
  apply tidy_bind; [apply tidy_staticWait | intros _].
  apply tidy_bind; [apply tidy_getElement | intros e].
  apply tidy_bind; [apply tidy_call | intros t]. apply IH.
Qed.

Lemma tidy_getAllRowsColumnData_loop rows column indices :
  forall arr, tidy (getAllRowsColumnData_loop env rows column indices arr).
Proof.
  induction indices as [| i rest IH]; intros arr; cbn [getAllRowsColumnData_loop];
    [apply tidy_ret |].
  apply tidy_bind; [apply tidy_getElement | intros e].
  apply tidy_bind; [apply tidy_call | intros t]. apply IH.
Qed.

Lemma tidy_further f : tidy (further env playwright_page f).
Proof.
  destruct f; cbn [further];
    unfold containsClick, getTextAllMatchingObjects, getCellData, getRowData,
      getAllRowsColumnData, getHeaderNames, getHeaderName, getHeaderColumnLength,
      getListOptions, getMetaTableRowsLength, clickMetaTableRowLink, isColumnValueExist,
      clickRowLink;
    repeat first [ apply tidy_staticWait | apply tidy_getTextAllMatchingObjects_loop
                 | apply tidy_getAllRowsColumnData_loop | tidy_step env ].
Qed.

Lemma tidy_misspelt m : tidy (misspelt env m).
Proof.
  destruct m; cbn [misspelt];
    unfold clear, getColumnHasText, getTable, getNth, getRow, clickLastLink, find,
      setCssAndXPath, clearFullCssAndXpath;
    repeat tidy_step env.
Qed.

Lemma tidy_pushTempLocators arrayLocators : tidy (pushTempLocators arrayLocators).
Proof.
  unfold pushTempLocators.
  induction arrayLocators as [| loc rest IH]; cbn [forEachM]; [apply tidy_ret |].
  apply tidy_bind; [| intros _; exact IH].
  apply tidy_bind; [apply tidy_getThis | intros h].
  destruct (tempLocators h) as [buf |]; [| apply tidy_throw].
  intros st r st' H. inversion H; subst. split; [repeat split |].
  exists []. split; [reflexivity | constructor].
Qed.

Lemma tidy_mapM {A B : Type} (body : A -> M B) (xs : list A) :
  (forall x, tidy (body x)) -> tidy (mapM body xs).
Proof.
  intros Hb. induction xs as [| x xs IH]; cbn [mapM]; [apply tidy_ret |].
  apply tidy_bind; [apply Hb | intros y].
  apply tidy_bind; [exact IH | intros ys; apply tidy_ret].
Qed.

Lemma tidy_getAllObjects options : tidy (getAllObjects env options).
Proof.
  unfold getAllObjects.
  apply tidy_bind.
  - destruct (optField go_hasText options);
      repeat first [ apply tidy_pushTempLocators | tidy_step env ].
  - intros _. apply tidy_bind; [apply tidy_getThis | intros h].
    destruct (tempLocators h) as [buf |]; [| apply tidy_throw].
    apply tidy_mapM. intros [loc i]. repeat tidy_step env.
Qed.

(** [getMetaTableMatchedRowIndices] puts one line on the console, the
    values it was given. *)
Lemma getMetaTableMatchedRowIndices_console rowValues options st r st' new :
  getMetaTableMatchedRowIndices env rowValues options st = (r, st') ->
  appended st st' new ->
  consoleLines new = ["Received data: " ++ arrayToString rowValues].
Proof.
  intros H A. unfold getMetaTableMatchedRowIndices in H.
  unfold bind at 1 in H. cbn [console_log emit] in H.
  match type of H with ?m ?s = _ => assert (S : silent m) end.
  { apply silent_bind; [apply silent_getElement | intros e].
    apply silent_bind; [apply silent_call | intros rows].
    apply silent_bind; [apply silent_collectMetaRows | intros arr; apply silent_ret]. }
  apply S in H as (n & A1 & F & _).
  destruct (noLog_silent n F) as (_ & C).
  assert (E : new = (n ++ [EvConsole ("Received data: " ++ arrayToString rowValues)])%list).
  { unfold appended in *. cbn [trace] in A1. apply (app_inv_tail (trace st)).
    rewrite <- A, A1, <- app_assoc. reflexivity. }
  unfold consoleLines in *. rewrite E, collect_app, C. reflexivity.
Qed.

End Console.

(** X7. Of the operations of the handle and the table embedded here (the
    chains of narrowing operations and terminal actions, the further reads
    and clicks with the waits of [staticWait], the operations on undeclared
    members, [getAllObjects] and [getMetaTableMatchedRowIndices]) only
    [getMetaTableMatchedRowIndices] can put a line that mentions a password
    on the console, and that line is its own ["Received data: "] line with
    the row values it was given: it prints with [console.log] itself. Every
    other line either goes through [logger.info], which keeps lines that
    mention a password off the console, or is one of the two fixed lines
    of [staticWait]. *)
Theorem only_getMetaTableMatchedRowIndices_prints_a_password :
  forall env playwright_page op st r st' new line,
    operate env playwright_page op st = (r, st') ->
    appended st st' new ->
    In line (consoleLines new) ->
    includes (toLowerCase line) "password" = true ->
    exists rowValues options,
      op = OGetMetaTableMatchedRowIndices rowValues options /\
      line = "Received data: " ++ arrayToString rowValues.
Proof.
  intros env pg op st r st' new line H A Hin Hp.
  assert (Clean : forall m : M unit, tidy m -> m st = (r, st') -> False).
  { intros m T Hm. destruct (T _ _ _ Hm) as (_ & new' & A' & F).
    rewrite <- (appended_unique _ _ _ _ A A') in F.
    pose proof (cleanEvent_console _ F) as C. rewrite Forall_forall in C.
    rewrite (C line Hin) in Hp. discriminate. }
  destruct op as [ns t | f | m | o | v o]; cbn [operate] in H.
  - exfalso. exact (Clean _ (tidy_chain env ns t) H).
  - exfalso. exact (Clean _ (tidy_further env pg f) H).
  - exfalso. exact (Clean _ (tidy_misspelt env m) H).
  - exfalso. exact (Clean _ (tidy_discard _ (tidy_getAllObjects env o)) H).
  - exists v, o. split; [reflexivity |].
    assert (C : consoleLines new = ["Received data: " ++ arrayToString v]).
    { unfold discard in H. bind_step H.
      - inversion H; subst. eapply getMetaTableMatchedRowIndices_console; eassumption.
      - eapply getMetaTableMatchedRowIndices_console; eassumption. }
    rewrite C in Hin. destruct Hin as [E | []]. symmetry. exact E.
Qed.

(** A search for a value that mentions a password puts it on the
    console. *)
Lemma only_getMetaTableMatchedRowIndices_prints_a_password_witness :
  let env := staticEnv (cellsDom [["Header"]; ["Alice"; "30"]; ["Bob"; "30"]]) in
  let op := OGetMetaTableMatchedRowIndices ["password: hunter2"] None in
  let run := operate env None op table in
  consoleLines (trace (snd run)) = ["Received data: password: hunter2"] /\
  exists rowValues options,
    op = OGetMetaTableMatchedRowIndices rowValues options /\
    "Received data: password: hunter2" = "Received data: " ++ arrayToString rowValues.
Proof.
  intros env op run. split; [vm_compute; reflexivity |].
  refine (only_getMetaTableMatchedRowIndices_prints_a_password env None op table
            (fst run) (snd run) (trace (snd run)) "Received data: password: hunter2"
            _ _ _ _).
  - vm_compute. reflexivity.
  - vm_compute. reflexivity.
  - vm_compute. left. reflexivity.
  - vm_compute. reflexivity.
Defined.
